(** * R-net: the forward computational graph of [models/r_net.py]

    A shallow embedding of the model definition file of the R-net
    question-answering network, and the properties its specification states
    about it.

    Conventions.
    - A tensor of rank [r] is a nest of [r] lists ([tensor A r]); a dimension
      of size zero therefore forgets the sizes of the dimensions inside it,
      and every statement below that reads a size is made for non-empty
      dimensions.
    - Floating-point values stay abstract: a feature slice (the vector found
      at one time step of one example) is a value of a type [F], a score is a
      value of a type [S], a scalar of the character CNN is a value of a
      type [R]; learned kernels are functions over them.
    - A Python exception is a value of [exn]; a call that may raise returns a
      [result].
    - The model file imports [Documents] and [CharDocuments] from
      utils/dataset.py, [AttentionPooling] from modules/attention.py and the
      recurrent modules from modules/recurrent.py; these files are not among
      the sources, and what the model file needs of them is modelled from the
      specification and marked as such. *)

From Stdlib Require Import String ZArith Arith Lia Bool List Permutation.
Import ListNotations.

(** ** Exceptions and the error monad *)

Inductive exn : Type :=
| ValueError (msg : string)
| IndexError (msg : string)
| RuntimeError (msg : string)
| AssertionError (msg : string).

Inductive result (A : Type) : Type :=
| Ok (a : A)
| Raise (e : exn).

Arguments Ok {A} a.
Arguments Raise {A} e.

Definition rbind {A B : Type} (m : result A) (k : A -> result B) : result B :=
  match m with
  | Ok a => k a
  | Raise e => Raise e
  end.

Declare Scope result_scope.
Delimit Scope result_scope with result.
Notation "x <- m ;; k" := (rbind m (fun x => k))
  (at level 61, m at next level, right associativity) : result_scope.
Notation "' p <- m ;; k" := (rbind m (fun p => k))
  (at level 61, p pattern, m at next level, right associativity) : result_scope.
Local Open Scope result_scope.

Fixpoint mapM {A B : Type} (f : A -> result B) (l : list A) : result (list B) :=
  match l with
  | [] => Ok []
  | x :: xs => y <- f x ;; ys <- mapM f xs ;; Ok (y :: ys)
  end.

(** ** The tensor engine (torch), as far as the model file uses it *)

Module Torch.

(** The element type of a tensor of numbers, as far as the model file
    meets it: integers that can serve as indices, and floats. *)
Inductive dtype : Type := Long | Float.

(** A tensor of rank [rank] over [A]. *)
Fixpoint tensor (A : Type) (rank : nat) : Type :=
  match rank with
  | 0 => A
  | S r => list (tensor A r)
  end.

(** [t[i]] with torch's bounds check. *)
Definition select {A : Type} (t : list A) (i : nat) : result A :=
  match nth_error t i with
  | Some x => Ok x
  | None => Raise (RuntimeError "index out of range")
  end.

(** [t.index_select(dim, index)]. *)
Fixpoint index_select {A : Type} (rank : nat)
  : nat -> list nat -> tensor A rank -> result (tensor A rank) :=
  match rank with
  | 0 => fun _ _ _ => Raise (IndexError "dimension out of range")
  | S r => fun dim index t =>
      match dim with
      | 0 => mapM (select t) index
      | S d => mapM (index_select r d index) t
      end
  end.

(** The size of [t] along [dim] is [n] (in every slice). *)
Fixpoint aligned {A : Type} (rank : nat) : nat -> nat -> tensor A rank -> Prop :=
  match rank with
  | 0 => fun _ _ _ => False
  | S r => fun dim n t =>
      match dim with
      | 0 => length t = n
      | S d => Forall (aligned r d n) t
      end
  end.

(** [t.size() == dims]. *)
Fixpoint has_shape {A : Type} (rank : nat) : list nat -> tensor A rank -> Prop :=
  match rank with
  | 0 => fun dims _ => dims = []
  | S r => fun dims t =>
      match dims with
      | [] => False
      | n :: dims' => length t = n /\ Forall (has_shape r dims') t
      end
  end.

(** [t[b][w][c]] of a tensor of rank 3, [d] standing for a place outside
    the tensor. *)
Definition entry {A : Type} (d : A) (t : list (list (list A))) (b w c : nat) : A :=
  nth c (nth w (nth b t []) []) d.

(** Column [j] of a matrix given by rows; rows that are too short do not
    contribute. *)
Definition column {A : Type} (rows : list (list A)) (j : nat) : list A :=
  flat_map (fun r => match nth_error r j with Some x => [x] | None => [] end) rows.

(** [t.transpose(0, 1)] of a rank-2 tensor. *)
Definition transpose {A : Type} (rows : list (list A)) : list (list A) :=
  map (column rows) (seq 0 (length (hd [] rows))).

(** [x + y] for two tensors (time, batch, features) of one shape: the sum of
    the feature slices at every place, [fadd] being the sum of two slices. *)
Definition add {F : Type} (fadd : F -> F -> F) (x y : list (list F))
  : list (list F) :=
  map (fun '(xs, ys) => map (fun '(a, b) => fadd a b) (combine xs ys))
      (combine x y).

(** *** torch.nn.utils.rnn *)

(** A packed sequence: the valid feature slices, time step after time step
    (within a step, by example), and how many examples are still running at
    each step. *)
Record PackedSequence (F : Type) : Type := {
  data : list F;
  batch_sizes : list nat
}.
Arguments data {F} _.
Arguments batch_sizes {F} _.

(** How many entries of [l] exceed [k]. *)
Definition count_gt (k : nat) (l : list nat) : nat :=
  length (filter (fun x => Nat.ltb k x) l).

(** From the lengths of the examples (longest first) to the batch size of
    every time step, and from the batch sizes of the steps back to the
    lengths: entry [k] counts the entries that exceed [k]. *)
Definition conjugate (l : list nat) : list nat :=
  map (fun k => count_gt k l) (seq 0 (hd 0 l)).

Fixpoint sorted_decreasing (l : list nat) : bool :=
  match l with
  | [] => true
  | a :: l' =>
      match l' with
      | [] => true
      | b :: _ => Nat.leb b a && sorted_decreasing l'
      end
  end.

(** The invariant of the packed sequences the engine builds: at least one
    time step, batch sizes that decrease and stay positive, and as many
    slices as the batch sizes announce. *)
Definition well_packed {F : Type} (p : PackedSequence F) : bool :=
  match batch_sizes p with
  | [] => false
  | _ :: _ =>
      sorted_decreasing (batch_sizes p)
      && Nat.leb 1 (last (batch_sizes p) 0)
      && Nat.eqb (length (data p)) (list_sum (batch_sizes p))
  end.

Section Packing.
Context {F : Type}.

(** The value that fills the padding: zeros of the shape of a slice. *)
Variable zeros_like : F -> F.

Definition padding (d : list F) (n : nat) : list F :=
  match d with
  | [] => []
  | x :: _ => repeat (zeros_like x) n
  end.

(** The rows (time steps) of the padded tensor: the next [b] slices of
    the data, then padding up to the batch size. *)
Fixpoint pad_steps (pad : nat -> list F) (max_batch_size : nat)
    (d : list F) (sizes : list nat) : list (list F) :=
  match sizes with
  | [] => []
  | b :: sizes' =>
      (firstn b d ++ pad (max_batch_size - b))
        :: pad_steps pad max_batch_size (skipn b d) sizes'
  end.

(** [pad_packed_sequence(sequence)]: the padded tensor
    (time, batch, features) and the list of lengths. *)
Definition pad_packed_sequence (sequence : PackedSequence F)
  : result (list (list F) * list nat) :=
  match batch_sizes sequence with
  | [] => Raise (IndexError "list index out of range")
  | max_batch_size :: _ =>
      Ok (pad_steps (padding (data sequence)) max_batch_size
            (data sequence) (batch_sizes sequence),
          conjugate (batch_sizes sequence))
  end.

(** [pack_padded_sequence(input, lengths, batch_first)]. *)
Definition pack_padded_sequence (input : list (list F)) (lengths : list nat)
    (batch_first : bool) : result (PackedSequence F) :=
  match lengths with
  | [] => Raise (IndexError "list index out of range")
  | _ :: _ =>
      if Nat.leb (last lengths 0) 0
      then Raise (ValueError "length of all samples has to be greater than 0")
      else
        let input := if batch_first then transpose input else input in
        if negb (Nat.eqb (length lengths) (length (hd [] input)))
        then Raise (ValueError "lengths array has incorrect size")
        else if negb (sorted_decreasing lengths)
        then Raise (ValueError "lengths array has to be sorted in decreasing order")
        else
          Ok {| data := concat (map (fun '(step, b) => firstn b step)
                                    (combine input (conjugate lengths)));
                batch_sizes := conjugate lengths |}
  end.

End Packing.

End Torch.

(** ** models/r_net.py: pack_residual *)

Section PackResidual.
Context {F : Type}.
Variable fadd : F -> F -> F.
Variable zeros_like : F -> F.

(** [x_lengths != y_lengths] on the lists of lengths that
    [pad_packed_sequence] returns. *)
Definition lengths_differ (x_lengths y_lengths : list nat) : bool :=
  if list_eq_dec Nat.eq_dec x_lengths y_lengths then false else true.

Definition pack_residual (x_pack y_pack : Torch.PackedSequence F)
  : result (Torch.PackedSequence F) :=
  '(x_tensor, x_lengths) <- Torch.pad_packed_sequence zeros_like x_pack ;;
  '(y_tensor, y_lengths) <- Torch.pad_packed_sequence zeros_like y_pack ;;
  if lengths_differ x_lengths y_lengths
  then Raise (ValueError "different lengths")
  else Torch.pack_padded_sequence (Torch.add fadd x_tensor y_tensor) x_lengths false.

End PackResidual.

(** ** utils/dataset.py: Documents *)

Module Dataset.

(** Modelled from the spec: the position of the first occurrence of [x] in
    [l] ([length l] when absent), for the inverse of the stored
    permutation. *)
Fixpoint index_of (x : nat) (l : list nat) : nat :=
  match l with
  | [] => 0
  | y :: ys => if Nat.eqb x y then 0 else S (index_of x ys)
  end.

(** Modelled from the spec: insertion of example [i] into a list of
    examples kept in descending order of [lens]. *)
Fixpoint insert_desc (lens : list nat) (i : nat) (l : list nat) : list nat :=
  match l with
  | [] => [i]
  | j :: js =>
      if Nat.ltb (nth j lens 0) (nth i lens 0)
      then i :: j :: js
      else j :: insert_desc lens i js
  end.

(** Modelled from the spec: the permutation that sorts [lens] in descending
    order, as packing requires. *)
Definition argsort_desc (lens : list nat) : list nat :=
  fold_right (insert_desc lens) [] (seq 0 (length lens)).

(** Modelled from the spec: the inverse of a permutation of [0 .. n-1]. *)
Definition sort_idx (perm : list nat) : list nat :=
  map (fun j => index_of j perm) (seq 0 (length perm)).

(** Modelled from the spec: the class [Documents] of utils/dataset.py, which
    is imported by the model file but is not among the sources.  A batch of
    variable-length token sequences: the token-index tensor
    (batch x max_len) and the per-sequence lengths in length-sorted order,
    the validity mask in the original order, and the stored permutation
    between the original and the length-sorted order, in both directions. *)
Record Documents : Type := {
  tensor : list (list Z);
  lengths : list nat;
  mask_original : list (list bool);
  sorted_idx : list nat;
  original_idx : list nat
}.

(** Modelled from the spec: construction of a batch from the token tensor
    and the lengths in the caller's order. *)
Definition Documents_init (tensor_original : list (list Z))
    (original_lengths : list nat) : result Documents :=
  let sorted := argsort_desc original_lengths in
  sorted_tensor <- Torch.index_select 2 0 sorted tensor_original ;;
  Ok {| tensor := sorted_tensor;
        lengths := map (fun i => nth i original_lengths 0) sorted;
        mask_original :=
          map (fun '(row, len) => map (fun j => Nat.ltb j len) (seq 0 (length row)))
              (combine tensor_original original_lengths);
        sorted_idx := sorted;
        original_idx := sort_idx sorted |}.

(** Modelled from the spec: [to_sorted_order] permutes the batch dimension
    from the original into the length-sorted order. *)
Definition to_sorted_order {A : Type} {rank : nat} (d : Documents)
    (original_tensor : Torch.tensor A rank) (batch_dim : nat)
  : result (Torch.tensor A rank) :=
  Torch.index_select rank batch_dim (sorted_idx d) original_tensor.

(** Modelled from the spec: [restore_original_order] permutes the batch
    dimension from the length-sorted order back into the original one. *)
Definition restore_original_order {A : Type} {rank : nat} (d : Documents)
    (sorted_tensor : Torch.tensor A rank) (batch_dim : nat)
  : result (Torch.tensor A rank) :=
  Torch.index_select rank batch_dim (original_idx d) sorted_tensor.

(** A batch as the data pipeline builds it: [batch_size] sequences, none of
    them empty, in a token tensor that is as wide as the longest of them. *)
Definition batch_of (batch_size max_len : nat) (tensor_original : list (list Z))
    (original_lengths : list nat) (d : Documents) : Prop :=
  Documents_init tensor_original original_lengths = Ok d
  /\ Torch.has_shape 2 [batch_size; max_len] tensor_original
  /\ length original_lengths = batch_size
  /\ Forall (fun l => 1 <= l <= max_len) original_lengths
  /\ In max_len original_lengths.

End Dataset.

(** ** torch.nn: the layers the character CNN and the word embedding use *)

Module NN.

Section Layers.
Context {R : Type}.
Variable rzero : R.
Variables radd rmul rmax : R -> R -> R.

Definition dot (u v : list R) : R :=
  fold_left radd (map (fun '(a, b) => rmul a b) (combine u v)) rzero.

(** *** nn.Embedding *)

Record Embedding : Type := {
  num_embeddings : nat;
  embedding_dim : nat;
  padding_idx : nat;
  weight : list (list R);
  requires_grad : bool
}.

(** [nn.Embedding(num_embeddings, embedding_dim, padding_idx)]: a fresh
    trainable table, [init] being the initial value of every entry, with
    the row of the padding index set to zeros.  The padding index has to
    name a row: the constructor asserts it for a positive index, and
    filling the row fails for the index 0 of a table without rows.  The
    padding index is a natural number here: the model file passes its
    configured index on, 1 by default, and a negative index, which
    [nn.Embedding] counts from the end of the table, is not
    represented. *)
Definition Embedding_init (init : nat -> nat -> R)
    (num embedding_size pad : nat) : result Embedding :=
  if Nat.ltb pad num
  then Ok {| num_embeddings := num;
             embedding_dim := embedding_size;
             padding_idx := pad;
             weight := map (fun i => if Nat.eqb i pad
                                     then repeat rzero embedding_size
                                     else map (init i) (seq 0 embedding_size))
                           (seq 0 num);
             requires_grad := true |}
  else if Nat.eqb pad 0
  then Raise (IndexError "index out of range")
  else Raise (AssertionError "Padding_idx must be within num_embeddings").

(** The index [i] names a row of the table [w]. *)
Definition valid_index (w : list (list R)) (i : Z) : Prop :=
  (0 <= i < Z.of_nat (length w))%Z.

(** The row of one index; an index outside the table is an error. *)
Definition lookup (e : Embedding) (i : Z) : result (list R) :=
  if Z.ltb i 0 then Raise (RuntimeError "index out of range")
  else Torch.select (weight e) (Z.to_nat i).

(** The forward pass on a tensor of indices of rank 2. *)
Definition Embedding_forward (e : Embedding) (indices : list (list Z))
  : result (list (list (list R))) :=
  mapM (mapM (lookup e)) indices.

(** The gradient the table receives from the gradient of the output of
    one forward pass: every row collects the gradients of the places that
    looked it up, except the row of the padding index, which collects
    nothing; a table that does not require gradients receives none. *)
Definition Embedding_backward (e : Embedding) (indices : list (list Z))
    (grad_output : list (list (list R))) : option (list (list R)) :=
  if requires_grad e then
    let places := combine (concat indices) (concat grad_output) in
    let zeros := repeat rzero (embedding_dim e) in
    Some (map (fun row =>
                 if Nat.eqb row (padding_idx e) then zeros
                 else fold_left
                        (fun acc '(i, g) =>
                           if Z.eqb i (Z.of_nat row)
                           then map (fun '(a, b) => radd a b) (combine acc g)
                           else acc)
                        places zeros)
              (seq 0 (num_embeddings e)))
  else None.

(** *** nn.Conv1d *)

Record Conv1d : Type := {
  in_channels : nat;
  out_channels : nat;
  kernel_size : nat;
  conv_weight : list (list (list R));   (* out_channels x in_channels x kernel_size *)
  conv_bias : list R                    (* out_channels *)
}.

Definition Conv1d_init (init_weight : nat -> nat -> nat -> R) (init_bias : nat -> R)
    (channels_in channels_out kernel : nat) : Conv1d :=
  {| in_channels := channels_in;
     out_channels := channels_out;
     kernel_size := kernel;
     conv_weight := map (fun f => map (fun c => map (init_weight f c) (seq 0 kernel))
                                      (seq 0 channels_in))
                        (seq 0 channels_out);
     conv_bias := map init_bias (seq 0 channels_out) |}.

(** The output of one filter at one position: the bias plus, over the
    channels, the product of the filter with the window that starts at
    the position. *)
Definition conv_at (k : nat) (x : list (list R)) (w : list (list R)) (b : R)
    (pos : nat) : R :=
  fold_left radd
    (map (fun '(wc, xc) => dot wc (firstn k (skipn pos xc))) (combine w x))
    b.

(** One example (channels x length) through the convolution; a kernel
    has at least one entry, and without padding the input has to be at
    least as long as the kernel. *)
Definition Conv1d_sample (c : Conv1d) (x : list (list R))
  : result (list (list R)) :=
  if Nat.eqb (kernel_size c) 0
  then Raise (RuntimeError "kernel size should be greater than zero")
  else if negb (Nat.eqb (length x) (in_channels c))
  then Raise (RuntimeError "input channels do not match")
  else
    let len := length (hd [] x) in
    if Nat.ltb len (kernel_size c)
    then Raise (RuntimeError "kernel size can't be greater than actual input size")
    else Ok (map (fun '(w, b) =>
                     map (conv_at (kernel_size c) x w b)
                         (seq 0 (len - kernel_size c + 1)))
                 (combine (conv_weight c) (conv_bias c))).

Definition Conv1d_forward (c : Conv1d) (input : list (list (list R)))
  : result (list (list (list R))) :=
  mapM (Conv1d_sample c) input.

(** *** nn.Linear *)

Record Linear : Type := {
  in_features : nat;
  out_features : nat;
  linear_weight : list (list R);        (* out_features x in_features *)
  linear_bias : list R                  (* out_features *)
}.

Definition Linear_init (init_weight : nat -> nat -> R) (init_bias : nat -> R)
    (features_in features_out : nat) : Linear :=
  {| in_features := features_in;
     out_features := features_out;
     linear_weight := map (fun o => map (init_weight o) (seq 0 features_in))
                          (seq 0 features_out);
     linear_bias := map init_bias (seq 0 features_out) |}.

Definition Linear_row (l : Linear) (x : list R) : result (list R) :=
  if negb (Nat.eqb (length x) (in_features l))
  then Raise (RuntimeError "size mismatch")
  else Ok (map (fun '(w, b) => radd (dot w x) b)
               (combine (linear_weight l) (linear_bias l))).

Definition Linear_forward (l : Linear) (input : list (list R))
  : result (list (list R)) :=
  mapM (Linear_row l) input.

(** *** Tensor operations *)

(** [torch.cat(tensors, dim=1)] of tensors of rank 2 with equally many
    rows. *)
Definition cat_dim1 (tensors : list (list (list R))) : list (list R) :=
  match tensors with
  | [] => []
  | t :: rest =>
      fold_left (fun acc t' => map (fun '(a, b) => a ++ b) (combine acc t'))
                rest t
  end.

(** [count] consecutive pieces of [size] entries. *)
Definition chunks {A : Type} (count size : nat) (l : list A) : list (list A) :=
  map (fun i => firstn size (skipn (i * size) l)) (seq 0 count).

(** [t.view(d0, d1, -1)] of a tensor of rank 2: the entries are kept in
    order and the last size is inferred from their number. *)
Definition view_3 (d0 d1 : nat) (t : list (list R))
  : result (list (list (list R))) :=
  let flat := concat t in
  if Nat.eqb (d0 * d1) 0
  then Raise (RuntimeError "cannot infer the size of dimension -1")
  else
    let d2 := length flat / (d0 * d1) in
    if negb (Nat.eqb (d0 * d1 * d2) (length flat))
    then Raise (RuntimeError "shape is invalid for input size")
    else Ok (chunks d0 d1 (chunks (d0 * d1) d2 flat)).

End Layers.

Arguments Embedding : clear implicits.
Arguments Conv1d : clear implicits.
Arguments Linear : clear implicits.

End NN.

(** ** models/r_net.py: Max, CharLevelWordEmbeddingCnn, WordEmbedding *)

Section Embeddings.
Context {R : Type}.
Variable rzero : R.
Variables radd rmul rmax : R -> R -> R.

(** The initial values the engine draws for fresh parameters. *)
Record Initializer : Type := {
  init_embedding : nat -> nat -> R;
  init_conv_weight : nat -> nat -> nat -> nat -> R;
  init_conv_bias : nat -> nat -> R;
  init_linear_weight : nat -> nat -> R;
  init_linear_bias : nat -> R
}.

(** *** class Max *)

Record Max : Type := { dim : nat }.

Definition max_entries (l : list R) : result R :=
  match l with
  | [] => Raise (RuntimeError "cannot perform reduction over an empty dimension")
  | a :: rest => Ok (fold_left rmax rest a)
  end.

(** [max_result, _ = input.max(dim=self.dim)] on a tensor of rank 3. *)
Definition Max_forward (self : Max) (input : list (list (list R)))
  : result (list (list R)) :=
  match dim self with
  | 0 => mapM (fun xs => mapM max_entries (Torch.transpose xs)) (Torch.transpose input)
  | 1 => mapM (fun x => mapM max_entries (Torch.transpose x)) input
  | 2 => mapM (mapM max_entries) input
  | _ => Raise (IndexError "dimension out of range")
  end.

(** *** class CharLevelWordEmbeddingCnn *)

(** One entry of [cnn_layers]:
    [nn.Sequential(nn.Conv1d(..), activation(), Max(2))]. *)
Record CnnLayer : Type := {
  conv : NN.Conv1d R;
  act : R -> R;
  pool : Max
}.

Definition CnnLayer_forward (layer : CnnLayer) (input : list (list (list R)))
  : result (list (list R)) :=
  convolved <- NN.Conv1d_forward rzero radd rmul (conv layer) input ;;
  Max_forward (pool layer) (map (map (map (act layer))) convolved).

Record CharLevelWordEmbeddingCnn : Type := {
  embed_char : NN.Embedding R;
  _embedding_size : nat;
  cnn_layers : list CnnLayer;
  output_layer : option (NN.Linear R);
  output_dim : nat
}.

(** [tensor.size()] of a tensor of rank 2. *)
Definition size_2 {A : Type} (t : list (list A)) : nat * nat :=
  (length t, length (hd [] t)).

(** [tensor.size()] of a tensor of rank 3. *)
Definition size_3 {A : Type} (t : list (list (list A))) : nat * nat * nat :=
  (length t, length (hd [] t), length (hd [] (hd [] t))).

(** What [if output_dim] tests: neither [None] nor [0]. *)
Definition truthy (output_dim : option nat) : option nat :=
  match output_dim with
  | Some (S d) => Some (S d)
  | _ => None
  end.

Definition CharLevelWordEmbeddingCnn_init (rng : Initializer)
    (char_embedding_size char_num num_filters : nat)
    (ngram_filter_sizes : list nat) (output_dim : option nat)
    (activation : R -> R) (embedding_weights : option (list (list R)))
    (padding_idx : nat) (requires_grad : bool)
  : result CharLevelWordEmbeddingCnn :=
  let '(char_num, char_embedding_size) :=
    match embedding_weights with
    | Some w => size_2 w
    | None => (char_num, char_embedding_size)
    end in
  embed_char <-
    NN.Embedding_init rzero (init_embedding rng) char_num char_embedding_size
      padding_idx ;;
  let embed_char :=
    match embedding_weights with
    | Some w =>
        {| NN.num_embeddings := NN.num_embeddings embed_char;
           NN.embedding_dim := NN.embedding_dim embed_char;
           NN.padding_idx := NN.padding_idx embed_char;
           NN.weight := w;
           NN.requires_grad := requires_grad |}
    | None => embed_char
    end in
  let cnn_layers :=
    map (fun '(i, filter_size) =>
           {| conv := NN.Conv1d_init (init_conv_weight rng i) (init_conv_bias rng i)
                        char_embedding_size num_filters filter_size;
              act := activation;
              pool := {| dim := 2 |} |})
        (combine (seq 0 (length ngram_filter_sizes)) ngram_filter_sizes) in
  let conv_out_size := length ngram_filter_sizes * num_filters in
  Ok {| embed_char := embed_char;
        _embedding_size := char_embedding_size;
        cnn_layers := cnn_layers;
        output_layer :=
          match truthy output_dim with
          | Some d => Some (NN.Linear_init (init_linear_weight rng)
                              (init_linear_bias rng) conv_out_size d)
          | None => None
          end;
        output_dim :=
          match truthy output_dim with
          | Some d => d
          | None => conv_out_size
          end |}.

(** The values of [tensor * mask.float()]: the index where the mask is
    set, 0 elsewhere.  The product is a tensor of floats. *)
Definition mask_indices (tensor : list (list (list Z)))
    (mask : list (list (list bool))) : list (list (list Z)) :=
  map (fun '(words, mwords) =>
         map (fun '(chars, mchars) =>
                map (fun '(c, m) => (c * (if m : bool then 1 else 0))%Z)
                    (combine chars mchars))
             (combine words mwords))
      (combine tensor mask).

(** [self.embed_char(indices)] on a tensor of element type [dtype]: the
    table is indexed by integers, and a tensor of floats is refused
    whatever its values are. *)
Definition embed_indices (e : NN.Embedding R) (dtype : Torch.dtype)
    (indices : list (list Z)) : result (list (list (list R))) :=
  match dtype with
  | Torch.Long => NN.Embedding_forward e indices
  | Torch.Float =>
      Raise (RuntimeError "expected the indices to have scalar type Long")
  end.

(** The input of the convolutions: lines 147-151 of [forward], from the
    tensor of character indices to the embedded characters of every word,
    one row per embedding channel.  The tensor of indices is a tensor of
    integers; its product with the mask is a tensor of floats. *)
Definition embedded_characters (self : CharLevelWordEmbeddingCnn)
    (tensor : list (list (list Z))) (mask : option (list (list (list bool))))
  : result (nat * nat * list (list (list R))) :=
  let '(tensor, dtype) :=
    match mask with
    | Some m => (mask_indices tensor m, Torch.Float)
    | None => (tensor, Torch.Long)
    end in
  let '(batch_num, word_num, char_num) := size_3 tensor in
  embedded <- embed_indices (embed_char self) dtype (concat tensor) ;;
  Ok (batch_num, word_num, map Torch.transpose embedded).

(** The result of the convolutions: lines 153-154 of [forward];
    [conv_out] is a Python list, and [conv_out[0]] of the empty list is an
    [IndexError]. *)
Definition convolved_characters (self : CharLevelWordEmbeddingCnn)
    (tensor : list (list (list R))) : result (list (list R)) :=
  conv_out <- mapM (fun layer => CnnLayer_forward layer tensor) (cnn_layers self) ;;
  if Nat.ltb 1 (length conv_out)
  then Ok (NN.cat_dim1 conv_out)
  else match conv_out with
       | output :: _ => Ok output
       | [] => Raise (IndexError "list index out of range")
       end.

Definition CharLevelWordEmbeddingCnn_forward (self : CharLevelWordEmbeddingCnn)
    (tensor : list (list (list Z))) (mask : option (list (list (list bool))))
  : result (list (list (list R))) :=
  '(batch_num, word_num, tensor) <- embedded_characters self tensor mask ;;
  output <- convolved_characters self tensor ;;
  output <- match output_layer self with
            | Some layer => NN.Linear_forward rzero radd rmul layer output
            | None => Ok output
            end ;;
  NN.view_3 batch_num word_num output.

(** *** class WordEmbedding *)

Record WordEmbedding : Type := {
  word_embedding_word_level : NN.Embedding R;
  word_output_dim : nat
}.

Definition WordEmbedding_init (rng : Initializer) (word_embedding : list (list R))
    (padding_idx : nat) (requires_grad : bool) : result WordEmbedding :=
  let '(word_vocab_size, word_embedding_dim) := size_2 word_embedding in
  table <-
    NN.Embedding_init rzero (init_embedding rng) word_vocab_size word_embedding_dim
      padding_idx ;;
  Ok {| word_embedding_word_level :=
          {| NN.num_embeddings := NN.num_embeddings table;
             NN.embedding_dim := NN.embedding_dim table;
             NN.padding_idx := NN.padding_idx table;
             NN.weight := word_embedding;
             NN.requires_grad := requires_grad |};
        word_output_dim := word_embedding_dim |}.

Definition WordEmbedding_forward (self : WordEmbedding)
    (tensors : list (list (list Z))) : result (list (list (list (list R)))) :=
  mapM (fun tensor => NN.Embedding_forward (word_embedding_word_level self) tensor)
       tensors.


End Embeddings.

Arguments Initializer : clear implicits.
Arguments CnnLayer : clear implicits.
Arguments CharLevelWordEmbeddingCnn : clear implicits.
Arguments WordEmbedding : clear implicits.


(** ** modules/attention.py and modules/recurrent.py *)

Section Modules.
Context {F S : Type}.

(** Modelled from the spec: the class [AttentionPooling] of
    modules/attention.py, which the model file imports but which is not among
    the sources.  Attention pooling computes a weighted summary of a set of
    key vectors, the weights being derived from the compatibility of every
    key with a query vector and masked to the valid positions; it can also
    return the unnormalized scores of the keys.  The learned parts stay
    abstract: [attn_score valid key query] is the unnormalized score of a
    key for a query, [attn_pool] the masked normalization of the scores of
    one example and the sum of its keys under the resulting weights. *)
Record AttentionPooling : Type := {
  attn_score : bool -> F -> F -> S;
  attn_pool : list (bool * S * F) -> F
}.

(** Modelled from the spec: a query for every example of the batch; under
    [broadcast_key] the one query is shared by all the examples. *)
Definition spread_query (broadcast_key : bool) (batch : nat) (query : list F)
  : list F :=
  if broadcast_key
  then match query with q :: _ => repeat q batch | [] => [] end
  else query.

(** Modelled from the spec: the summaries of one query position, one per
    example: the keys of the example with their validity and scores go
    through the masked normalization and the weighted sum. *)
Definition pooled_summary (self : AttentionPooling) (key : list (list F))
    (key_mask : list (list bool)) (query : list F) : list F :=
  map (fun '((keys, valid), q) =>
         attn_pool self
           (map (fun '(k, v) => (v, attn_score self v k q, k)) (combine keys valid)))
      (combine (combine (Torch.transpose key) (Torch.transpose key_mask)) query).

(** Modelled from the spec: the unnormalized scores of the keys, which lie
    where the keys lie. *)
Definition key_scores (self : AttentionPooling) (key : list (list F))
    (key_mask : list (list bool)) (query : list F) : list (list S) :=
  map (fun '(keys, valid) =>
         map (fun '((k, v), q) => attn_score self v k q)
             (combine (combine keys valid) query))
      (combine key key_mask).

(** Modelled from the spec: the forward pass of [AttentionPooling], in the
    layout of its callers in the model file (time first): the keys and their
    mask are (key_len, batch), the queries (query_len, batch), or
    (query_len, 1) under [broadcast_key]; the summaries are
    (query_len, batch) and the scores of the keys, taken for the first query
    position, are (key_len, batch). *)
Definition AttentionPooling_forward (self : AttentionPooling)
    (key queries : list (list F)) (key_mask : list (list bool))
    (broadcast_key : bool) : list (list F) * list (list S) :=
  let batch := length (hd [] key) in
  (map (fun query =>
          pooled_summary self key key_mask (spread_query broadcast_key batch query))
       queries,
   key_scores self key key_mask (spread_query broadcast_key batch (hd [] queries))).

Variable fadd : F -> F -> F.

(** Modelled from the spec: the class [StackedCell] of modules/recurrent.py,
    which is not among the sources: a stacked recurrent cell of one or more
    layers with optional residual connections, which takes an input and the
    hidden state of every layer to an output and the updated hidden
    states.  A layer is its learned transition from an input and a hidden
    state to the new hidden state. *)
Record StackedCell : Type := {
  layers : list (F -> F -> F);
  cell_residual : bool
}.

(** Modelled from the spec: the layers of a [StackedCell], one after the
    other: a layer takes its input and its hidden state to its new hidden
    state, which is the input of the next layer, after the residual sum
    with its own input when residual connections are on. *)
Fixpoint StackedCell_layers (residual : bool) (cells : list (F -> F -> F))
    (inputs : list F) (hidden : list (list F)) : list F * list (list F) :=
  match cells, hidden with
  | cell :: cells', h :: hidden' =>
      let h' := map (fun '(x, hx) => cell x hx) (combine inputs h) in
      let output :=
        if residual
        then map (fun '(a, b) => fadd a b) (combine h' inputs)
        else h' in
      let '(final, updated) := StackedCell_layers residual cells' output hidden' in
      (final, h' :: updated)
  | _, _ => (inputs, [])
  end.

(** Modelled from the spec: the forward pass of [StackedCell] on the inputs
    of a batch (batch) and the hidden states (num_layers, batch). *)
Definition StackedCell_forward (self : StackedCell) (inputs : list F)
    (hidden : list (list F)) : list F * list (list F) :=
  StackedCell_layers (cell_residual self) (layers self) inputs hidden.

(** Modelled from the spec: the recurrent encoder [RNN] of
    modules/recurrent.py, which is not among the sources.  It consumes a
    packed sequence and returns the packed sequence of its contextual
    states and a final hidden state; it enters as the function it
    computes. *)
Record RNN : Type := {
  RNN_forward : Torch.PackedSequence F -> Torch.PackedSequence F * list (list F)
}.

(** Modelled from the spec: the attention encoder [AttentionEncoder] of
    modules/recurrent.py, which is not among the sources.  It reads the
    passage as a packed sequence, the keys it attends to and their mask, and
    returns the packed sequence of its states and a final hidden state; it
    enters as the function it computes. *)
Record AttentionEncoder : Type := {
  AttentionEncoder_forward :
    Torch.PackedSequence F * list (list F) * list (list bool) ->
    Torch.PackedSequence F * list (list F)
}.

(** Modelled from the spec: an encoder keeps the lengths of what it
    encodes: it returns a well-packed sequence with the batch sizes of its
    input. *)
Definition keeps_lengths (encoder : Torch.PackedSequence F -> Torch.PackedSequence F)
  : Prop :=
  forall p, Torch.well_packed p = true ->
            Torch.well_packed (encoder p) = true
            /\ Torch.batch_sizes (encoder p) = Torch.batch_sizes p.

End Modules.

Arguments AttentionPooling : clear implicits.
Arguments StackedCell : clear implicits.
Arguments RNN : clear implicits.
Arguments AttentionEncoder : clear implicits.

(** ** models/r_net.py: the encoders, PointerNetwork, RNet and Model *)

Section Network.
Context {F S : Type}.
Variable fadd : F -> F -> F.
Variable zeros_like : F -> F.

(** *** Calls to the components, in the order they are made

    The trace of a forward pass records the calls to the pair encoder, to
    the self-matching encoder, to [pack_residual] and to the pointer
    network.  The two sentence encoders run first, inside
    [_sentence_encoding], and are not part of the trace. *)

Inductive call : Type :=
| PairEncoder_call (questions : list (list F)) (question_mark : list (list bool))
    (passage : Torch.PackedSequence F)
| SelfMatchingEncoder_call (questions : list (list F))
    (question_mark : list (list bool)) (passage : Torch.PackedSequence F)
| pack_residual_call (x_pack y_pack : Torch.PackedSequence F)
| PointerNetwork_call (question_pad : list (list F)) (question_mask : list (list bool))
    (passage_pad : list (list F)) (passage_mask : list (list bool)).

(** A computation that may raise and that records the calls it makes. *)
Definition run (A : Type) : Type := list call * result A.

Definition ret {A : Type} (a : A) : run A := ([], Ok a).

Definition lift {A : Type} (r : result A) : run A := ([], r).

Definition record (c : call) : run unit := ([c], Ok tt).

(** The calls [calls], then the computation [m]. *)
Definition after {A : Type} (calls : list call) (m : run A) : run A :=
  (calls ++ fst m, snd m).

Definition bind {A B : Type} (m : run A) (k : A -> run B) : run B :=
  match snd m with
  | Ok a => after (fst m) (k a)
  | Raise e => (fst m, Raise e)
  end.

(** *** class PairEncoder, class SelfMatchingEncoder *)

Record PairEncoder : Type := { pair_encoder : AttentionEncoder F }.

Definition PairEncoder_forward (self : PairEncoder) (questions : list (list F))
    (question_mark : list (list bool)) (passage : Torch.PackedSequence F)
  : Torch.PackedSequence F * list (list F) :=
  let inputs := (passage, questions, question_mark) in
  let result := AttentionEncoder_forward (pair_encoder self) inputs in
  result.

Record SelfMatchingEncoder : Type := { self_pair_encoder : AttentionEncoder F }.

Definition SelfMatchingEncoder_forward (self : SelfMatchingEncoder)
    (questions : list (list F)) (question_mark : list (list bool))
    (passage : Torch.PackedSequence F)
  : Torch.PackedSequence F * list (list F) :=
  let inputs := (passage, questions, question_mark) in
  AttentionEncoder_forward (self_pair_encoder self) inputs.

(** *** class SentenceEncoding *)

Record SentenceEncoding : Type := {
  question_encoder : RNN F;
  passage_encoder : RNN F
}.

Definition SentenceEncoding_forward (self : SentenceEncoding)
    (question_pack context_pack : Torch.PackedSequence F)
  : Torch.PackedSequence F * Torch.PackedSequence F :=
  let '(question_outputs, _) := RNN_forward (question_encoder self) question_pack in
  let '(passage_outputs, _) := RNN_forward (passage_encoder self) context_pack in
  (question_outputs, passage_outputs).

(** *** class PointerNetwork *)

Record PointerNetwork : Type := {
  num_layers : nat;
  question_pooling : AttentionPooling F S;
  passage_pooling : AttentionPooling F S;
  V_q : F;
  cell : StackedCell F
}.

(** [hidden.expand([n, hidden.size(1), hidden.size(2)])]. *)
Definition expand_0 (n : nat) (hidden : list (list F)) : result (list (list F)) :=
  match hidden with
  | [row] => Ok (repeat row n)
  | _ => if Nat.eqb (length hidden) n then Ok hidden
         else Raise (RuntimeError "the expanded size must match the existing size")
  end.

Definition PointerNetwork_forward (self : PointerNetwork)
    (question_pad : list (list F)) (question_mask : list (list bool))
    (passage_pad : list (list F)) (passage_mask : list (list bool))
  : result (list (list S) * list (list S)) :=
  let hidden :=
    fst (AttentionPooling_forward (question_pooling self) question_pad [[V_q self]]
           question_mask true) in
  let '(inputs, ans_begin) :=
    AttentionPooling_forward (passage_pooling self) passage_pad hidden
      passage_mask false in
  hidden <- expand_0 (num_layers self) hidden ;;
  match inputs with
  | [squeezed] =>
      let '(output, hidden) := StackedCell_forward fadd (cell self) squeezed hidden in
      let '(_, ans_end) :=
        AttentionPooling_forward (passage_pooling self) passage_pad [output]
          passage_mask false in
      Ok (ans_begin, ans_end)
  | _ => Raise (RuntimeError "the input of the cell is not of rank 2")
  end.

(** *** class RNet *)

Record RNet : Type := {
  sentence_encoding : SentenceEncoding;
  rnet_pair_encoder : PairEncoder;
  self_matching_encoder : SelfMatchingEncoder;
  pointer_output : PointerNetwork;
  residual : bool
}.

Definition _sentence_encoding (self : RNet)
    (embedded_passage embedded_question : list (list F))
    (passage question : Dataset.Documents)
  : result (Torch.PackedSequence F * Torch.PackedSequence F) :=
  rbind (Torch.pack_padded_sequence embedded_question (Dataset.lengths question) true)
    (fun question_pack =>
  rbind (Torch.pack_padded_sequence embedded_passage (Dataset.lengths passage) true)
    (fun passage_pack =>
  let '(question_encoded_pack, passage_encoded_pack) :=
    SentenceEncoding_forward (sentence_encoding self) question_pack passage_pack in
  Ok (passage_encoded_pack, question_encoded_pack))).

Definition _pair_encode (self : RNet) (passage_encoded_pack : Torch.PackedSequence F)
    (question_encoded_padded_in_passage_sorted_order : list (list F))
    (question_mask_in_passage_order : list (list bool))
  : run (Torch.PackedSequence F) :=
  bind (record (PairEncoder_call question_encoded_padded_in_passage_sorted_order
                  question_mask_in_passage_order passage_encoded_pack))
    (fun _ =>
  let '(paired_passage_pack, _) :=
    PairEncoder_forward (rnet_pair_encoder self)
      question_encoded_padded_in_passage_sorted_order
      question_mask_in_passage_order passage_encoded_pack in
  ret paired_passage_pack).

Definition _self_match_encode (self : RNet)
    (paired_passage_pack : Torch.PackedSequence F) (passage : Dataset.Documents)
  : run (Torch.PackedSequence F) :=
  bind (lift (Dataset.to_sorted_order (rank := 2) passage
                (Dataset.mask_original passage) 0))
    (fun sorted_mask =>
  let passage_mask_sorted_order := Torch.transpose sorted_mask in
  bind (lift (Torch.pad_packed_sequence zeros_like paired_passage_pack))
    (fun padded =>
  bind (record (SelfMatchingEncoder_call (fst padded) passage_mask_sorted_order
                  paired_passage_pack))
    (fun _ =>
  let '(self_matched_passage, _) :=
    SelfMatchingEncoder_forward (self_matching_encoder self) (fst padded)
      passage_mask_sorted_order paired_passage_pack in
  ret self_matched_passage))).

(** [pack_residual], recorded. *)
Definition residual_sum (x_pack y_pack : Torch.PackedSequence F)
  : run (Torch.PackedSequence F) :=
  bind (record (pack_residual_call x_pack y_pack))
    (fun _ => lift (pack_residual fadd zeros_like x_pack y_pack)).

(** Lines 380-387 of [forward]: the encoded question, padded, and the mask
    of the question, both brought into the sorted order of the passage. *)
Definition question_in_passage_sorted_order (question passage : Dataset.Documents)
    (question_pack : Torch.PackedSequence F)
  : result (list (list F) * list (list bool)) :=
  rbind (Torch.pad_packed_sequence zeros_like question_pack)
    (fun '(question_encoded_padded_sorted, _) =>
  rbind (Dataset.restore_original_order (rank := 2) question
           question_encoded_padded_sorted 1)
    (fun question_encoded_padded_original =>
  rbind (Dataset.to_sorted_order (rank := 2) passage
           question_encoded_padded_original 1)
    (fun question_pad_in_passage_sorted_order =>
  rbind (Dataset.to_sorted_order (rank := 2) passage
           (Dataset.mask_original question) 0)
    (fun sorted_mask =>
  Ok (question_pad_in_passage_sorted_order, Torch.transpose sorted_mask))))).

Definition RNet_forward (self : RNet) (question passage : Dataset.Documents)
    (embedded_question embedded_passage : list (list F))
  : run (list (list S) * list (list S)) :=
  bind (lift (_sentence_encoding self embedded_passage embedded_question
                passage question))
    (fun '(passage_pack, question_pack) =>
  bind (lift (question_in_passage_sorted_order question passage question_pack))
    (fun '(question_pad_in_passage_sorted_order,
           question_mask_in_passage_sorted_order) =>
  bind (_pair_encode self passage_pack question_pad_in_passage_sorted_order
          question_mask_in_passage_sorted_order)
    (fun paired_passage_pack =>
  bind (if residual self
        then residual_sum paired_passage_pack passage_pack
        else ret paired_passage_pack)
    (fun paired_passage_pack =>
  bind (_self_match_encode self paired_passage_pack passage)
    (fun self_matched_passage_pack =>
  bind (if residual self
        then residual_sum paired_passage_pack self_matched_passage_pack
        else ret self_matched_passage_pack)
    (fun self_matched_passage_pack =>
  bind (lift (Torch.pad_packed_sequence zeros_like self_matched_passage_pack))
    (fun passage_padded =>
  bind (lift (Dataset.to_sorted_order (rank := 2) passage
                (Dataset.mask_original passage) 0))
    (fun passage_sorted_mask =>
  bind (record (PointerNetwork_call question_pad_in_passage_sorted_order
                  question_mask_in_passage_sorted_order (fst passage_padded)
                  (Torch.transpose passage_sorted_mask)))
    (fun _ =>
  bind (lift (PointerNetwork_forward (pointer_output self)
                question_pad_in_passage_sorted_order
                question_mask_in_passage_sorted_order (fst passage_padded)
                (Torch.transpose passage_sorted_mask)))
    (fun '(begin, end_) =>
  bind (lift (Dataset.restore_original_order (rank := 2) passage
                (Torch.transpose begin) 0))
    (fun begin_original =>
  bind (lift (Dataset.restore_original_order (rank := 2) passage
                (Torch.transpose end_) 0))
    (fun end_original =>
  ret (begin_original, end_original))))))))))))).

(** The four encoders of the network keep the lengths of the sequences
    they encode. *)
Definition encoders_keep_lengths (self : RNet) : Prop :=
  keeps_lengths
    (fun p => fst (RNN_forward (question_encoder (sentence_encoding self)) p))
  /\ keeps_lengths
       (fun p => fst (RNN_forward (passage_encoder (sentence_encoding self)) p))
  /\ (forall questions question_mark,
        keeps_lengths
          (fun p => fst (PairEncoder_forward (rnet_pair_encoder self)
                           questions question_mark p)))
  /\ (forall questions question_mark,
        keeps_lengths
          (fun p => fst (SelfMatchingEncoder_forward (self_matching_encoder self)
                           questions question_mark p))).

End Network.

Arguments call : clear implicits.
Arguments PairEncoder : clear implicits.
Arguments SelfMatchingEncoder : clear implicits.
Arguments SentenceEncoding : clear implicits.
Arguments PointerNetwork : clear implicits.
Arguments RNet : clear implicits.

Section TopLevel.
Context {R S : Type}.
Variable rzero : R.
Variables radd rmul rmax : R -> R -> R.

(** Modelled from the spec: the class [CharDocuments] of utils/dataset.py,
    which is not among the sources: the character indices of every token of
    a batch (batch x max_len x max_char_len), in the batch order of its
    parent [Documents]. *)
Record CharDocuments : Type := { char_tensor : list (list (list Z)) }.

(** [torch.cat([x, y], dim=2)] of two tensors of rank 3 that agree on their
    first two sizes. *)
Definition cat_dim2 (x y : list (list (list R))) : list (list (list R)) :=
  map (fun '(xs, ys) => map (fun '(a, b) => a ++ b) (combine xs ys)) (combine x y).

(** A feature slice is a vector: its sum and its zeros. *)
Definition vector_add (u v : list R) : list R :=
  map (fun '(a, b) => radd a b) (combine u v).

Definition vector_zeros_like (u : list R) : list R := map (fun _ => rzero) u.

Record Model : Type := {
  word_embedding : WordEmbedding R;
  char_embedding : CharLevelWordEmbeddingCnn R;
  r_net : RNet (list R) S
}.

(** [Model.forward].  Moving the tensors to the device of [args.device_id]
    leaves their values as they are and is not represented. *)
Definition Model_forward (self : Model) (question : Dataset.Documents)
    (question_char : CharDocuments) (passage : Dataset.Documents)
    (passage_char : CharDocuments)
  : run (list (list S) * list (list S)) :=
  bind (lift (WordEmbedding_forward (word_embedding self)
                [Dataset.tensor question; Dataset.tensor passage]))
    (fun embedded =>
  match embedded with
  | [embedded_question; embedded_passage] =>
      bind (lift (CharLevelWordEmbeddingCnn_forward rzero radd rmul rmax
                    (char_embedding self) (char_tensor question_char) None))
        (fun embedded_question_char =>
      bind (lift (CharLevelWordEmbeddingCnn_forward rzero radd rmul rmax
                    (char_embedding self) (char_tensor passage_char) None))
        (fun embedded_passage_char =>
      let embedded_passage_merged := cat_dim2 embedded_passage embedded_passage_char in
      let embedded_question_merged := cat_dim2 embedded_question embedded_question_char in
      RNet_forward vector_add vector_zeros_like (r_net self) question passage
        embedded_question_merged embedded_passage_merged))
  | _ => lift (Raise (ValueError "not enough values to unpack"))
  end).

End TopLevel.

Arguments Model : clear implicits.

(** ** models/r_net.py: Flatten *)

Section FlattenModule.
Context {R : Type}.

(** The entries of a tensor in their order in memory (row-major). *)
Fixpoint entries (rank : nat) : Torch.tensor R rank -> list R :=
  match rank with
  | 0 => fun x => [x]
  | S r => fun t => flat_map (entries r) t
  end.

(** [input.view(input.size(0), -1)] on a tensor of rank [S rank]: a view
    shares the memory of its input, which therefore has to hold its
    entries in their order ([contiguous], what [input.is_contiguous()]
    returns; a transposed tensor does not); then the entries are kept in
    order and the second size is inferred from their number. *)
Definition Flatten_forward (rank : nat) (contiguous : bool)
    (input : Torch.tensor R (S rank)) : result (list (list R)) :=
  let d0 := length input in
  let flat := entries (S rank) input in
  if negb contiguous
  then Raise (RuntimeError "input is not contiguous")
  else if Nat.eqb d0 0
  then Raise (RuntimeError "cannot infer the size of dimension -1")
  else
    let d1 := length flat / d0 in
    if negb (Nat.eqb (d0 * d1) (length flat))
    then Raise (RuntimeError "shape is invalid for input size")
    else Ok (NN.chunks d0 d1 flat).

End FlattenModule.

(** ** What a call to a component of [RNet] has to look like *)

Section CallShapes.
Context {F : Type}.

(** A recorded call fits a batch of [batch] examples with questions padded
    to [question_length] and passages of the lengths [passage_lengths]
    padded to [passage_length]: every padded tensor comes with a mask of
    its shape, time first, and every packed sequence is well packed and
    has the lengths of the passages. *)
Definition call_fits (batch question_length passage_length : nat)
    (passage_lengths : list nat) (c : call F) : Prop :=
  match c with
  | PairEncoder_call questions question_mark passage =>
      Torch.has_shape 2 [question_length; batch] questions
      /\ Torch.has_shape 2 [question_length; batch] question_mark
      /\ Torch.well_packed passage = true
      /\ Torch.conjugate (Torch.batch_sizes passage) = passage_lengths
  | SelfMatchingEncoder_call questions question_mark passage =>
      Torch.has_shape 2 [passage_length; batch] questions
      /\ Torch.has_shape 2 [passage_length; batch] question_mark
      /\ Torch.well_packed passage = true
      /\ Torch.conjugate (Torch.batch_sizes passage) = passage_lengths
  | pack_residual_call x_pack y_pack =>
      Torch.well_packed x_pack = true
      /\ Torch.well_packed y_pack = true
      /\ Torch.conjugate (Torch.batch_sizes x_pack) = passage_lengths
      /\ Torch.conjugate (Torch.batch_sizes y_pack) = passage_lengths
  | PointerNetwork_call question_pad question_mask passage_pad passage_mask =>
      Torch.has_shape 2 [question_length; batch] question_pad
      /\ Torch.has_shape 2 [question_length; batch] question_mask
      /\ Torch.has_shape 2 [passage_length; batch] passage_pad
      /\ Torch.has_shape 2 [passage_length; batch] passage_mask
  end.

End CallShapes.

(** ** models/r_net.py: CharLevelWordEmbeddingCnn.forward, word by word *)

Section WordVectors.
Context {R : Type}.
Variable rzero : R.
Variables radd rmul rmax : R -> R -> R.

(** Lines 151-157 of [forward] without a mask, on the flattened view
    (batch * word, char) of the indices: the characters of every word are
    embedded, go through the convolution layers and, if there is one,
    through the projection. *)
Definition word_vectors (self : CharLevelWordEmbeddingCnn R)
    (rows : list (list Z)) : result (list (list R)) :=
  embedded <- NN.Embedding_forward (embed_char self) rows ;;
  output <- convolved_characters rzero radd rmul rmax self
              (map Torch.transpose embedded) ;;
  match output_layer self with
  | Some layer => NN.Linear_forward rzero radd rmul layer output
  | None => Ok output
  end.

End WordVectors.

(** A computation on a list of rows that treats every row on its own: when
    it returns, it returns one result per row, which is the result for this
    row alone. *)
Definition rowwise {A B : Type} (P : list A -> result (list B)) : Prop :=
  forall rows out,
    P rows = Ok out ->
    length out = length rows
    /\ forall k x, nth_error rows k = Some x ->
         exists y, nth_error out k = Some y /\ P [x] = Ok [y].

(** ** models/r_net.py: RNet.__init__, the loop over the parameters *)

(** How the constructor ends: every parameter has been visited, [orthogonal]
    telling for each of them whether [nn.init.orthogonal] was applied, or an
    exception has left the loop. *)
Inductive init_outcome : Type :=
| initialized (orthogonal : list bool)
| raised_ValueError (msg : string)
| raised_TypeError (msg : string).

(** Lines 367-369, on the sizes of the parameters in the order of
    [self.parameters()].  [parameters()] yields the parameters themselves, so
    that [for name, weight in ...] unpacks every parameter: it iterates over
    its first dimension and needs exactly two slices, of which the second is
    [weight]. *)
Fixpoint init_parameters (parameters : list (list nat)) : init_outcome :=
  match parameters with
  | [] => initialized []
  | size :: rest =>
      match size with
      | [] => raised_TypeError "iteration over a 0-d tensor"
      | n :: weight_size =>
          if Nat.ltb n 2 then raised_ValueError "not enough values to unpack"
          else if Nat.ltb 2 n then raised_ValueError "too many values to unpack"
          else
            match init_parameters rest with
            | initialized orthogonal =>
                initialized (Nat.leb 2 (length weight_size) :: orthogonal)
            | failure => failure
            end
      end
  end.

(** Line 229: the size of the parameter [V_q] of [PointerNetwork],
    [torch.randn(1, 1, v_q_size)] with [v_q_size = question_size]. *)
Definition V_q_size (question_size : nat) : list nat := [1; 1; question_size].

(** The parameters of an [RNet]: [V_q] of its pointer network, after the
    parameters of the modules registered before the pointer network and
    before the parameters of the submodules of the pointer network. *)
Definition RNet_parameters (before after : list (list nat)) (question_size : nat)
  : list (list nat) :=
  before ++ V_q_size question_size :: after.
(** ** Concrete instances for the examples: integers as scalars *)

Module Instances.

Definition relu (x : Z) : Z := Z.max x 0.

(** An initializer that fills every parameter with ones and zero biases. *)
Definition ones : Initializer Z := {|
  init_embedding := fun _ _ => 1%Z;
  init_conv_weight := fun _ _ _ _ => 1%Z;
  init_conv_bias := fun _ _ => 0%Z;
  init_linear_weight := fun _ _ => 1%Z;
  init_linear_bias := fun _ => 0%Z
|}.

(** A character table of three characters with two channels, the row of the
    padding index 1 being zero. *)
Definition char_table : list (list Z) := [[5; 5]; [0; 0]; [1; 2]]%Z.

(** The convolution layer that the constructor builds from [ones] at
    place [i] of the filter widths, for two channels and three filters. *)
Definition cnn_layer (i filter_size : nat) : CnnLayer Z :=
  {| conv := NN.Conv1d_init (init_conv_weight ones i) (init_conv_bias ones i)
               2 3 filter_size;
     act := relu;
     pool := {| dim := 2 |} |}.

(** A character CNN over [char_table] with one filter width 2, three
    filters and no projection, as the constructor builds it. *)
Definition char_cnn : CharLevelWordEmbeddingCnn Z :=
  {| embed_char := {| NN.num_embeddings := 3;
                      NN.embedding_dim := 2;
                      NN.padding_idx := 1;
                      NN.weight := char_table;
                      NN.requires_grad := true |};
     _embedding_size := 2;
     cnn_layers := [cnn_layer 0 2];
     output_layer := None;
     output_dim := 3 |}.


(** A character CNN over [char_table] with the filter widths 2 and 5, and
    one without any filter width. *)
Definition char_cnn_2_5 : CharLevelWordEmbeddingCnn Z :=
  {| embed_char := embed_char char_cnn;
     _embedding_size := 2;
     cnn_layers := [cnn_layer 0 2; cnn_layer 1 5];
     output_layer := None;
     output_dim := 6 |}.

Definition char_cnn_no_filter : CharLevelWordEmbeddingCnn Z :=
  {| embed_char := embed_char char_cnn;
     _embedding_size := 2;
     cnn_layers := [];
     output_layer := None;
     output_dim := 0 |}.

(** The word embedding that the constructor builds over [char_table] as the
    table of three words, with padding index 1 and a frozen table. *)
Definition word_embedding_3 : WordEmbedding Z :=
  {| word_embedding_word_level := {| NN.num_embeddings := 3;
                                     NN.embedding_dim := 2;
                                     NN.padding_idx := 1;
                                     NN.weight := char_table;
                                     NN.requires_grad := false |};
     word_output_dim := 2 |}.

(** An attention pooling over integers: the score of a key is its product
    with the query, the summary the sum of the valid keys under their
    scores. *)
Definition pooling : AttentionPooling Z Z := {|
  attn_score := fun _ k q => (k * q)%Z;
  attn_pool := fun entries =>
    fold_left (fun acc '(valid, s, k) => if valid : bool then (acc + s * k)%Z else acc)
              entries 0%Z
|}.

(** An encoder that doubles every state and one that adds 100 to it. *)
Definition doubling (p : Torch.PackedSequence Z) : Torch.PackedSequence Z :=
  {| Torch.data := map (fun x => (2 * x)%Z) (Torch.data p);
     Torch.batch_sizes := Torch.batch_sizes p |}.

Definition lifting (p : Torch.PackedSequence Z) : Torch.PackedSequence Z :=
  {| Torch.data := map (fun x => (x + 100)%Z) (Torch.data p);
     Torch.batch_sizes := Torch.batch_sizes p |}.

Definition pointer : PointerNetwork Z Z := {|
  num_layers := 1;
  question_pooling := pooling;
  passage_pooling := pooling;
  V_q := 1%Z;
  cell := {| layers := [Z.add]; cell_residual := false |}
|}.

Definition net (with_residual : bool) : RNet Z Z := {|
  sentence_encoding :=
    {| question_encoder := {| RNN_forward := fun p => (p, []) |};
       passage_encoder := {| RNN_forward := fun p => (p, []) |} |};
  rnet_pair_encoder :=
    {| pair_encoder :=
         {| AttentionEncoder_forward := fun '(p, _, _) => (doubling p, []) |} |};
  self_matching_encoder :=
    {| self_pair_encoder :=
         {| AttentionEncoder_forward := fun '(p, _, _) => (lifting p, []) |} |};
  pointer_output := pointer;
  residual := with_residual
|}.

(** A batch of two examples: questions of lengths 2 and 3, so that the
    sorted order of the questions exchanges the examples, and passages of
    lengths 3 and 2. *)
Definition question_tokens : list (list Z) := [[7; 8; 0]; [4; 5; 6]]%Z.
Definition question_lengths : list nat := [2; 3].
Definition passage_tokens : list (list Z) := [[1; 2; 3]; [4; 5; 0]]%Z.
Definition passage_lengths : list nat := [3; 2].

Definition question : Dataset.Documents :=
  {| Dataset.tensor := [[4; 5; 6]; [7; 8; 0]]%Z;
     Dataset.lengths := [3; 2];
     Dataset.mask_original := [[true; true; false]; [true; true; true]];
     Dataset.sorted_idx := [1; 0];
     Dataset.original_idx := [1; 0] |}.

Definition passage : Dataset.Documents :=
  {| Dataset.tensor := [[1; 2; 3]; [4; 5; 0]]%Z;
     Dataset.lengths := [3; 2];
     Dataset.mask_original := [[true; true; true]; [true; true; false]];
     Dataset.sorted_idx := [0; 1];
     Dataset.original_idx := [0; 1] |}.

(** The embedded batches, in the sorted order of their documents. *)
Definition embedded_question : list (list Z) := [[40; 50; 60]; [70; 80; 0]]%Z.
Definition embedded_passage : list (list Z) := [[10; 20; 30]; [40; 50; 0]]%Z.

(** An encoder that runs one time step longer than its input, and a
    network with the residual connections on whose pair encoder is that
    encoder. *)
Definition stretching (p : Torch.PackedSequence Z) : Torch.PackedSequence Z :=
  {| Torch.data := Torch.data p ++ [0%Z];
     Torch.batch_sizes := Torch.batch_sizes p ++ [1] |}.

Definition stretching_net : RNet Z Z := {|
  sentence_encoding := sentence_encoding (net true);
  rnet_pair_encoder :=
    {| pair_encoder :=
         {| AttentionEncoder_forward := fun '(p, _, _) => (stretching p, []) |} |};
  self_matching_encoder := self_matching_encoder (net true);
  pointer_output := pointer;
  residual := true
|}.






(** The characters of the tokens of the two batches, two per token, in the
    sorted order of their documents. *)
Definition question_char : CharDocuments :=
  {| char_tensor := [[[0; 2]; [2; 2]; [0; 0]]; [[2; 0]; [0; 2]; [1; 1]]]%Z |}.

Definition passage_char : CharDocuments :=
  {| char_tensor := [[[2; 2]; [0; 2]; [2; 0]]; [[0; 0]; [2; 2]; [1; 1]]]%Z |}.

End Instances.

(** * Properties *)

(** ** The error monad *)

Lemma mapM_Ok_map {A B : Type} (f : A -> result B) (g : A -> B) (l : list A) :
  (forall x, In x l -> f x = Ok (g x)) -> mapM f l = Ok (map g l).
Proof.
  induction l as [|x xs IH]; intros H; simpl; [reflexivity|].
  rewrite (H x (or_introl eq_refl)). simpl.
  rewrite IH by (intros y Hy; apply H; right; exact Hy).
  reflexivity.
Qed.

Lemma mapM_Ok_length {A B : Type} (f : A -> result B) (l : list A) (r : list B) :
  mapM f l = Ok r -> length r = length l.
Proof.
  revert r; induction l as [|x xs IH]; intros r; simpl.
  - intros [= <-]. reflexivity.
  - destruct (f x) as [y|e]; simpl; [|discriminate].
    destruct (mapM f xs) as [ys|e]; simpl; [|discriminate].
    intros [= <-]. simpl. f_equal. apply IH. reflexivity.
Qed.

Lemma mapM_Ok_nth_error {A B : Type} (f : A -> result B) (l : list A) (r : list B) :
  mapM f l = Ok r ->
  forall i x, nth_error l i = Some x -> exists y, nth_error r i = Some y /\ f x = Ok y.
Proof.
  revert r; induction l as [|a xs IH]; intros r; simpl.
  - intros _ [|i] x; discriminate.
  - destruct (f a) as [y|e] eqn:Hfa; simpl; [|discriminate].
    destruct (mapM f xs) as [ys|e]; simpl; [|discriminate].
    intros [= <-] [|i] x; simpl.
    + intros [= <-]. exists y. split; [reflexivity|exact Hfa].
    + intros Hx. apply (IH ys eq_refl i x Hx).
Qed.

Lemma mapM_id_Ok {A : Type} (f : A -> result A) (l : list A) :
  (forall x, In x l -> f x = Ok x) -> mapM f l = Ok l.
Proof.
  intros H. rewrite (mapM_Ok_map f (fun x => x)) by exact H.
  rewrite map_id. reflexivity.
Qed.

(** ** Index selection *)

Import Torch.

Lemma select_Ok {A : Type} (t : list A) (i : nat) (d : A) :
  i < length t -> select t i = Ok (nth i t d).
Proof.
  intros H. unfold select. rewrite (nth_error_nth' t d H). reflexivity.
Qed.

(** Selecting along dimension 0 with in-range indices. *)
Lemma mapM_select_Ok {A : Type} (t : list A) (index : list nat) (d : A) :
  Forall (fun i => i < length t) index ->
  mapM (select t) index = Ok (map (fun i => nth i t d) index).
Proof.
  intros H. apply mapM_Ok_map. intros i Hi.
  apply select_Ok. rewrite Forall_forall in H. apply H, Hi.
Qed.

(** The identity selection. *)
Lemma mapM_select_seq {A : Type} (t : list A) :
  mapM (select t) (seq 0 (length t)) = Ok t.
Proof.
  destruct t as [|d t']; [reflexivity|].
  rewrite (mapM_select_Ok (d :: t') _ d).
  - f_equal. apply nth_ext with (d := d) (d' := d).
    + rewrite length_map, length_seq. reflexivity.
    + intros n Hn. rewrite length_map, length_seq in Hn.
      rewrite (nth_indep _ d (nth 0 (d :: t') d)) by (rewrite length_map, length_seq; exact Hn).
      rewrite (map_nth (fun i => nth i (d :: t') d)). rewrite seq_nth by exact Hn.
      reflexivity.
  - apply Forall_forall. intros i Hi. apply in_seq in Hi. lia.
Qed.

Lemma mapM_map {B C : Type} (f : B -> result C) (g : nat -> B) (l : list nat) :
  mapM f (map g l) = mapM (fun i => f (g i)) l.
Proof.
  induction l as [|x xs IH]; simpl; [reflexivity|]. rewrite IH. reflexivity.
Qed.

Lemma mapM_ext_in {B C : Type} (f g : B -> result C) (l : list B) :
  (forall x, In x l -> f x = g x) -> mapM f l = mapM g l.
Proof.
  induction l as [|x xs IH]; intros H; simpl; [reflexivity|].
  rewrite (H x (or_introl eq_refl)).
  rewrite IH by (intros y Hy; apply H; right; exact Hy).
  reflexivity.
Qed.

(** Selection along dimension 0 succeeds for in-range indices. *)
Lemma mapM_select_total {A : Type} (t : list A) (index : list nat) :
  Forall (fun i => i < length t) index ->
  exists y, mapM (select t) index = Ok y.
Proof.
  destruct t as [|d t'].
  - destruct index as [|i index']; [exists []; reflexivity|].
    intros H. inversion H; subst. simpl in *. lia.
  - intros H. eexists. apply (mapM_select_Ok (d :: t') _ d H).
Qed.

(** Reading a selected tensor is reading the source at the selected place. *)
Lemma select_selected {A : Type} (t y : list A) (idx1 : list nat) (i : nat) :
  mapM (select t) idx1 = Ok y -> i < length idx1 ->
  select y i = select t (nth i idx1 0).
Proof.
  intros Hy Hi.
  destruct (nth_error idx1 i) as [k|] eqn:Hk;
    [|apply nth_error_None in Hk; lia].
  destruct (mapM_Ok_nth_error _ _ _ Hy _ _ Hk) as (v & Hv & Hsel).
  rewrite (nth_error_nth _ _ 0 Hk). rewrite Hsel.
  unfold select. rewrite Hv. reflexivity.
Qed.

(** Two selections along one dimension compose into one. *)
Lemma index_select_compose {A : Type} (rank : nat) :
  forall (dim n : nat) (idx1 idx2 : list nat) (X : tensor A rank),
    aligned rank dim n X ->
    Forall (fun i => i < n) idx1 ->
    Forall (fun i => i < length idx1) idx2 ->
    exists Y, index_select rank dim idx1 X = Ok Y
              /\ aligned rank dim (length idx1) Y
              /\ index_select rank dim idx2 Y
                 = index_select rank dim (map (fun i => nth i idx1 0) idx2) X.
Proof.
  induction rank as [|r IH]; intros dim n idx1 idx2 X Hal H1 H2; simpl in *.
  - contradiction.
  - destruct dim as [|d].
    + subst n. destruct (mapM_select_total X _ H1) as [Y HY].
      exists Y. split; [exact HY|]. split.
      * apply (mapM_Ok_length _ _ _ HY).
      * rewrite mapM_map. apply mapM_ext_in. intros i Hi.
        apply (select_selected _ _ _ _ HY).
        rewrite Forall_forall in H2. apply H2, Hi.
    + induction X as [|x xs IHX].
      * exists []. repeat split; constructor.
      * inversion Hal as [|? ? Hx Hxs]; subst.
        destruct (IH d n idx1 idx2 x Hx H1 H2) as (y & Hy & Hay & Hcomp).
        destruct (IHX Hxs) as (ys & Hys & Hays & Hcomps).
        exists (y :: ys). simpl. rewrite Hy. simpl. rewrite Hys. simpl.
        split; [reflexivity|]. split; [constructor; assumption|].
        rewrite Hcomp, Hcomps. reflexivity.
Qed.

(** Selecting every index in order changes nothing. *)
Lemma index_select_seq {A : Type} (rank : nat) :
  forall (dim n : nat) (X : tensor A rank),
    aligned rank dim n X -> index_select rank dim (seq 0 n) X = Ok X.
Proof.
  induction rank as [|r IH]; intros dim n X Hal; simpl in *.
  - contradiction.
  - destruct dim as [|d].
    + subst n. apply mapM_select_seq.
    + apply mapM_id_Ok. intros x Hx. apply IH.
      rewrite Forall_forall in Hal. apply Hal, Hx.
Qed.


(** ** The stored permutation of a batch *)

Import Dataset.

Lemma insert_desc_perm (lens : list nat) (i : nat) (l : list nat) :
  Permutation (insert_desc lens i l) (i :: l).
Proof.
  induction l as [|j js IH]; simpl; [reflexivity|].
  destruct (Nat.ltb (nth j lens 0) (nth i lens 0)); [reflexivity|].
  rewrite IH. apply perm_swap.
Qed.

Lemma argsort_desc_perm (lens : list nat) :
  Permutation (argsort_desc lens) (seq 0 (length lens)).
Proof.
  unfold argsort_desc. generalize (seq 0 (length lens)) as idx.
  induction idx as [|i idx IH]; simpl; [reflexivity|].
  rewrite insert_desc_perm. constructor. exact IH.
Qed.

Lemma argsort_desc_length (lens : list nat) :
  length (argsort_desc lens) = length lens.
Proof.
  rewrite (Permutation_length (argsort_desc_perm lens)). apply length_seq.
Qed.


Lemma argsort_desc_NoDup (lens : list nat) : NoDup (argsort_desc lens).
Proof.
  apply (Permutation_NoDup (Permutation_sym (argsort_desc_perm lens))).
  apply seq_NoDup.
Qed.

Lemma index_of_In (x : nat) (l : list nat) :
  In x l -> index_of x l < length l /\ nth (index_of x l) l 0 = x.
Proof.
  induction l as [|y ys IH]; simpl; [contradiction|].
  intros H. destruct (Nat.eqb_spec x y) as [->|Hne].
  - split; [lia|reflexivity].
  - destruct H as [H|H]; [congruence|].
    destruct (IH H). split; [lia|assumption].
Qed.

Lemma index_of_nth (l : list nat) :
  NoDup l -> forall i, i < length l -> index_of (nth i l 0) l = i.
Proof.
  induction 1 as [|y ys Hnotin Hnd IH]; intros i Hi; simpl in *; [lia|].
  destruct i as [|i].
  - rewrite Nat.eqb_refl. reflexivity.
  - destruct (Nat.eqb_spec (nth i ys 0) y) as [Heq|Hne].
    + exfalso. apply Hnotin. rewrite <- Heq. apply nth_In. lia.
    + f_equal. apply IH. lia.
Qed.

Lemma sort_idx_length (perm : list nat) : length (sort_idx perm) = length perm.
Proof. unfold sort_idx. rewrite length_map, length_seq. reflexivity. Qed.

Lemma nth_sort_idx (perm : list nat) (j : nat) :
  j < length perm -> nth j (sort_idx perm) 0 = index_of j perm.
Proof.
  intros Hj. unfold sort_idx.
  rewrite (nth_indep _ 0 (index_of 0 perm)) by (rewrite length_map, length_seq; exact Hj).
  rewrite (map_nth (fun j => index_of j perm)). rewrite seq_nth by exact Hj.
  reflexivity.
Qed.

(** A map that sends the element at each position to that position lists
    the positions. *)
Lemma map_positions (f : nat -> nat) (l : list nat) :
  (forall k, k < length l -> f (nth k l 0) = k) -> map f l = seq 0 (length l).
Proof.
  intros H. apply nth_ext with (d := f 0) (d' := 0).
  - rewrite length_map, length_seq. reflexivity.
  - intros k Hk. rewrite length_map in Hk.
    rewrite (map_nth f). rewrite seq_nth by exact Hk. apply H, Hk.
Qed.

Section InversePermutation.
Variable perm : list nat.
Hypothesis perm_is : Permutation perm (seq 0 (length perm)).

Lemma perm_In (j : nat) : j < length perm -> In j perm.
Proof.
  intros Hj. apply (Permutation_in _ (Permutation_sym perm_is)).
  apply in_seq. lia.
Qed.

Lemma perm_NoDup : NoDup perm.
Proof.
  apply (Permutation_NoDup (Permutation_sym perm_is)). apply seq_NoDup.
Qed.

Lemma perm_bound : Forall (fun i => i < length perm) perm.
Proof.
  apply Forall_forall. intros i Hi.
  apply (Permutation_in _ perm_is) in Hi. apply in_seq in Hi. lia.
Qed.

Lemma sort_idx_bound : Forall (fun i => i < length perm) (sort_idx perm).
Proof.
  apply Forall_forall. intros i Hi. unfold sort_idx in Hi.
  apply in_map_iff in Hi. destruct Hi as (j & <- & Hj).
  apply in_seq in Hj. apply index_of_In, perm_In. lia.
Qed.

(** Sorting and then restoring visits the positions in order. *)
Lemma perm_after_sort_idx :
  map (fun i => nth i perm 0) (sort_idx perm) = seq 0 (length perm).
Proof.
  unfold sort_idx. rewrite map_map. rewrite <- (map_id (seq 0 (length perm))) at 2.
  apply map_ext_in. intros j Hj. apply in_seq in Hj.
  apply index_of_In, perm_In. lia.
Qed.

(** Restoring and then sorting visits the positions in order. *)
Lemma sort_idx_after_perm :
  map (fun i => nth i (sort_idx perm) 0) perm = seq 0 (length perm).
Proof.
  apply map_positions. intros k Hk.
  rewrite nth_sort_idx.
  - apply index_of_nth; [apply perm_NoDup|exact Hk].
  - pose proof perm_bound as Hb. rewrite Forall_forall in Hb.
    apply Hb, nth_In, Hk.
Qed.

End InversePermutation.

Lemma Documents_init_sorted_idx t lens d :
  Documents_init t lens = Ok d ->
  sorted_idx d = argsort_desc lens /\ original_idx d = sort_idx (argsort_desc lens).
Proof.
  unfold Documents_init.
  destruct (index_select 2 0 (argsort_desc lens) t) as [st|e]; simpl; [|discriminate].
  intros [= <-]. split; reflexivity.
Qed.

(** C2. For every batch and every tensor whose size along the batch dimension
    [dim] is the batch size, sorting the tensor into length order and
    restoring it gives the tensor back exactly, and so does restoring and
    then sorting: [to_sorted_order] and [restore_original_order] are inverse
    permutations of the batch dimension. *)
Theorem restore_original_order_to_sorted_order
    (tensor_original : list (list Z)) (original_lengths : list nat) (d : Documents)
    (A : Type) (rank dim : nat) (X : Torch.tensor A rank) :
  Documents_init tensor_original original_lengths = Ok d ->
  aligned rank dim (length original_lengths) X ->
  (exists Y, to_sorted_order d X dim = Ok Y /\ restore_original_order d Y dim = Ok X)
  /\ (exists Y, restore_original_order d X dim = Ok Y /\ to_sorted_order d Y dim = Ok X).
Proof.
  intros Hd Hal. destruct (Documents_init_sorted_idx _ _ _ Hd) as [Hs Ho].
  unfold to_sorted_order, restore_original_order. rewrite Hs, Ho.
  set (s := argsort_desc original_lengths).
  assert (Hperm : Permutation s (seq 0 (length s)))
    by (subst s; rewrite argsort_desc_length; apply argsort_desc_perm).
  assert (Hlen : length s = length original_lengths) by apply argsort_desc_length.
  rewrite <- Hlen in Hal.
  split.
  - destruct (index_select_compose rank dim _ s (sort_idx s) X Hal (perm_bound _ Hperm))
      as (Y & HY & _ & Hcomp).
    { apply sort_idx_bound, Hperm. }
    exists Y. split; [exact HY|].
    rewrite Hcomp, (perm_after_sort_idx _ Hperm). apply index_select_seq, Hal.
  - destruct (index_select_compose rank dim _ (sort_idx s) s X Hal) as (Y & HY & _ & Hcomp).
    { apply sort_idx_bound, Hperm. }
    { rewrite sort_idx_length. apply perm_bound, Hperm. }
    exists Y. split; [exact HY|].
    rewrite Hcomp, (sort_idx_after_perm _ Hperm). apply index_select_seq, Hal.
Qed.

(** ** Lengths and batch sizes of a packed sequence *)

Lemma sorted_decreasing_cons (a : nat) (l : list nat) :
  sorted_decreasing (a :: l) = true ->
  Forall (fun x => x <= a) l /\ sorted_decreasing l = true.
Proof.
  revert a; induction l as [|b l IH]; intros a H.
  - split; [constructor|reflexivity].
  - change (Nat.leb b a && sorted_decreasing (b :: l) = true) in H.
    apply andb_true_iff in H. destruct H as [Hba Hs].
    apply Nat.leb_le in Hba. destruct (IH b Hs) as [Hall _].
    split; [|exact Hs]. constructor; [exact Hba|].
    eapply Forall_impl; [|exact Hall]. simpl. intros. lia.
Qed.

Lemma count_gt_cons (k a : nat) (l : list nat) :
  count_gt k (a :: l) = (if Nat.ltb k a then 1 else 0) + count_gt k l.
Proof. unfold count_gt. simpl. destruct (Nat.ltb k a); reflexivity. Qed.

Lemma count_gt_le_length (k : nat) (l : list nat) : count_gt k l <= length l.
Proof. unfold count_gt. apply filter_length_le. Qed.

Lemma count_gt_zero (k : nat) (l : list nat) :
  Forall (fun x => x <= k) l -> count_gt k l = 0.
Proof.
  induction 1 as [|x l Hx _ IH]; [reflexivity|].
  rewrite count_gt_cons, IH. destruct (Nat.ltb_spec k x); lia.
Qed.

Lemma count_gt_all (k : nat) (l : list nat) :
  Forall (fun x => k < x) l -> count_gt k l = length l.
Proof.
  induction 1 as [|x l Hx _ IH]; [reflexivity|].
  rewrite count_gt_cons, IH. simpl. destruct (Nat.ltb_spec k x); lia.
Qed.

Lemma count_gt_antitone (k k' : nat) (l : list nat) :
  k <= k' -> count_gt k' l <= count_gt k l.
Proof.
  intros Hk. induction l as [|x l IH]; [reflexivity|].
  rewrite !count_gt_cons.
  destruct (Nat.ltb_spec k' x), (Nat.ltb_spec k x); lia.
Qed.

(** In a decreasing list the entries that exceed [k] are a prefix. *)
Lemma sorted_decreasing_prefix (l : list nat) :
  sorted_decreasing l = true ->
  forall i k, i < length l -> (k < nth i l 0 <-> i < count_gt k l).
Proof.
  induction l as [|a l IH]; intros Hs i k Hi; simpl in Hi; [lia|].
  destruct (sorted_decreasing_cons _ _ Hs) as [Hall Hs'].
  rewrite count_gt_cons. destruct (Nat.ltb_spec k a) as [Hka|Hka].
  - destruct i as [|i]; simpl; [lia|].
    rewrite (IH Hs' i k) by lia. lia.
  - rewrite count_gt_zero
      by (eapply Forall_impl; [|exact Hall]; simpl; intros; lia).
    destruct i as [|i]; simpl; [lia|].
    rewrite Forall_forall in Hall.
    assert (nth i l 0 <= a) by (apply Hall, nth_In; lia). lia.
Qed.

Lemma count_lt_seq (m n : nat) :
  length (filter (fun k => Nat.ltb k m) (seq 0 n)) = Nat.min n m.
Proof.
  induction n as [|n IH]; [reflexivity|].
  rewrite seq_S, filter_app, length_app, IH. cbn [filter Nat.add].
  destruct (Nat.ltb_spec n m); cbn [length]; lia.
Qed.

Lemma conjugate_length (l : list nat) : length (conjugate l) = hd 0 l.
Proof. unfold conjugate. rewrite length_map, length_seq. reflexivity. Qed.

Lemma conjugate_nth (l : list nat) (k : nat) :
  k < hd 0 l -> nth k (conjugate l) 0 = count_gt k l.
Proof.
  intros Hk. unfold conjugate.
  rewrite (nth_indep _ 0 (count_gt 0 l)) by (rewrite length_map, length_seq; exact Hk).
  rewrite (map_nth (fun k => count_gt k l)), seq_nth by exact Hk. reflexivity.
Qed.

Lemma sorted_decreasing_map_seq (f : nat -> nat) (n a : nat) :
  (forall k k', k <= k' -> f k' <= f k) ->
  sorted_decreasing (map f (seq a n)) = true.
Proof.
  intros Hf. revert a; induction n as [|n IH]; intros a; [reflexivity|].
  destruct n as [|n]; [reflexivity|].
  change (Nat.leb (f (S a)) (f a) && sorted_decreasing (map f (seq (S a) (S n))) = true).
  rewrite IH. rewrite andb_true_r. apply Nat.leb_le, Hf. lia.
Qed.

Lemma conjugate_sorted (l : list nat) : sorted_decreasing (conjugate l) = true.
Proof.
  apply sorted_decreasing_map_seq. intros k k' Hk. apply count_gt_antitone, Hk.
Qed.

Lemma conjugate_positive (l : list nat) : Forall (fun x => 1 <= x) (conjugate l).
Proof.
  apply Forall_forall. intros x Hx. unfold conjugate in Hx.
  apply in_map_iff in Hx. destruct Hx as (k & <- & Hk). apply in_seq in Hk.
  destruct l as [|a l]; simpl in Hk; [lia|].
  rewrite count_gt_cons. destruct (Nat.ltb_spec k a); lia.
Qed.

Lemma positive_last (l : list nat) :
  l <> [] -> Forall (fun x => 1 <= x) l -> 1 <= last l 0.
Proof.
  intros Hne Hall. rewrite Forall_forall in Hall. apply Hall.
  destruct (exists_last Hne) as (l' & x & ->). rewrite last_last.
  apply in_or_app. right. left. reflexivity.
Qed.

Lemma sorted_last_positive (l : list nat) :
  sorted_decreasing l = true -> 1 <= last l 0 -> Forall (fun x => 1 <= x) l.
Proof.
  induction l as [|a l IH]; intros Hs Hl; [constructor|].
  destruct (sorted_decreasing_cons _ _ Hs) as [Hall Hs'].
  destruct l as [|b l]; [constructor; [exact Hl|constructor]|].
  assert (Hb : Forall (fun x => 1 <= x) (b :: l)) by (apply IH; assumption).
  constructor; [|exact Hb]. inversion Hall; inversion Hb; subst. lia.
Qed.

(** Lengths and batch sizes determine each other. *)
Lemma conjugate_involutive (l : list nat) :
  sorted_decreasing l = true -> Forall (fun x => 1 <= x) l ->
  conjugate (conjugate l) = l.
Proof.
  intros Hs Hpos.
  assert (Hhd : hd 0 (conjugate l) = length l).
  { destruct l as [|a l]; [reflexivity|].
    assert (1 <= a) by (inversion Hpos; assumption).
    unfold conjugate. simpl hd. destruct a as [|a]; [lia|]. simpl.
    apply count_gt_all. eapply Forall_impl; [|exact Hpos]. simpl. intros. lia. }
  apply nth_ext with (d := 0) (d' := 0).
  - rewrite conjugate_length. exact Hhd.
  - intros i Hi. rewrite conjugate_length, Hhd in Hi.
    rewrite conjugate_nth by (rewrite Hhd; exact Hi).
    unfold conjugate, count_gt. rewrite filter_map_swap, length_map.
    rewrite (filter_ext_in _ (fun k => Nat.ltb k (nth i l 0))).
    + rewrite count_lt_seq.
      destruct l as [|a l]; [simpl in Hi; lia|].
      destruct (sorted_decreasing_cons _ _ Hs) as [Hall _].
      destruct i as [|i]; simpl; [lia|].
      rewrite Forall_forall in Hall.
      assert (nth i l 0 <= a) by (apply Hall, nth_In; simpl in Hi; lia). lia.
    + intros k _. simpl.
      pose proof (sorted_decreasing_prefix l Hs i k Hi) as Hiff.
      fold (count_gt k l).
      destruct (Nat.ltb_spec i (count_gt k l)), (Nat.ltb_spec k (nth i l 0)); lia.
Qed.

(** ** Padding and packing *)

Lemma combine_skipn {A B : Type} (n : nat) (l : list A) (l' : list B) :
  skipn n (combine l l') = combine (skipn n l) (skipn n l').
Proof.
  revert l l'; induction n as [|n IH]; intros l l'; [reflexivity|].
  destruct l as [|a l]; [reflexivity|].
  destruct l' as [|b l']; simpl; [symmetry; apply combine_nil|apply IH].
Qed.

Lemma firstn_app_exact {A : Type} (b : nat) (d p : list A) :
  b <= length d -> firstn b (firstn b d ++ p) = firstn b d.
Proof.
  intros Hb. rewrite firstn_app, firstn_firstn, Nat.min_id.
  rewrite length_firstn, Nat.min_l by exact Hb.
  rewrite Nat.sub_diag. simpl. apply app_nil_r.
Qed.

Lemma well_packed_inv {F : Type} (p : PackedSequence F) :
  well_packed p = true ->
  exists b bs, batch_sizes p = b :: bs
    /\ sorted_decreasing (b :: bs) = true
    /\ Forall (fun x => 1 <= x) (b :: bs)
    /\ Forall (fun x => x <= b) (b :: bs)
    /\ length (data p) = list_sum (b :: bs).
Proof.
  unfold well_packed. destruct (batch_sizes p) as [|b bs]; [discriminate|].
  intros H. apply andb_true_iff in H. destruct H as [H Hlen].
  apply andb_true_iff in H. destruct H as [Hs Hlast].
  apply Nat.leb_le in Hlast. apply Nat.eqb_eq in Hlen.
  exists b, bs. repeat split; try assumption.
  - apply sorted_last_positive; assumption.
  - constructor; [lia|]. apply (sorted_decreasing_cons _ _ Hs).
Qed.

Section Repack.
Context {F : Type}.
Variable fadd : F -> F -> F.

Lemma add_cons (xs ys : list F) (x y : list (list F)) :
  add fadd (xs :: x) (ys :: y)
  = map (fun '(a, b) => fadd a b) (combine xs ys) :: add fadd x y.
Proof. reflexivity. Qed.

(** Packing the sum of two padded tensors keeps the sums of the valid
    slices, in order, and nothing else. *)
Lemma repack_add (padx pady : nat -> list F) (B : nat) (bs : list nat) :
  forall dx dy : list F,
    length dx = list_sum bs -> length dy = list_sum bs ->
    concat (map (fun '(step, b) => firstn b step)
                (combine (add fadd (pad_steps padx B dx bs) (pad_steps pady B dy bs)) bs))
    = map (fun '(a, b) => fadd a b) (combine dx dy).
Proof.
  induction bs as [|b bs' IH]; intros dx dy Hx Hy.
  - apply length_zero_iff_nil in Hx. subst dx. reflexivity.
  - simpl in Hx, Hy. cbn [pad_steps].
    rewrite add_cons. cbn [combine map concat].
    rewrite IH by (rewrite length_skipn; lia).
    rewrite firstn_map, combine_firstn.
    rewrite !firstn_app_exact by lia.
    rewrite <- combine_firstn, <- combine_skipn, <- map_app, firstn_skipn.
    reflexivity.
Qed.

Lemma add_pad_steps_hd (padx pady : nat -> list F) (b : nat) (bs : list nat)
    (dx dy : list F) :
  padx 0 = [] -> pady 0 = [] -> b <= length dx -> b <= length dy ->
  length (hd [] (add fadd (pad_steps padx b dx (b :: bs)) (pad_steps pady b dy (b :: bs)))) = b.
Proof.
  intros Hpx Hpy Hx Hy. simpl. rewrite Nat.sub_diag, Hpx, Hpy, !app_nil_r.
  rewrite length_map, length_combine, !length_firstn. lia.
Qed.

End Repack.

Lemma padding_zero {F : Type} (zeros_like : F -> F) (d : list F) :
  padding zeros_like d 0 = [].
Proof. destruct d; reflexivity. Qed.

(** ** pack_residual *)

Section PackResidualSpec.
Context {F : Type}.
Variable fadd : F -> F -> F.
Variable zeros_like : F -> F.

Lemma pad_packed_sequence_Ok (p : PackedSequence F) :
  well_packed p = true ->
  pad_packed_sequence zeros_like p
  = Ok (pad_steps (padding zeros_like (data p)) (hd 0 (batch_sizes p))
          (data p) (batch_sizes p),
        conjugate (batch_sizes p)).
Proof.
  intros Hp. destruct (well_packed_inv p Hp) as (b & bs & Hbs & _).
  unfold pad_packed_sequence. rewrite Hbs. reflexivity.
Qed.

(** The lengths of a well-packed sequence determine its batch sizes. *)
Lemma well_packed_batch_sizes (p : PackedSequence F) :
  well_packed p = true -> conjugate (conjugate (batch_sizes p)) = batch_sizes p.
Proof.
  intros Hp. destruct (well_packed_inv p Hp) as (b & bs & Hbs & Hs & Hpos & _).
  rewrite Hbs. apply conjugate_involutive; assumption.
Qed.

(** Packing the sum of two padded operands of equal batch sizes. *)
Lemma pack_padded_sum (x y : PackedSequence F) :
  well_packed x = true -> well_packed y = true ->
  batch_sizes x = batch_sizes y ->
  pack_padded_sequence
    (add fadd
       (pad_steps (padding zeros_like (data x)) (hd 0 (batch_sizes x))
          (data x) (batch_sizes x))
       (pad_steps (padding zeros_like (data y)) (hd 0 (batch_sizes y))
          (data y) (batch_sizes y)))
    (conjugate (batch_sizes x)) false
  = Ok {| data := map (fun '(a, b) => fadd a b) (combine (data x) (data y));
          batch_sizes := batch_sizes x |}.
Proof.
  intros Hx Hy Heq.
  pose proof (well_packed_batch_sizes x Hx) as Hinv.
  destruct (well_packed_inv x Hx) as (b & bs & Hbs & Hs & Hpos & Hle & Hlx).
  destruct (well_packed_inv y Hy) as (b' & bs' & Hbs' & _ & _ & _ & Hly).
  rewrite <- Heq, Hbs in *. injection Hbs' as <- <-.
  assert (Hb : 1 <= b) by (inversion Hpos; assumption).
  assert (Hne : conjugate (b :: bs) <> []).
  { intros Hnil. apply (f_equal (@length nat)) in Hnil.
    rewrite conjugate_length in Hnil. simpl in Hnil. lia. }
  unfold pack_padded_sequence.
  destruct (conjugate (b :: bs)) as [|l0 ls] eqn:Hconj; [congruence|].
  rewrite <- Hconj in *.
  assert (Hlast : Nat.leb (last (conjugate (b :: bs)) 0) 0 = false).
  { apply Nat.leb_gt. apply (positive_last _ Hne), conjugate_positive. }
  rewrite Hlast. cbn [hd].
  rewrite (add_pad_steps_hd fadd _ _ b bs (data x) (data y))
    by (try apply padding_zero; simpl in Hlx, Hly; lia).
  rewrite conjugate_length. cbn [hd]. rewrite Nat.eqb_refl. cbn [negb].
  rewrite conjugate_sorted. cbn [negb]. rewrite Hinv.
  rewrite repack_add by assumption. reflexivity.
Qed.

(** C3. For two well-packed sequences, [pack_residual] raises
    [ValueError "different lengths"] when the lists of lengths of the two
    operands differ; when they are equal it returns the packing, under those
    lengths, of the sum of the two padded operands, which holds exactly the
    sums of the valid slices of the operands under the batch sizes of the
    operands: nothing is padded in and nothing is cut off. *)
Theorem pack_residual_spec (x_pack y_pack : PackedSequence F) :
  well_packed x_pack = true -> well_packed y_pack = true ->
  exists x_tensor x_lengths y_tensor y_lengths,
    pad_packed_sequence zeros_like x_pack = Ok (x_tensor, x_lengths)
    /\ pad_packed_sequence zeros_like y_pack = Ok (y_tensor, y_lengths)
    /\ (x_lengths <> y_lengths ->
        pack_residual fadd zeros_like x_pack y_pack
        = Raise (ValueError "different lengths"))
    /\ (x_lengths = y_lengths ->
        pack_residual fadd zeros_like x_pack y_pack
        = pack_padded_sequence (add fadd x_tensor y_tensor) x_lengths false
        /\ pack_residual fadd zeros_like x_pack y_pack
           = Ok {| data := map (fun '(a, b) => fadd a b)
                               (combine (data x_pack) (data y_pack));
                   batch_sizes := batch_sizes x_pack |}
        /\ batch_sizes x_pack = batch_sizes y_pack
        /\ length (data x_pack) = length (data y_pack)).
Proof.
  intros Hx Hy.
  do 4 eexists. split; [apply pad_packed_sequence_Ok, Hx|].
  split; [apply pad_packed_sequence_Ok, Hy|].
  unfold pack_residual.
  rewrite (pad_packed_sequence_Ok _ Hx), (pad_packed_sequence_Ok _ Hy).
  cbn [rbind]. unfold lengths_differ.
  destruct (list_eq_dec Nat.eq_dec (conjugate (batch_sizes x_pack))
              (conjugate (batch_sizes y_pack))) as [Heq|Hne].
  - split; [intros Hdiff; contradiction|]. intros _.
    assert (Hbs : batch_sizes x_pack = batch_sizes y_pack).
    { rewrite <- (well_packed_batch_sizes _ Hx), <- (well_packed_batch_sizes _ Hy).
      rewrite Heq. reflexivity. }
    split; [reflexivity|]. split; [apply pack_padded_sum; assumption|].
    split; [exact Hbs|].
    destruct (well_packed_inv _ Hx) as (b & bs & Hb & _ & _ & _ & Hlx).
    destruct (well_packed_inv _ Hy) as (b' & bs' & Hb' & _ & _ & _ & Hly).
    rewrite <- Hb in Hlx. rewrite <- Hb', <- Hbs in Hly. congruence.
  - split; [reflexivity|]. intros Heq. contradiction.
Qed.

End PackResidualSpec.

(** The concrete case of the specification: two packed sequences of lengths
    [3; 2], summed slice by slice. *)
Example pack_residual_3_2 :
  pack_residual Z.add (fun _ => 0%Z)
    {| data := [1; 2; 3; 4; 5]%Z; batch_sizes := [2; 2; 1] |}
    {| data := [10; 20; 30; 40; 50]%Z; batch_sizes := [2; 2; 1] |}
  = Ok {| data := [11; 22; 33; 44; 55]%Z; batch_sizes := [2; 2; 1] |}.
Proof. reflexivity. Qed.

Example pack_residual_3_2_lengths :
  pad_packed_sequence (fun _ => 0%Z)
    {| data := [1; 2; 3; 4; 5]%Z; batch_sizes := [2; 2; 1] |}
  = Ok ([[1; 2]; [3; 4]; [5; 0]]%Z, [3; 2]).
Proof. reflexivity. Qed.

Example pack_residual_mismatch :
  pack_residual Z.add (fun _ => 0%Z)
    {| data := [1; 2; 3; 4; 5]%Z; batch_sizes := [2; 2; 1] |}
    {| data := [10; 20; 30; 40]%Z; batch_sizes := [2; 2] |}
  = Raise (ValueError "different lengths").
Proof. reflexivity. Qed.

(** ** Shapes *)

Lemma has_shape_1 {A : Type} (n : nat) (t : list A) :
  has_shape 1 [n] t <-> length t = n.
Proof.
  simpl. split; [intros [H _]; exact H|].
  intros H. split; [exact H|]. apply Forall_forall. reflexivity.
Qed.

Lemma has_shape_2 {A : Type} (n m : nat) (t : list (list A)) :
  has_shape 2 [n; m] t <-> length t = n /\ Forall (fun r => length r = m) t.
Proof.
  change (length t = n /\ Forall (has_shape 1 [m]) t
          <-> length t = n /\ Forall (fun r => length r = m) t).
  split; intros [H1 H2]; (split; [exact H1|]);
    (eapply Forall_impl; [|exact H2]); intros r; apply has_shape_1.
Qed.

Lemma has_shape_3 {A : Type} (n m k : nat) (t : list (list (list A))) :
  has_shape 3 [n; m; k] t
  <-> length t = n
      /\ Forall (fun x => length x = m /\ Forall (fun r => length r = k) x) t.
Proof.
  change (length t = n /\ Forall (has_shape 2 [m; k]) t
          <-> length t = n
              /\ Forall (fun x => length x = m /\ Forall (fun r => length r = k) x) t).
  split; intros [H1 H2]; (split; [exact H1|]);
    (eapply Forall_impl; [|exact H2]); intros r; apply has_shape_2.
Qed.

(** [mapM] succeeds when every call does, and keeps what every call
    ensures. *)
Lemma mapM_Forall {A B : Type} (f : A -> result B) (Q : B -> Prop) (l : list A) :
  (forall x, In x l -> exists y, f x = Ok y /\ Q y) ->
  exists r, mapM f l = Ok r /\ length r = length l /\ Forall Q r.
Proof.
  induction l as [|x xs IH]; intros H.
  - exists []. repeat split. constructor.
  - destruct (H x (or_introl eq_refl)) as (y & Hy & HQ).
    destruct IH as (ys & Hys & Hlen & HQs); [intros z Hz; apply H; right; exact Hz|].
    exists (y :: ys). simpl. rewrite Hy. simpl. rewrite Hys. simpl.
    repeat split; [f_equal; exact Hlen|constructor; assumption].
Qed.

(** ** nn.Embedding and CharLevelWordEmbeddingCnn: construction *)

Section EmbeddingInit.
Context {R : Type}.
Variable rzero : R.

Lemma Embedding_init_Ok (init : nat -> nat -> R) (num size pad : nat) :
  pad < num ->
  NN.Embedding_init rzero init num size pad
  = Ok {| NN.num_embeddings := num;
          NN.embedding_dim := size;
          NN.padding_idx := pad;
          NN.weight := map (fun i => if Nat.eqb i pad
                                     then repeat rzero size
                                     else map (init i) (seq 0 size))
                           (seq 0 num);
          NN.requires_grad := true |}.
Proof.
  intros Hpad. unfold NN.Embedding_init.
  destruct (Nat.ltb_spec pad num) as [_|E]; [reflexivity|lia].
Qed.


Lemma Embedding_init_Raise (init : nat -> nat -> R) (num size pad : nat) :
  num <= pad -> exists e, NN.Embedding_init rzero init num size pad = Raise e.
Proof.
  intros Hpad. unfold NN.Embedding_init.
  destruct (Nat.ltb_spec pad num) as [E|_]; [lia|].
  destruct (Nat.eqb pad 0); eexists; reflexivity.
Qed.

(** The module that the constructor returns when the padding index names a
    row of the character table. *)
Lemma CharLevelWordEmbeddingCnn_init_Ok (rng : Initializer R)
    (char_embedding_size char_num num_filters : nat)
    (ngram_filter_sizes : list nat) (output_dim_arg : option nat)
    (activation : R -> R) (embedding_weights : option (list (list R)))
    (padding_idx : nat) (requires_grad : bool)
    (self : CharLevelWordEmbeddingCnn R) :
  CharLevelWordEmbeddingCnn_init rzero rng char_embedding_size char_num num_filters
    ngram_filter_sizes output_dim_arg activation embedding_weights padding_idx
    requires_grad = Ok self ->
  let '(num, size) := match embedding_weights with
                      | Some w => size_2 w
                      | None => (char_num, char_embedding_size)
                      end in
  padding_idx < num
  /\ NN.num_embeddings (embed_char self) = num
  /\ NN.embedding_dim (embed_char self) = size
  /\ NN.padding_idx (embed_char self) = padding_idx
  /\ NN.requires_grad (embed_char self)
     = match embedding_weights with Some _ => requires_grad | None => true end
  /\ NN.weight (embed_char self)
     = match embedding_weights with
       | Some w => w
       | None => map (fun i => if Nat.eqb i padding_idx
                               then repeat rzero size
                               else map (init_embedding rng i) (seq 0 size))
                     (seq 0 num)
       end
  /\ _embedding_size self = size
  /\ cnn_layers self
     = map (fun '(i, filter_size) =>
              {| conv := NN.Conv1d_init (init_conv_weight rng i)
                           (init_conv_bias rng i) size num_filters filter_size;
                 act := activation;
                 pool := {| dim := 2 |} |})
           (combine (seq 0 (length ngram_filter_sizes)) ngram_filter_sizes)
  /\ output_layer self
     = match truthy output_dim_arg with
       | Some d => Some (NN.Linear_init (init_linear_weight rng)
                           (init_linear_bias rng)
                           (length ngram_filter_sizes * num_filters) d)
       | None => None
       end
  /\ output_dim self
     = match truthy output_dim_arg with
       | Some d => d
       | None => length ngram_filter_sizes * num_filters
       end.
Proof.
  unfold CharLevelWordEmbeddingCnn_init.
  destruct (match embedding_weights with
            | Some w => size_2 w
            | None => (char_num, char_embedding_size)
            end) as [num size].
  unfold NN.Embedding_init.
  destruct (Nat.ltb_spec padding_idx num) as [Hpad|_];
    [|destruct (Nat.eqb padding_idx 0); discriminate].
  cbn [rbind]. intros [= <-].
  split; [exact Hpad|].
  destruct embedding_weights; cbn; repeat split.
Qed.

(** C10 (as the code has it). When [embedding_weights] is supplied and the
    padding index names one of its rows, the constructor takes the number
    of characters and the embedding size from the rows and columns of the
    weights, whatever [char_num] and [char_embedding_size] it was given:
    the table has those dimensions and holds the supplied weights, its
    trainability is the [requires_grad] argument, the convolutions read
    that many channels, and two calls that differ only in [char_num] and
    [char_embedding_size] build the same module. *)
Theorem CharLevelWordEmbeddingCnn_init_weights
    (rng : Initializer R) (char_embedding_size char_num num_filters : nat)
    (ngram_filter_sizes : list nat) (output_dim : option nat)
    (activation : R -> R) (embedding_weights : list (list R))
    (padding_idx : nat) (requires_grad : bool) :
  padding_idx < length embedding_weights ->
  exists self,
    CharLevelWordEmbeddingCnn_init rzero rng char_embedding_size char_num
      num_filters ngram_filter_sizes output_dim activation
      (Some embedding_weights) padding_idx requires_grad = Ok self
    /\ NN.num_embeddings (embed_char self) = length embedding_weights
    /\ NN.embedding_dim (embed_char self) = length (hd [] embedding_weights)
    /\ NN.weight (embed_char self) = embedding_weights
    /\ NN.requires_grad (embed_char self) = requires_grad
    /\ NN.padding_idx (embed_char self) = padding_idx
    /\ _embedding_size self = length (hd [] embedding_weights)
    /\ Forall (fun layer => NN.in_channels (conv layer)
                            = length (hd [] embedding_weights))
              (cnn_layers self)
    /\ forall char_embedding_size' char_num' : nat,
        CharLevelWordEmbeddingCnn_init rzero rng char_embedding_size' char_num'
          num_filters ngram_filter_sizes output_dim activation
          (Some embedding_weights) padding_idx requires_grad
        = Ok self.
Proof.
  intros Hpad. unfold CharLevelWordEmbeddingCnn_init, size_2.
  rewrite (Embedding_init_Ok _ _ _ _ Hpad). cbn [rbind].
  eexists. split; [reflexivity|]. cbn.
  do 6 (split; [reflexivity|]). split; [|reflexivity].
  apply Forall_forall. intros layer Hin.
  apply in_map_iff in Hin. destruct Hin as ([i k] & <- & _). reflexivity.
Qed.

End EmbeddingInit.

(** ** nn.Embedding *)

Section EmbeddingFacts.
Context {R : Type}.
Variable rzero : R.
Variable radd : R -> R -> R.

Lemma lookup_Ok (e : NN.Embedding R) (i : Z) :
  NN.valid_index (NN.weight e) i ->
  NN.lookup e i = Ok (nth (Z.to_nat i) (NN.weight e) []).
Proof.
  intros [Hlo Hhi]. unfold NN.lookup.
  destruct (Z.ltb_spec i 0) as [Hneg|_]; [lia|].
  apply select_Ok. lia.
Qed.

Lemma Embedding_forward_Ok (e : NN.Embedding R) (indices : list (list Z)) :
  Forall (Forall (NN.valid_index (NN.weight e))) indices ->
  NN.Embedding_forward e indices
  = Ok (map (map (fun i => nth (Z.to_nat i) (NN.weight e) [])) indices).
Proof.
  intros H. unfold NN.Embedding_forward. apply mapM_Ok_map.
  intros row Hrow. apply mapM_Ok_map. intros i Hi. apply lookup_Ok.
  rewrite Forall_forall in H. specialize (H row Hrow).
  rewrite Forall_forall in H. apply H, Hi.
Qed.

(** The row of the padding index receives no gradient. *)
Lemma Embedding_backward_padding (e : NN.Embedding R)
    (indices : list (list Z)) (grad_output : list (list (list R)))
    (grad : list (list R)) :
  NN.Embedding_backward rzero radd e indices grad_output = Some grad ->
  NN.padding_idx e < NN.num_embeddings e ->
  nth_error grad (NN.padding_idx e) = Some (repeat rzero (NN.embedding_dim e)).
Proof.
  unfold NN.Embedding_backward. destruct (NN.requires_grad e); [|discriminate].
  intros [= <-] Hpad.
  rewrite nth_error_map, nth_error_seq.
  destruct (Nat.ltb_spec (NN.padding_idx e) (NN.num_embeddings e)); [|lia].
  cbn. rewrite Nat.eqb_refl. reflexivity.
Qed.

End EmbeddingFacts.

(** ** WordEmbedding *)

Section WordEmbeddingSpec.
Context {R : Type}.
Variable rzero : R.
Variable radd : R -> R -> R.

(** C8 (as the code has it). For a padding index that names a row of the
    pretrained table, the constructor returns a word embedding, and given
    token-index tensors whose indices name rows of the table,
    [WordEmbedding.forward] returns one embedded tensor per input, every
    one read from the same table, which holds the pretrained vectors; the
    table is an embedding configured with the padding index, so an
    occurrence of the padding index reads the fixed pretrained row of that
    index and that row receives no gradient; and the table receives
    gradients exactly when [requires_grad] is set. *)
Theorem WordEmbedding_forward_spec
    (rng : Initializer R) (word_embedding : list (list R))
    (padding_idx : nat) (requires_grad : bool) (tensors : list (list (list Z))) :
  padding_idx < length word_embedding ->
  Forall (Forall (Forall (NN.valid_index word_embedding))) tensors ->
  exists self,
    WordEmbedding_init rzero rng word_embedding padding_idx requires_grad = Ok self
    /\ let table := word_embedding_word_level self in
       WordEmbedding_forward self tensors
       = Ok (map (map (map (fun i => nth (Z.to_nat i) word_embedding []))) tensors)
       /\ NN.weight table = word_embedding
       /\ NN.padding_idx table = padding_idx
       /\ NN.requires_grad table = requires_grad
       /\ NN.lookup table (Z.of_nat padding_idx)
          = Ok (nth padding_idx word_embedding [])
       /\ (forall indices grad_output,
             match NN.Embedding_backward rzero radd table indices grad_output with
             | Some grad =>
                 requires_grad = true
                 /\ nth_error grad padding_idx
                    = Some (repeat rzero (length (hd [] word_embedding)))
             | None => requires_grad = false
             end).
Proof.
  intros Hpad Hvalid. unfold WordEmbedding_init, size_2.
  rewrite (Embedding_init_Ok rzero _ _ _ _ Hpad). cbn [rbind].
  eexists. split; [reflexivity|].
  cbn [word_embedding_word_level NN.num_embeddings NN.embedding_dim NN.padding_idx].
  set (table := {| NN.num_embeddings := _ |}). cbv zeta.
  assert (Hw : NN.weight table = word_embedding) by reflexivity.
  split.
  { unfold WordEmbedding_forward. apply mapM_Ok_map. intros t Ht.
    cbn [word_embedding_word_level].
    rewrite Embedding_forward_Ok; [rewrite Hw; reflexivity|].
    rewrite Hw. rewrite Forall_forall in Hvalid. apply Hvalid, Ht. }
  split; [reflexivity|]. split; [reflexivity|]. split; [reflexivity|].
  split.
  { rewrite lookup_Ok.
    - rewrite Hw, Nat2Z.id. reflexivity.
    - rewrite Hw. unfold NN.valid_index. lia. }
  intros indices grad_output.
  destruct (NN.Embedding_backward rzero radd table indices grad_output)
    as [grad|] eqn:Hback.
  - split.
    + unfold NN.Embedding_backward in Hback.
      change (NN.requires_grad table) with requires_grad in Hback.
      destruct requires_grad; [reflexivity|discriminate].
    + apply (Embedding_backward_padding rzero radd table indices grad_output grad Hback).
      exact Hpad.
  - unfold NN.Embedding_backward in Hback.
    change (NN.requires_grad table) with requires_grad in Hback.
    destruct requires_grad; [discriminate|reflexivity].
Qed.

End WordEmbeddingSpec.

(** ** Transposition *)

Section Transpose.
Context {A : Type}.

Lemma nth_error_column (rows : list (list A)) (m j : nat) :
  Forall (fun r => length r = m) rows -> j < m ->
  forall i, nth_error (column rows j) i
            = match nth_error rows i with
              | Some r => nth_error r j
              | None => None
              end.
Proof.
  intros Hrect Hj. induction Hrect as [|r rows Hr _ IH]; intros i.
  - destruct i; reflexivity.
  - unfold column. simpl. fold (column rows j).
    destruct (nth_error r j) as [x|] eqn:Hx;
      [|apply nth_error_None in Hx; lia].
    destruct i as [|i]; simpl; [symmetry; exact Hx|apply IH].
Qed.

Lemma column_length (rows : list (list A)) (m j : nat) :
  Forall (fun r => length r = m) rows -> j < m ->
  length (column rows j) = length rows.
Proof.
  intros Hrect Hj. induction Hrect as [|r rows Hr _ IH]; [reflexivity|].
  unfold column. simpl. fold (column rows j).
  destruct (nth_error r j) as [x|] eqn:Hx;
    [|apply nth_error_None in Hx; lia].
  simpl. f_equal. exact IH.
Qed.

(** The transpose of [n] rows of length [m] has [m] rows of length [n]. *)
Lemma transpose_shape (rows : list (list A)) (n m : nat) :
  0 < n -> length rows = n -> Forall (fun r => length r = m) rows ->
  length (transpose rows) = m
  /\ Forall (fun r => length r = n) (transpose rows).
Proof.
  intros Hn Hlen Hrect. unfold transpose.
  assert (Hhd : length (hd [] rows) = m).
  { destruct rows as [|r rows]; [simpl in Hlen; lia|].
    inversion Hrect; assumption. }
  rewrite Hhd, length_map, length_seq. split; [reflexivity|].
  apply Forall_forall. intros c Hc. apply in_map_iff in Hc.
  destruct Hc as (j & <- & Hj). apply in_seq in Hj.
  rewrite (column_length rows m) by (assumption || lia). exact Hlen.
Qed.

Lemma map_nth_seq (r : list A) (d : A) :
  map (fun e => nth e r d) (seq 0 (length r)) = r.
Proof.
  apply nth_ext with (d := d) (d' := d).
  - rewrite length_map, length_seq. reflexivity.
  - intros k Hk. rewrite length_map, length_seq in Hk.
    rewrite (nth_indep _ d (nth 0 r d)) by (rewrite length_map, length_seq; exact Hk).
    rewrite (map_nth (fun e => nth e r d)), seq_nth by exact Hk. reflexivity.
Qed.

Lemma concat_singletons (l : list A) : concat (map (fun x => [x]) l) = l.
Proof. induction l as [|x xs IH]; [reflexivity|]. simpl. f_equal. exact IH. Qed.

(** Column [c] of the transpose is row [c]. *)
Lemma column_transpose (rows : list (list A)) (m c : nat) :
  Forall (fun r => length r = m) rows -> c < length rows ->
  column (transpose rows) c = nth c rows [].
Proof.
  intros Hrect Hc. unfold transpose.
  assert (Hhd : length (hd [] rows) = m).
  { destruct rows as [|r rows]; [simpl in Hc; lia|].
    inversion Hrect; assumption. }
  rewrite Hhd.
  assert (Hrow : length (nth c rows []) = m).
  { rewrite Forall_forall in Hrect. apply Hrect, nth_In, Hc. }
  unfold column. rewrite flat_map_concat_map, map_map.
  destruct (nth c rows []) as [|d r'] eqn:Hr.
  - simpl in Hrow. rewrite <- Hrow. reflexivity.
  - rewrite <- Hr in *.
    rewrite (map_ext_in _ (fun e => [nth e (nth c rows []) d])).
    + rewrite <- (map_map (fun e => nth e (nth c rows []) d) (fun x => [x])).
      rewrite <- Hrow, map_nth_seq. apply concat_singletons.
    + intros e He. apply in_seq in He.
      fold (column rows e).
      rewrite (nth_error_column rows m) by (assumption || lia).
      rewrite (nth_error_nth' rows [] Hc).
      rewrite (nth_error_nth' _ d) by lia. reflexivity.
Qed.

End Transpose.

(** ** CharLevelWordEmbeddingCnn: the mask *)

Lemma nth_map_combine {A B C : Type} (f : A * B -> C) (l : list A) (l' : list B)
    (i : nat) (da : A) (db : B) (dc : C) :
  length l = length l' -> i < length l ->
  nth i (map f (combine l l')) dc = f (nth i l da, nth i l' db).
Proof.
  intros Hlen Hi.
  rewrite (nth_indep _ dc (f (da, db)))
    by (rewrite length_map, length_combine; lia).
  rewrite (map_nth f), combine_nth by exact Hlen. reflexivity.
Qed.

Lemma mapM_Ok_Forall {A B : Type} (f : A -> result B) (Q : B -> Prop)
    (l : list A) (r : list B) :
  mapM f l = Ok r -> (forall x y, In x l -> f x = Ok y -> Q y) -> Forall Q r.
Proof.
  revert r; induction l as [|x xs IH]; intros r; simpl.
  - intros [= <-] _. constructor.
  - destruct (f x) as [y|e] eqn:Hy; simpl; [|discriminate].
    destruct (mapM f xs) as [ys|e]; simpl; [|discriminate].
    intros [= <-] HQ. constructor.
    + apply (HQ x y); [left; reflexivity|exact Hy].
    + apply IH; [reflexivity|]. intros x' y' Hin. apply HQ. right. exact Hin.
Qed.

Lemma nth_concat {A : Type} (t : list (list A)) (m : nat) :
  Forall (fun r => length r = m) t ->
  forall b w, b < length t -> w < m ->
    nth_error (concat t) (b * m + w) = nth_error (nth b t []) w.
Proof.
  induction 1 as [|r t Hr _ IH]; intros b w Hb Hw; simpl in Hb; [lia|].
  destruct b as [|b]; simpl.
  - apply nth_error_app1. lia.
  - rewrite nth_error_app2 by lia.
    replace (m + b * m + w - length r) with (b * m + w) by lia.
    apply IH; lia.
Qed.

Section MaskIndices.

Lemma mask_indices_entry (tensor : list (list (list Z)))
    (mask : list (list (list bool))) (B W C : nat) :
  has_shape 3 [B; W; C] tensor -> has_shape 3 [B; W; C] mask ->
  forall b w c, b < B -> w < W -> c < C ->
    entry 0%Z (mask_indices tensor mask) b w c
    = if entry false mask b w c then entry 0%Z tensor b w c else 0%Z.
Proof.
  intros Ht Hm b w c Hb Hw Hc.
  apply has_shape_3 in Ht. apply has_shape_3 in Hm.
  destruct Ht as [HtB Ht], Hm as [HmB Hm].
  rewrite Forall_forall in Ht, Hm.
  assert (Htb : In (nth b tensor []) tensor) by (apply nth_In; lia).
  assert (Hmb : In (nth b mask []) mask) by (apply nth_In; lia).
  destruct (Ht _ Htb) as [HtW Htw]. destruct (Hm _ Hmb) as [HmW Hmw].
  rewrite Forall_forall in Htw, Hmw.
  assert (Htc : length (nth w (nth b tensor []) []) = C)
    by (apply Htw, nth_In; lia).
  assert (Hmc : length (nth w (nth b mask []) []) = C)
    by (apply Hmw, nth_In; lia).
  unfold entry, mask_indices.
  rewrite (nth_map_combine _ tensor mask b [] [] []) by lia.
  rewrite (nth_map_combine _ _ _ w [] [] []) by lia.
  rewrite (nth_map_combine _ _ _ c 0%Z false 0%Z) by lia.
  destruct (nth c (nth w (nth b mask []) []) false); lia.
Qed.

Lemma mask_indices_shape (tensor : list (list (list Z)))
    (mask : list (list (list bool))) (B W C : nat) :
  has_shape 3 [B; W; C] tensor -> has_shape 3 [B; W; C] mask ->
  has_shape 3 [B; W; C] (mask_indices tensor mask).
Proof.
  intros Ht Hm.
  apply has_shape_3 in Ht. apply has_shape_3 in Hm. apply has_shape_3.
  destruct Ht as [HtB Ht], Hm as [HmB Hm].
  rewrite Forall_forall in Ht, Hm. unfold mask_indices.
  split; [rewrite length_map, length_combine; lia|].
  apply Forall_forall. intros x Hx. apply in_map_iff in Hx.
  destruct Hx as ([ws ms] & <- & Hin).
  destruct (Ht _ (in_combine_l _ _ _ _ Hin)) as [HwW Hw].
  destruct (Hm _ (in_combine_r _ _ _ _ Hin)) as [HmW Hmm].
  rewrite Forall_forall in Hw, Hmm.
  split; [rewrite length_map, length_combine; lia|].
  apply Forall_forall. intros y Hy. apply in_map_iff in Hy.
  destruct Hy as ([cs mcs] & <- & Hin').
  rewrite length_map, length_combine.
  rewrite (Hw _ (in_combine_l _ _ _ _ Hin')), (Hmm _ (in_combine_r _ _ _ _ Hin')).
  lia.
Qed.

(** A mask that is set everywhere changes nothing. *)
Lemma mask_indices_all_true (tensor : list (list (list Z))) :
  mask_indices tensor (map (map (map (fun _ => true))) tensor) = tensor.
Proof.
  unfold mask_indices.
  assert (Hcomb : forall (X Y : Type) (g : X -> Y) (l : list X),
             combine l (map g l) = map (fun x => (x, g x)) l).
  { intros X Y g l. induction l as [|x xs IH]; [reflexivity|].
    simpl. f_equal. exact IH. }
  rewrite Hcomb, map_map. rewrite <- (map_id tensor) at 2.
  apply map_ext. intros words.
  rewrite Hcomb, map_map. rewrite <- (map_id words) at 2.
  apply map_ext. intros chars.
  rewrite Hcomb, map_map. rewrite <- (map_id chars) at 2.
  apply map_ext. intros c. lia.
Qed.

End MaskIndices.

Section CharCnnMask.
Context {R : Type}.
Variable rzero : R.
Variables radd rmul rmax : R -> R -> R.

(** C7 (what the code does). A mask makes the forward pass raise: the
    product [tensor * mask.float()] is a tensor of floats, and the
    character embedding refuses a tensor of floats as indices, whatever
    the mask and the indices are.  No position is zeroed and embedded: no
    lookup takes place. *)
Theorem CharLevelWordEmbeddingCnn_forward_mask_raises
    (self : CharLevelWordEmbeddingCnn R) (tensor : list (list (list Z)))
    (mask : list (list (list bool))) :
  CharLevelWordEmbeddingCnn_forward rzero radd rmul rmax self tensor (Some mask)
  = Raise (RuntimeError "expected the indices to have scalar type Long").
Proof.
  unfold CharLevelWordEmbeddingCnn_forward, embedded_characters.
  destruct (size_3 (mask_indices tensor mask)) as [[batch_num word_num] char_num].
  reflexivity.
Qed.

End CharCnnMask.

(** ** CharLevelWordEmbeddingCnn: shapes *)

Lemma concat_length_rect {A : Type} (t : list (list A)) (n m : nat) :
  length t = n -> Forall (fun r => length r = m) t -> length (concat t) = n * m.
Proof.
  intros <-. induction 1 as [|r t Hr _ IH]; [reflexivity|].
  simpl. rewrite length_app, IH, Hr. reflexivity.
Qed.


Section CharCnnShape.
Context {R : Type}.
Variable rzero : R.
Variables radd rmul rmax : R -> R -> R.



Lemma Linear_init_shape (iw : nat -> nat -> R) (ib : nat -> R) (fin fout : nat) :
  let l := NN.Linear_init iw ib fin fout in
  NN.in_features l = fin /\ NN.out_features l = fout
  /\ length (NN.linear_weight l) = fout /\ length (NN.linear_bias l) = fout.
Proof. simpl. rewrite !length_map, !length_seq. repeat split. Qed.


End CharCnnShape.

Section CharCnnLayers.
Context {R : Type}.
Variable rzero : R.
Variables radd rmul rmax : R -> R -> R.

Lemma Conv1d_sample_shape (c : NN.Conv1d R) (x : list (list R)) (len : nat) :
  0 < NN.in_channels c ->
  length x = NN.in_channels c -> Forall (fun r => length r = len) x ->
  1 <= NN.kernel_size c <= len ->
  length (NN.conv_weight c) = NN.out_channels c ->
  length (NN.conv_bias c) = NN.out_channels c ->
  exists y, NN.Conv1d_sample rzero radd rmul c x = Ok y
            /\ length y = NN.out_channels c
            /\ Forall (fun r => length r = len - NN.kernel_size c + 1) y.
Proof.
  intros Hpos Hx Hrows [Hk1 Hk] Hw Hb. unfold NN.Conv1d_sample.
  destruct (Nat.eqb_spec (NN.kernel_size c) 0) as [E|_]; [lia|].
  rewrite Hx, Nat.eqb_refl. cbn [negb].
  assert (Hhd : length (hd [] x) = len).
  { destruct x as [|r x']; [simpl in Hx; lia|]. inversion Hrows; assumption. }
  rewrite Hhd. destruct (Nat.ltb_spec len (NN.kernel_size c)) as [Hlt|_]; [lia|].
  eexists. split; [reflexivity|]. split.
  - rewrite length_map, length_combine. lia.
  - apply Forall_forall. intros r Hr. apply in_map_iff in Hr.
    destruct Hr as ([w b] & <- & _). rewrite length_map, length_seq. reflexivity.
Qed.

Lemma max_entries_rows (y : list (list R)) :
  Forall (fun r => r <> []) y ->
  exists m, mapM (max_entries rmax) y = Ok m /\ length m = length y.
Proof.
  intros Hne.
  destruct (mapM_Forall (max_entries rmax) (fun _ => True) y) as (m & Hm & Hlen & _).
  - intros r Hr. rewrite Forall_forall in Hne. specialize (Hne r Hr).
    destruct r as [|a r']; [congruence|]. eexists. split; [reflexivity|exact I].
  - exists m. split; assumption.
Qed.

(** One convolution layer takes [n] examples of [channels] rows of [len]
    entries to [n] rows of [filters] entries, provided the kernel fits. *)
Lemma CnnLayer_forward_shape (layer : CnnLayer R) (input : list (list (list R)))
    (n len : nat) :
  dim (pool layer) = 2 ->
  0 < NN.in_channels (conv layer) ->
  1 <= NN.kernel_size (conv layer) <= len ->
  length (NN.conv_weight (conv layer)) = NN.out_channels (conv layer) ->
  length (NN.conv_bias (conv layer)) = NN.out_channels (conv layer) ->
  length input = n ->
  Forall (fun x => length x = NN.in_channels (conv layer)
                   /\ Forall (fun r => length r = len) x) input ->
  exists out, CnnLayer_forward rzero radd rmul rmax layer input = Ok out
              /\ length out = n
              /\ Forall (fun r => length r = NN.out_channels (conv layer)) out.
Proof.
  intros Hdim Hpos [Hk1 Hk2] Hw Hb Hn Hin. unfold CnnLayer_forward.
  destruct (mapM_Forall (NN.Conv1d_sample rzero radd rmul (conv layer))
              (fun y => length y = NN.out_channels (conv layer)
                        /\ Forall (fun r => length r
                                            = len - NN.kernel_size (conv layer) + 1) y)
              input) as (convolved & Hconv & Hclen & Hcall).
  { intros x Hx. rewrite Forall_forall in Hin. destruct (Hin x Hx) as [Hx1 Hx2].
    apply (Conv1d_sample_shape (conv layer) x len); try assumption.
    split; assumption. }
  unfold NN.Conv1d_forward. rewrite Hconv. cbn [rbind].
  unfold Max_forward. rewrite Hdim.
  destruct (mapM_Forall (mapM (max_entries rmax))
              (fun m => length m = NN.out_channels (conv layer))
              (map (map (map (act layer))) convolved)) as (out & Hout & Holen & Hoall).
  { intros y Hy. apply in_map_iff in Hy. destruct Hy as (y0 & <- & Hy0).
    rewrite Forall_forall in Hcall. destruct (Hcall y0 Hy0) as [Hy1 Hy2].
    destruct (max_entries_rows (map (map (act layer)) y0)) as (m & Hm & Hmlen).
    - apply Forall_forall. intros r Hr. apply in_map_iff in Hr.
      destruct Hr as (r0 & <- & Hr0). rewrite Forall_forall in Hy2.
      specialize (Hy2 r0 Hr0). intros Hnil.
      apply (f_equal (@length R)) in Hnil. rewrite length_map in Hnil.
      simpl in Hnil. lia.
    - exists m. split; [exact Hm|]. rewrite Hmlen, length_map. exact Hy1. }
  exists out. split; [exact Hout|]. split; [|exact Hoall].
  rewrite Holen, length_map. lia.
Qed.

End CharCnnLayers.

Section CharCnnEmbedded.
Context {R : Type}.

Lemma size_3_shape {A : Type} (t : list (list (list A))) (B W C : nat) :
  0 < B -> 0 < W -> has_shape 3 [B; W; C] t -> size_3 t = (B, W, C).
Proof.
  intros HB HW Ht. apply has_shape_3 in Ht. destruct Ht as [Hlen Hall].
  unfold size_3. destruct t as [|x t']; [simpl in Hlen; lia|].
  inversion Hall as [|? ? [Hx Hrows] _]; subst. simpl.
  destruct x as [|r x']; [simpl in HW; lia|].
  inversion Hrows; subst. reflexivity.
Qed.

(** The characters of every word after the lookup and the transposition:
    one example per word, one row per embedding channel, one entry per
    character. *)
Lemma embedded_characters_shape (self : CharLevelWordEmbeddingCnn R)
    (tensor : list (list (list Z))) (B W C E : nat) :
  0 < B -> 0 < W -> 0 < C ->
  has_shape 3 [B; W; C] tensor ->
  Forall (Forall (Forall (NN.valid_index (NN.weight (embed_char self))))) tensor ->
  Forall (fun row => length row = E) (NN.weight (embed_char self)) ->
  exists embedded,
    embedded_characters self tensor None = Ok (B, W, embedded)
    /\ length embedded = B * W
    /\ Forall (fun x => length x = E /\ Forall (fun r => length r = C) x) embedded.
Proof.
  intros HB HW HC Hts Htv Hrect. unfold embedded_characters, embed_indices.
  rewrite (size_3_shape tensor B W C HB HW Hts).
  apply has_shape_3 in Hts. destruct Hts as [HtB Hrows].
  rewrite Embedding_forward_Ok by (apply Forall_concat; exact Htv).
  cbn [rbind]. eexists. split; [reflexivity|]. split.
  - rewrite !length_map. apply concat_length_rect; [exact HtB|].
    eapply Forall_impl; [|exact Hrows]. simpl. intros ? [? _]. assumption.
  - apply Forall_forall. intros x Hx. apply in_map_iff in Hx.
    destruct Hx as (vecs & <- & Hvecs). apply in_map_iff in Hvecs.
    destruct Hvecs as (chars & <- & Hchars).
    apply in_concat in Hchars. destruct Hchars as (words & Hwords & Hin).
    rewrite Forall_forall in Hrows. destruct (Hrows words Hwords) as [_ Hcs].
    rewrite Forall_forall in Hcs. specialize (Hcs chars Hin).
    rewrite Forall_forall in Htv. specialize (Htv words Hwords).
    rewrite Forall_forall in Htv. specialize (Htv chars Hin).
    apply (transpose_shape _ C E).
    + exact HC.
    + rewrite length_map. exact Hcs.
    + apply Forall_forall. intros v Hv. apply in_map_iff in Hv.
      destruct Hv as (i & <- & Hi). rewrite Forall_forall in Htv, Hrect.
      apply Hrect, nth_In. destruct (Htv i Hi). lia.
Qed.

End CharCnnEmbedded.

Section CharCnnForward.
Context {R : Type}.
Variable rzero : R.
Variables radd rmul rmax : R -> R -> R.






(** The rows of the table of a constructed module have the length of the
    embedding size, provided a supplied table is a matrix. *)
Lemma init_weight_rect (rng : Initializer R)
    (char_embedding_size char_num num_filters : nat)
    (ngram_filter_sizes : list nat) (output_dim_arg : option nat)
    (activation : R -> R) (embedding_weights : option (list (list R)))
    (padding_idx : nat) (requires_grad : bool)
    (self : CharLevelWordEmbeddingCnn R) :
  CharLevelWordEmbeddingCnn_init rzero rng char_embedding_size char_num
    num_filters ngram_filter_sizes output_dim_arg activation embedding_weights
    padding_idx requires_grad = Ok self ->
  match embedding_weights with
  | Some w => Forall (fun row => length row = length (hd [] w)) w
  | None => True
  end ->
  Forall (fun row => length row = _embedding_size self) (NN.weight (embed_char self)).
Proof.
  intros Hinit Hrect.
  pose proof (CharLevelWordEmbeddingCnn_init_Ok rzero rng char_embedding_size
                char_num num_filters ngram_filter_sizes output_dim_arg activation
                embedding_weights padding_idx requires_grad self Hinit) as H.
  destruct embedding_weights as [w|].
  - unfold size_2 in H.
    destruct H as (_ & _ & _ & _ & _ & Hw & Hsize & _).
    rewrite Hw, Hsize. exact Hrect.
  - destruct H as (_ & _ & _ & _ & _ & Hw & Hsize & _).
    rewrite Hw, Hsize. apply Forall_forall. intros row Hin.
    apply in_map_iff in Hin. destruct Hin as (i & <- & _).
    destruct (Nat.eqb i padding_idx);
      [apply repeat_length|rewrite length_map; apply length_seq].
Qed.


End CharCnnForward.


(** ** AttentionPooling and StackedCell *)

Section Pooling.
Context {F S : Type}.

Lemma transpose_length {A : Type} (rows : list (list A)) (n m : nat) :
  0 < n -> length rows = n -> Forall (fun r => length r = m) rows ->
  length (transpose rows) = m.
Proof. intros Hn Hl Hr. apply (transpose_shape rows n m Hn Hl Hr). Qed.

Lemma key_scores_shape (self : AttentionPooling F S) (key : list (list F))
    (key_mask : list (list bool)) (query : list F) (T B : nat) :
  has_shape 2 [T; B] key -> has_shape 2 [T; B] key_mask -> length query = B ->
  has_shape 2 [T; B] (key_scores self key key_mask query).
Proof.
  intros Hk Hm Hq. apply has_shape_2 in Hk. apply has_shape_2 in Hm.
  destruct Hk as [Hk1 Hk2], Hm as [Hm1 Hm2]. apply has_shape_2.
  unfold key_scores. split; [rewrite length_map, length_combine; lia|].
  apply Forall_forall. intros r Hr. apply in_map_iff in Hr.
  destruct Hr as ([keys valid] & <- & Hin).
  rewrite Forall_forall in Hk2, Hm2.
  rewrite length_map, !length_combine.
  rewrite (Hk2 _ (in_combine_l _ _ _ _ Hin)), (Hm2 _ (in_combine_r _ _ _ _ Hin)).
  lia.
Qed.

(** The score at a place is the unnormalized score of the key at that place
    for the query of its example. *)
Lemma key_scores_entry (self : AttentionPooling F S) (key : list (list F))
    (key_mask : list (list bool)) (query : list F) (T B t b : nat)
    (dk dq : F) (ds : S) :
  has_shape 2 [T; B] key -> has_shape 2 [T; B] key_mask -> length query = B ->
  t < T -> b < B ->
  nth b (nth t (key_scores self key key_mask query) []) ds
  = attn_score self (nth b (nth t key_mask []) false) (nth b (nth t key []) dk)
      (nth b query dq).
Proof.
  intros Hk Hm Hq Ht Hb. apply has_shape_2 in Hk. apply has_shape_2 in Hm.
  destruct Hk as [Hk1 Hk2], Hm as [Hm1 Hm2].
  rewrite Forall_forall in Hk2, Hm2.
  assert (Hkt : length (nth t key []) = B) by (apply Hk2, nth_In; lia).
  assert (Hmt : length (nth t key_mask []) = B) by (apply Hm2, nth_In; lia).
  unfold key_scores.
  rewrite (nth_map_combine _ key key_mask t [] [] []) by lia.
  rewrite (nth_map_combine _ _ _ b (dk, false) dq ds)
    by (rewrite length_combine; lia).
  rewrite combine_nth by lia. reflexivity.
Qed.

Lemma pooled_summary_length (self : AttentionPooling F S) (key : list (list F))
    (key_mask : list (list bool)) (query : list F) (T B : nat) :
  0 < T ->
  has_shape 2 [T; B] key -> has_shape 2 [T; B] key_mask -> length query = B ->
  length (pooled_summary self key key_mask query) = B.
Proof.
  intros HT Hk Hm Hq. apply has_shape_2 in Hk. apply has_shape_2 in Hm.
  destruct Hk as [Hk1 Hk2], Hm as [Hm1 Hm2].
  unfold pooled_summary. rewrite length_map, !length_combine.
  rewrite (transpose_length key T B), (transpose_length key_mask T B) by assumption.
  lia.
Qed.

Lemma spread_query_broadcast (batch : nat) (q : F) :
  length (spread_query true batch [q]) = batch.
Proof. simpl. apply repeat_length. Qed.

Variable fadd : F -> F -> F.

Lemma StackedCell_layers_length (residual : bool) (cells : list (F -> F -> F)) :
  forall (inputs : list F) (hidden : list (list F)) (B : nat),
    length inputs = B -> Forall (fun h => length h = B) hidden ->
    length (fst (StackedCell_layers fadd residual cells inputs hidden)) = B.
Proof.
  induction cells as [|cell cells IH]; intros inputs hidden B Hin Hh; simpl.
  - exact Hin.
  - destruct hidden as [|h hidden']; [exact Hin|].
    inversion Hh as [|? ? Hh1 Hh2]; subst.
    destruct (StackedCell_layers fadd residual cells _ hidden') as [final updated] eqn:Hrec.
    simpl. change final with (fst (final, updated)). rewrite <- Hrec.
    apply IH; [|exact Hh2].
    destruct residual; repeat (rewrite ?length_map, ?length_combine); lia.
Qed.

(** Without residual connections the output of the stack is the updated
    hidden state of its last layer. *)
Lemma StackedCell_layers_output (cells : list (F -> F -> F)) :
  forall (inputs : list F) (hidden : list (list F)),
    cells <> [] -> length cells <= length hidden ->
    fst (StackedCell_layers fadd false cells inputs hidden)
    = last (snd (StackedCell_layers fadd false cells inputs hidden)) [].
Proof.
  induction cells as [|cell cells IH]; intros inputs hidden Hne Hlen; [congruence|].
  destruct hidden as [|h hidden']; [simpl in Hlen; lia|].
  cbn [StackedCell_layers].
  set (h' := map (fun '(x, hx) => cell x hx) (combine inputs h)).
  destruct cells as [|cell' cells'].
  - reflexivity.
  - specialize (IH h' hidden'). simpl in Hlen.
    destruct (StackedCell_layers fadd false (cell' :: cells') h' hidden')
      as [final updated] eqn:Hrec.
    simpl in IH |- *. rewrite IH by (congruence || lia).
    destruct updated as [|u us]; [|reflexivity].
    exfalso. destruct hidden' as [|h2 hidden'']; [simpl in Hlen; lia|].
    cbn [StackedCell_layers] in Hrec.
    destruct (StackedCell_layers fadd false cells' _ hidden''); discriminate.
Qed.

End Pooling.

(** ** PointerNetwork *)

Section PointerNetworkSpec.
Context {F S : Type}.
Variable fadd : F -> F -> F.

Lemma hd_length {A : Type} (rows : list (list A)) (n m : nat) :
  0 < n -> has_shape 2 [n; m] rows -> length (hd [] rows) = m.
Proof.
  intros Hn Hs. apply has_shape_2 in Hs. destruct Hs as [Hl Hr].
  destruct rows as [|r rows']; [simpl in Hl; lia|]. inversion Hr; assumption.
Qed.

(** The forward pass of the pointer network on a padded batch: what it
    computes on the way, and the shape of its two outputs. *)
Lemma PointerNetwork_forward_run (self : PointerNetwork F S)
    (question_pad : list (list F)) (question_mask : list (list bool))
    (passage_pad : list (list F)) (passage_mask : list (list bool))
    (question_len passage_len batch : nat) :
  0 < question_len -> 0 < passage_len ->
  has_shape 2 [question_len; batch] question_pad ->
  has_shape 2 [question_len; batch] question_mask ->
  has_shape 2 [passage_len; batch] passage_pad ->
  has_shape 2 [passage_len; batch] passage_mask ->
  exists hidden squeezed output updated,
    length hidden = batch /\ length output = batch
    /\ fst (AttentionPooling_forward (question_pooling self) question_pad
              [[V_q self]] question_mask true) = [hidden]
    /\ AttentionPooling_forward (passage_pooling self) passage_pad [hidden]
         passage_mask false
       = ([squeezed], key_scores (passage_pooling self) passage_pad passage_mask hidden)
    /\ StackedCell_forward fadd (cell self) squeezed
         (repeat hidden (num_layers self)) = (output, updated)
    /\ PointerNetwork_forward fadd self question_pad question_mask
         passage_pad passage_mask
       = Ok (key_scores (passage_pooling self) passage_pad passage_mask hidden,
             key_scores (passage_pooling self) passage_pad passage_mask output)
    /\ has_shape 2 [passage_len; batch]
         (key_scores (passage_pooling self) passage_pad passage_mask hidden)
    /\ has_shape 2 [passage_len; batch]
         (key_scores (passage_pooling self) passage_pad passage_mask output).
Proof.
  intros Hq Hp Hqp Hqm Hpp Hpm.
  pose proof (hd_length question_pad question_len batch Hq Hqp) as Hqb.
  pose proof (hd_length passage_pad passage_len batch Hp Hpp) as Hpb.
  set (hidden := pooled_summary (question_pooling self) question_pad question_mask
                   (spread_query true batch [V_q self])).
  assert (Hhid : length hidden = batch).
  { apply (pooled_summary_length _ _ _ _ question_len batch); try assumption.
    apply spread_query_broadcast. }
  set (squeezed := pooled_summary (passage_pooling self) passage_pad passage_mask hidden).
  assert (Hsq : length squeezed = batch)
    by (apply (pooled_summary_length _ _ _ _ passage_len batch); assumption).
  destruct (StackedCell_forward fadd (cell self) squeezed
              (repeat hidden (num_layers self))) as [output updated] eqn:Hcell.
  assert (Hout : length output = batch).
  { change output with (fst (output, updated)). rewrite <- Hcell.
    apply StackedCell_layers_length; [exact Hsq|].
    apply Forall_forall. intros h Hh. apply repeat_spec in Hh. subst h. exact Hhid. }
  exists hidden, squeezed, output, updated.
  assert (Hfst : fst (AttentionPooling_forward (question_pooling self) question_pad
                        [[V_q self]] question_mask true) = [hidden]).
  { unfold AttentionPooling_forward. rewrite Hqb. reflexivity. }
  assert (Hpass : AttentionPooling_forward (passage_pooling self) passage_pad [hidden]
                    passage_mask false
                  = ([squeezed],
                     key_scores (passage_pooling self) passage_pad passage_mask hidden))
    by reflexivity.
  split; [exact Hhid|]. split; [exact Hout|].
  split; [exact Hfst|]. split; [exact Hpass|]. split; [exact Hcell|].
  split.
  { unfold PointerNetwork_forward. rewrite Hfst, Hpass. cbn [expand_0 rbind].
    rewrite Hcell. reflexivity. }
  split; apply key_scores_shape; assumption.
Qed.

(** C4 (as the code has it). The begin logits are the unnormalized scores
    of the passage positions under the pooling of the masked passage
    conditioned on the question summary; the pooled passage goes through
    the stacked cell, started from the question summary in every layer; the
    end logits are the scores under the pooling of the masked passage
    conditioned on the output of the cell, which is the updated hidden
    state of its last layer when the cell has no residual connections.
    Both tensors are raw scores, not normalized, and both lie where the
    passage lies: their shape is (passage_len, batch). *)
Theorem PointerNetwork_forward_spec (self : PointerNetwork F S)
    (question_pad : list (list F)) (question_mask : list (list bool))
    (passage_pad : list (list F)) (passage_mask : list (list bool))
    (question_len passage_len batch : nat) :
  0 < question_len -> 0 < passage_len ->
  has_shape 2 [question_len; batch] question_pad ->
  has_shape 2 [question_len; batch] question_mask ->
  has_shape 2 [passage_len; batch] passage_pad ->
  has_shape 2 [passage_len; batch] passage_mask ->
  exists hidden squeezed output updated ans_begin ans_end,
    fst (AttentionPooling_forward (question_pooling self) question_pad
           [[V_q self]] question_mask true) = [hidden]
    /\ AttentionPooling_forward (passage_pooling self) passage_pad [hidden]
         passage_mask false = ([squeezed], ans_begin)
    /\ StackedCell_forward fadd (cell self) squeezed
         (repeat hidden (num_layers self)) = (output, updated)
    /\ snd (AttentionPooling_forward (passage_pooling self) passage_pad [output]
              passage_mask false) = ans_end
    /\ PointerNetwork_forward fadd self question_pad question_mask
         passage_pad passage_mask = Ok (ans_begin, ans_end)
    /\ has_shape 2 [passage_len; batch] ans_begin
    /\ has_shape 2 [passage_len; batch] ans_end
    /\ (forall t b dk dq ds, t < passage_len -> b < batch ->
          nth b (nth t ans_begin []) ds
          = attn_score (passage_pooling self)
              (nth b (nth t passage_mask []) false)
              (nth b (nth t passage_pad []) dk) (nth b hidden dq)
          /\ nth b (nth t ans_end []) ds
             = attn_score (passage_pooling self)
                 (nth b (nth t passage_mask []) false)
                 (nth b (nth t passage_pad []) dk) (nth b output dq))
    /\ (cell_residual (cell self) = false -> layers (cell self) <> [] ->
        length (layers (cell self)) <= num_layers self ->
        output = last updated []).
Proof.
  intros Hq Hp Hqp Hqm Hpp Hpm.
  destruct (PointerNetwork_forward_run self question_pad question_mask passage_pad
              passage_mask question_len passage_len batch Hq Hp Hqp Hqm Hpp Hpm)
    as (hidden & squeezed & output & updated & Hhid & Hout & Hfst & Hpass & Hcell
        & Hrun & Hbs & Hes).
  exists hidden, squeezed, output, updated,
    (key_scores (passage_pooling self) passage_pad passage_mask hidden),
    (key_scores (passage_pooling self) passage_pad passage_mask output).
  split; [exact Hfst|]. split; [exact Hpass|]. split; [exact Hcell|].
  split; [reflexivity|]. split; [exact Hrun|]. split; [exact Hbs|].
  split; [exact Hes|]. split.
  { intros t b dk dq ds Ht Hb. split;
      apply (key_scores_entry _ _ _ _ passage_len batch); assumption. }
  intros Hres Hne Hlen. unfold StackedCell_forward in Hcell. rewrite Hres in Hcell.
  change output with (fst (output, updated)).
  change updated with (snd (output, updated)) at 2. rewrite <- Hcell.
  apply StackedCell_layers_output; [exact Hne|].
  rewrite repeat_length. exact Hlen.
Qed.

End PointerNetworkSpec.

(** C4 (as stated) fails on the shape: for a batch of one example and a
    passage of two positions the pointer network returns two tensors of shape
    (2, 1), passage positions first, and not of shape (1, 2). *)
Lemma PointerNetwork_forward_time_major :
  PointerNetwork_forward Z.add Instances.pointer
    [[1]; [2]]%Z [[true]; [true]] [[3]; [4]]%Z [[true]; [true]]
  = Ok ([[15]; [20]]%Z, [[390]; [520]]%Z)
  /\ has_shape 2 [2; 1] [[15]; [20]]%Z
  /\ ~ has_shape 2 [1; 2] [[15]; [20]]%Z
  /\ ~ has_shape 2 [1; 2] [[390]; [520]]%Z.
Proof.
  split; [reflexivity|]. split; [simpl; repeat constructor|].
  split; intros [Hlen _]; discriminate.
Qed.

(** ** The batches of the data pipeline *)

Lemma sorted_decreasing_cons_iff (a : nat) (l : list nat) :
  sorted_decreasing (a :: l) = true
  <-> (match l with [] => True | b :: _ => b <= a end)
      /\ sorted_decreasing l = true.
Proof.
  destruct l as [|b l]; [simpl; tauto|].
  change (Nat.leb b a && sorted_decreasing (b :: l) = true
          <-> b <= a /\ sorted_decreasing (b :: l) = true).
  rewrite andb_true_iff, Nat.leb_le. tauto.
Qed.

Lemma insert_desc_sorted (lens : list nat) (i : nat) (l : list nat) :
  sorted_decreasing (map (fun j => nth j lens 0) l) = true ->
  sorted_decreasing (map (fun j => nth j lens 0) (insert_desc lens i l)) = true.
Proof.
  induction l as [|j js IH]; intros Hs; [reflexivity|].
  cbn [insert_desc]. destruct (Nat.ltb_spec (nth j lens 0) (nth i lens 0)) as [Hlt|Hge].
  - cbn [map]. apply sorted_decreasing_cons_iff. split; [lia|exact Hs].
  - cbn [map] in Hs |- *. apply sorted_decreasing_cons_iff in Hs.
    destruct Hs as [Hhd Hs]. apply sorted_decreasing_cons_iff.
    split; [|apply IH, Hs].
    destruct js as [|k ks]; [simpl; lia|].
    cbn [insert_desc]. destruct (Nat.ltb (nth k lens 0) (nth i lens 0)); simpl in *; lia.
Qed.

Lemma argsort_desc_sorted (lens : list nat) :
  sorted_decreasing (map (fun j => nth j lens 0) (argsort_desc lens)) = true.
Proof.
  unfold argsort_desc. generalize (seq 0 (length lens)) as idx.
  induction idx as [|i idx IH]; [reflexivity|].
  simpl. apply insert_desc_sorted, IH.
Qed.

(** The head of a decreasing list is its greatest entry. *)
Lemma sorted_decreasing_hd_max (l : list nat) (m : nat) :
  sorted_decreasing l = true -> In m l -> Forall (fun x => x <= m) l -> hd 0 l = m.
Proof.
  intros Hs Hin Hle. destruct l as [|a l]; [contradiction|]. simpl.
  destruct (sorted_decreasing_cons _ _ Hs) as [Hall _].
  inversion Hle; subst. destruct Hin as [->|Hin]; [reflexivity|].
  rewrite Forall_forall in Hall. specialize (Hall m Hin). lia.
Qed.

Lemma conjugate_hd (l : list nat) :
  Forall (fun x => 1 <= x) l -> hd 0 (conjugate l) = length l.
Proof.
  intros Hpos. destruct l as [|a l]; [reflexivity|].
  assert (1 <= a) by (inversion Hpos; assumption).
  unfold conjugate. simpl hd. destruct a as [|a]; [lia|]. simpl.
  apply count_gt_all. eapply Forall_impl; [|exact Hpos]. simpl. intros. lia.
Qed.

Section DocumentsFacts.
Variables (tokens : list (list Z)) (lens : list nat) (d : Documents) (B T : nat).
Hypothesis Hinit : Documents_init tokens lens = Ok d.
Hypothesis Htokens : has_shape 2 [B; T] tokens.
Hypothesis Hlens : length lens = B.
Hypothesis Hbound : Forall (fun l => 1 <= l <= T) lens.
Hypothesis Hmax : In T lens.

Lemma Documents_fields :
  sorted_idx d = argsort_desc lens
  /\ original_idx d = sort_idx (argsort_desc lens)
  /\ lengths d = map (fun i => nth i lens 0) (argsort_desc lens)
  /\ mask_original d
     = map (fun '(row, len) => map (fun j => Nat.ltb j len) (seq 0 (length row)))
           (combine tokens lens).
Proof.
  unfold Documents_init in Hinit.
  destruct (index_select 2 0 (argsort_desc lens) tokens) as [st|e]; simpl in Hinit;
    [|discriminate].
  injection Hinit as <-. repeat split.
Qed.

Lemma Documents_lengths_perm : Permutation (lengths d) lens.
Proof.
  destruct Documents_fields as (_ & _ & -> & _).
  rewrite (Permutation_map _ (argsort_desc_perm lens)).
  rewrite map_nth_seq. reflexivity.
Qed.

Lemma Documents_lengths_sorted : sorted_decreasing (lengths d) = true.
Proof.
  destruct Documents_fields as (_ & _ & -> & _). apply argsort_desc_sorted.
Qed.

Lemma Documents_lengths_length : length (lengths d) = B.
Proof. rewrite (Permutation_length Documents_lengths_perm). exact Hlens. Qed.

Lemma Documents_lengths_bound : Forall (fun l => 1 <= l <= T) (lengths d).
Proof.
  apply Forall_forall. intros l Hl. rewrite Forall_forall in Hbound.
  apply Hbound. apply (Permutation_in _ Documents_lengths_perm Hl).
Qed.

Lemma Documents_lengths_hd : hd 0 (lengths d) = T.
Proof.
  apply sorted_decreasing_hd_max.
  - apply Documents_lengths_sorted.
  - apply (Permutation_in _ (Permutation_sym Documents_lengths_perm) Hmax).
  - eapply Forall_impl; [|apply Documents_lengths_bound]. simpl. intros. lia.
Qed.

Lemma Documents_sorted_idx_perm :
  Permutation (sorted_idx d) (seq 0 (length (sorted_idx d)))
  /\ length (sorted_idx d) = B
  /\ original_idx d = sort_idx (sorted_idx d).
Proof.
  destruct Documents_fields as (-> & -> & _ & _).
  rewrite argsort_desc_length. split; [apply argsort_desc_perm|].
  split; [exact Hlens|reflexivity].
Qed.

Lemma Documents_mask_shape : has_shape 2 [B; T] (mask_original d).
Proof.
  destruct Documents_fields as (_ & _ & _ & ->).
  apply has_shape_2 in Htokens. destruct Htokens as [Ht1 Ht2].
  apply has_shape_2. split; [rewrite length_map, length_combine; lia|].
  apply Forall_forall. intros r Hr. apply in_map_iff in Hr.
  destruct Hr as ([row len] & <- & Hin).
  rewrite length_map, length_seq. rewrite Forall_forall in Ht2.
  apply Ht2. apply (in_combine_l _ _ _ _ Hin).
Qed.

End DocumentsFacts.

(** ** Permuting the batch dimension of matrices *)

Section BatchPermutation.
Context {A : Type}.

(** Along dimension 0: the rows are permuted. *)
Lemma index_select_rows (X : list (list A)) (idx : list nat) (n m : nat) :
  has_shape 2 [n; m] X -> Forall (fun i => i < n) idx ->
  index_select 2 0 idx X = Ok (map (fun i => nth i X []) idx)
  /\ has_shape 2 [length idx; m] (map (fun i => nth i X []) idx).
Proof.
  intros Hs Hidx. apply has_shape_2 in Hs. destruct Hs as [Hn Hm]. split.
  - cbn [index_select]. apply mapM_select_Ok. rewrite Hn. exact Hidx.
  - apply has_shape_2. split; [apply length_map|].
    apply Forall_forall. intros r Hr. apply in_map_iff in Hr.
    destruct Hr as (i & <- & Hi). rewrite Forall_forall in Hm, Hidx.
    apply Hm, nth_In. rewrite Hn. apply Hidx, Hi.
Qed.

(** Along dimension 1: the entries of every row are permuted. *)
Lemma index_select_columns (X : list (list A)) (idx : list nat) (n m : nat) :
  has_shape 2 [n; m] X -> Forall (fun i => i < m) idx ->
  exists Y, index_select 2 1 idx X = Ok Y
            /\ has_shape 2 [n; length idx] Y
            /\ forall t j, t < n -> j < length idx ->
                 nth_error (nth t Y []) j = nth_error (nth t X []) (nth j idx 0).
Proof.
  intros Hs Hidx. apply has_shape_2 in Hs. destruct Hs as [Hn Hm].
  cbn [index_select].
  assert (Hrow : forall r, In r X ->
             exists y, mapM (select r) idx = Ok y /\ length y = length idx
                       /\ forall j, j < length idx ->
                            nth_error y j = nth_error r (nth j idx 0)).
  { intros r Hr. rewrite Forall_forall in Hm. specialize (Hm r Hr).
    destruct (mapM_select_total r idx) as [y Hy]; [rewrite Hm; exact Hidx|].
    exists y. split; [exact Hy|]. split; [apply (mapM_Ok_length _ _ _ Hy)|].
    intros j Hj. pose proof (select_selected r y idx j Hy Hj) as Hsel.
    unfold select in Hsel.
    assert (Hjy : j < length y) by (rewrite (mapM_Ok_length _ _ _ Hy); exact Hj).
    assert (Hjr : nth j idx 0 < length r).
    { rewrite Hm. rewrite Forall_forall in Hidx. apply Hidx, nth_In, Hj. }
    apply nth_error_Some in Hjy. apply nth_error_Some in Hjr.
    destruct (nth_error y j), (nth_error r (nth j idx 0)); congruence. }
  clear Hm. revert n Hn. induction X as [|r X' IH]; intros n Hn.
  - exists []. simpl in Hn. subst n. split; [reflexivity|].
    split; [apply has_shape_2; split; [reflexivity|constructor]|]. intros; lia.
  - destruct (Hrow r (or_introl eq_refl)) as (y & Hy & Hylen & Hyent).
    destruct (IH (fun r' Hr' => Hrow r' (or_intror Hr')) (length X') eq_refl)
      as (Y' & HY' & HY's & HY'ent).
    exists (y :: Y'). cbn [mapM]. rewrite Hy. cbn [rbind]. rewrite HY'. cbn [rbind].
    split; [reflexivity|]. apply has_shape_2 in HY's. destruct HY's as [HY'1 HY'2].
    split.
    + apply has_shape_2. simpl in Hn. subst n. split; [simpl; lia|].
      constructor; assumption.
    + intros t j Ht Hj. destruct t as [|t]; simpl.
      * apply Hyent, Hj.
      * apply HY'ent; [simpl in Hn; lia|exact Hj].
Qed.

End BatchPermutation.

(** ** Packing a padded batch *)

Section PackBatch.
Context {F : Type}.
Variable zeros_like : F -> F.

Lemma list_sum_conjugate_le (l : list nat) (n : nat) :
  Forall (fun b => Nat.min b n = b) l ->
  forall rows : list (list F),
    length rows = length l -> Forall (fun r => length r = n) rows ->
    length (concat (map (fun '(step, b) => firstn b step) (combine rows l)))
    = list_sum l.
Proof.
  induction 1 as [|b l Hb _ IH]; intros rows Hlen Hrows.
  - rewrite combine_nil. reflexivity.
  - destruct rows as [|r rows']; [discriminate|].
    inversion Hrows; subst. simpl in *.
    rewrite length_app, length_firstn, IH by (lia || assumption). lia.
Qed.

Lemma pack_padded_sequence_cons (input : list (list F)) (lens : list nat)
    (batch_first : bool) :
  lens <> [] ->
  pack_padded_sequence input lens batch_first
  = if Nat.leb (last lens 0) 0
    then Raise (ValueError "length of all samples has to be greater than 0")
    else
      let input := if batch_first then transpose input else input in
      if negb (Nat.eqb (length lens) (length (hd [] input)))
      then Raise (ValueError "lengths array has incorrect size")
      else if negb (sorted_decreasing lens)
      then Raise (ValueError "lengths array has to be sorted in decreasing order")
      else
        Ok {| data := concat (map (fun '(step, b) => firstn b step)
                                  (combine input (conjugate lens)));
              batch_sizes := conjugate lens |}.
Proof. destruct lens; [congruence|reflexivity]. Qed.

(** Packing a batch-first tensor (batch, time) under decreasing positive
    lengths that fit into it gives a well-packed sequence whose batch sizes
    are those of the lengths. *)
Lemma pack_padded_sequence_batch_first (input : list (list F)) (lens : list nat)
    (B T : nat) :
  0 < B -> has_shape 2 [B; T] input ->
  length lens = B -> sorted_decreasing lens = true ->
  Forall (fun l => 1 <= l <= T) lens ->
  exists p, pack_padded_sequence input lens true = Ok p
            /\ well_packed p = true
            /\ batch_sizes p = conjugate lens.
Proof.
  intros HB Hin Hlen Hs Hb.
  assert (Hpos : Forall (fun x => 1 <= x) lens)
    by (eapply Forall_impl; [|exact Hb]; simpl; intros; lia).
  assert (Hne : lens <> []) by (destruct lens; [simpl in Hlen; lia|discriminate]).
  assert (Hl0 : 1 <= hd 0 lens <= T).
  { destruct lens as [|l0 ls]; [congruence|]. inversion Hb; assumption. }
  apply has_shape_2 in Hin. destruct Hin as [Hin1 Hin2].
  destruct (transpose_shape input B T HB Hin1 Hin2) as [Ht1 Ht2].
  assert (HT : 0 < T) by lia.
  rewrite (pack_padded_sequence_cons _ _ _ Hne). cbv zeta.
  assert (Hlast : Nat.leb (last lens 0) 0 = false)
    by (apply Nat.leb_gt; apply (positive_last _ Hne Hpos)).
  rewrite Hlast.
  assert (Hhd : length (hd [] (transpose input)) = B).
  { destruct (transpose input) as [|r rs]; [simpl in Ht1; lia|].
    inversion Ht2; assumption. }
  rewrite Hhd, Hlen, Nat.eqb_refl, Hs. cbn [negb].
  eexists. split; [reflexivity|]. split; [|reflexivity].
  unfold well_packed. cbn [batch_sizes data].
  destruct (conjugate lens) as [|c cs] eqn:Hc.
  { apply (f_equal (@length nat)) in Hc. rewrite conjugate_length in Hc.
    simpl in Hc. lia. }
  rewrite <- Hc. rewrite conjugate_sorted. cbn [andb].
  assert (Hcne : conjugate lens <> []) by (rewrite Hc; discriminate).
  pose proof (positive_last _ Hcne (conjugate_positive lens)) as Hcl.
  apply Nat.leb_le in Hcl. rewrite Hcl. cbn [andb]. apply Nat.eqb_eq.
  rewrite <- (firstn_skipn (length (conjugate lens)) (transpose input)) at 1.
  assert (Hcomb : forall (X Y : Type) (l1 l2 : list X) (l' : list Y),
             length l1 = length l' -> combine (l1 ++ l2) l' = combine l1 l').
  { intros X Y l1. induction l1 as [|x l1 IHl]; intros l2 l' Hlen'.
    - destruct l'; [destruct l2; reflexivity|discriminate].
    - destruct l' as [|y l']; [discriminate|]. simpl. f_equal. apply IHl.
      simpl in Hlen'. lia. }
  assert (Hfl : length (firstn (length (conjugate lens)) (transpose input))
                = length (conjugate lens)).
  { rewrite length_firstn, Ht1, conjugate_length. lia. }
  rewrite Hcomb by exact Hfl.
  apply (list_sum_conjugate_le (conjugate lens) B).
  - apply Forall_forall. intros b Hb'. unfold conjugate in Hb'.
    apply in_map_iff in Hb'. destruct Hb' as (k & <- & _).
    pose proof (count_gt_le_length k lens). lia.
  - exact Hfl.
  - apply Forall_forall. intros r Hr. rewrite Forall_forall in Ht2.
    apply Ht2.
    rewrite <- (firstn_skipn (length (conjugate lens)) (transpose input)).
    apply in_or_app. left. exact Hr.
Qed.

Lemma pad_steps_shape (pad : nat -> list F) (B : nat) (bs : list nat) :
  (forall n, length (pad n) = n) ->
  Forall (fun b => b <= B) bs ->
  forall d : list F, length d = list_sum bs ->
    has_shape 2 [length bs; B] (pad_steps pad B d bs).
Proof.
  intros Hpad Hle. induction Hle as [|b bs Hb _ IH]; intros d Hd.
  - apply has_shape_2. split; [reflexivity|constructor].
  - simpl in Hd. specialize (IH (skipn b d)).
    rewrite length_skipn in IH. specialize (IH ltac:(lia)).
    apply has_shape_2 in IH. destruct IH as [IH1 IH2].
    apply has_shape_2. cbn [pad_steps]. split; [simpl; lia|].
    constructor; [|exact IH2].
    rewrite length_app, length_firstn, Hpad. lia.
Qed.

(** The padded tensor of a well-packed sequence is (time, batch). *)
Lemma pad_packed_sequence_shape (p : PackedSequence F) :
  well_packed p = true ->
  exists padded,
    pad_packed_sequence zeros_like p = Ok (padded, conjugate (batch_sizes p))
    /\ has_shape 2 [length (batch_sizes p); hd 0 (batch_sizes p)] padded.
Proof.
  intros Hp. rewrite (pad_packed_sequence_Ok zeros_like p Hp).
  eexists. split; [reflexivity|].
  destruct (well_packed_inv p Hp) as (b & bs & Hbs & _ & Hpos & Hle & Hlen).
  rewrite Hbs in *. cbn [hd]. apply pad_steps_shape; try assumption.
  intros n. unfold padding. destruct (data p) as [|x xs] eqn:Hd.
  - simpl in Hlen. inversion Hpos; subst. lia.
  - apply repeat_length.
Qed.

End PackBatch.

(** ** Residual sums of well-packed sequences *)

Section ResidualOk.
Context {F : Type}.
Variable fadd : F -> F -> F.
Variable zeros_like : F -> F.

Lemma pack_residual_Ok (x y : PackedSequence F) :
  well_packed x = true -> well_packed y = true ->
  batch_sizes x = batch_sizes y ->
  exists r, pack_residual fadd zeros_like x y = Ok r
            /\ well_packed r = true
            /\ batch_sizes r = batch_sizes x
            /\ data r = map (fun '(a, b) => fadd a b) (combine (data x) (data y)).
Proof.
  intros Hx Hy Hbs.
  assert (Hres : pack_residual fadd zeros_like x y
                 = Ok {| data := map (fun '(a, b) => fadd a b)
                                     (combine (data x) (data y));
                         batch_sizes := batch_sizes x |}).
  { unfold pack_residual.
    rewrite (pad_packed_sequence_Ok zeros_like x Hx),
      (pad_packed_sequence_Ok zeros_like y Hy). cbn [rbind].
    unfold lengths_differ.
    destruct (list_eq_dec Nat.eq_dec (conjugate (batch_sizes x))
                (conjugate (batch_sizes y))) as [_|Hne];
      [|rewrite Hbs in Hne; congruence].
    apply pack_padded_sum; assumption. }
  eexists. split; [exact Hres|]. split; [|split; reflexivity].
  destruct (well_packed_inv x Hx) as (b & bs & Hb & Hs & Hpos & _ & Hlx).
  destruct (well_packed_inv y Hy) as (b' & bs' & Hb' & _ & _ & _ & Hly).
  assert (Hlen : length (data x) = length (data y)).
  { rewrite <- Hb in Hlx. rewrite <- Hb', <- Hbs in Hly. congruence. }
  unfold well_packed. cbn [batch_sizes data]. rewrite Hb.
  rewrite Hs. cbn [andb].
  assert (Hl : Nat.leb 1 (last (b :: bs) 0) = true).
  { apply Nat.leb_le. apply positive_last; [discriminate|exact Hpos]. }
  rewrite Hl. cbn [andb]. apply Nat.eqb_eq.
  rewrite length_map, length_combine, <- Hlen, Nat.min_id. exact Hlx.
Qed.

End ResidualOk.

(** ** Recorded computations *)

Section RunFacts.
Context {F : Type}.

Lemma bind_lift_Ok {A B : Type} (a : A) (k : A -> run (F := F) B) :
  bind (lift (Ok a)) k = k a.
Proof. unfold bind, lift, after. simpl. destruct (k a); reflexivity. Qed.

Lemma bind_Ok {A B : Type} (calls : list (call F)) (a : A) (k : A -> run B) :
  bind (calls, Ok a) k = after calls (k a).
Proof. reflexivity. Qed.

Lemma after_after {A : Type} (c1 c2 : list (call F)) (m : run A) :
  after c1 (after c2 m) = after (c1 ++ c2) m.
Proof. unfold after. simpl. rewrite app_assoc. reflexivity. Qed.

Lemma after_nil {A : Type} (m : run (F := F) A) : after [] m = m.
Proof. unfold after. simpl. destruct m; reflexivity. Qed.

End RunFacts.

(** ** RNet: the question in the sorted order of the passage *)

Lemma transpose_entry {A : Type} (rows : list (list A)) (n m t j : nat) :
  has_shape 2 [n; m] rows -> t < m -> j < n ->
  nth_error (nth t (transpose rows) []) j = nth_error (nth j rows []) t.
Proof.
  intros Hs Ht Hj. pose proof (hd_length rows n m ltac:(lia) Hs) as Hhd.
  apply has_shape_2 in Hs. destruct Hs as [Hn Hm].
  unfold transpose. rewrite Hhd.
  rewrite (nth_indep _ [] (column rows 0)) by (rewrite length_map, length_seq; exact Ht).
  rewrite (map_nth (column rows)), seq_nth by exact Ht. simpl.
  rewrite (nth_error_column rows m t Hm Ht).
  rewrite (nth_error_nth' rows []) by lia. reflexivity.
Qed.

Section Reconcile.
Context {F : Type}.
Variable zeros_like : F -> F.
Variables (question passage : Documents).
Variables (qtokens ptokens : list (list Z)) (qlens plens : list nat).
Variables (B Tq Tp : nat).
Hypothesis HB : 0 < B.
Hypothesis Hquestion : batch_of B Tq qtokens qlens question.
Hypothesis Hpassage : batch_of B Tp ptokens plens passage.

Lemma batch_of_lengths (d : Documents) (tokens : list (list Z)) (lens : list nat)
    (T : nat) :
  batch_of B T tokens lens d ->
  sorted_decreasing (lengths d) = true
  /\ length (lengths d) = B
  /\ Forall (fun l => 1 <= l <= T) (lengths d)
  /\ hd 0 (lengths d) = T
  /\ length (conjugate (lengths d)) = T
  /\ hd 0 (conjugate (lengths d)) = B.
Proof.
  intros (Hinit & Htok & Hlen & Hbound & Hmax).
  pose proof (Documents_lengths_sorted tokens lens d Hinit) as H1.
  pose proof (Documents_lengths_length tokens lens d B Hinit Hlen) as H2.
  pose proof (Documents_lengths_bound tokens lens d T Hinit Hbound) as H3.
  pose proof (Documents_lengths_hd tokens lens d B T Hinit Hlen Hbound Hmax) as H4.
  repeat split; try assumption.
  - rewrite conjugate_length. exact H4.
  - rewrite conjugate_hd; [exact H2|].
    eapply Forall_impl; [|exact H3]. simpl. intros. lia.
Qed.

Lemma batch_of_permutation (d : Documents) (tokens : list (list Z)) (lens : list nat)
    (T : nat) :
  batch_of B T tokens lens d ->
  Permutation (sorted_idx d) (seq 0 (length (sorted_idx d)))
  /\ length (sorted_idx d) = B
  /\ original_idx d = sort_idx (sorted_idx d)
  /\ Forall (fun i => i < B) (sorted_idx d)
  /\ Forall (fun i => i < B) (original_idx d)
  /\ length (original_idx d) = B
  /\ has_shape 2 [B; T] (mask_original d).
Proof.
  intros (Hinit & Htok & Hlen & Hbound & Hmax).
  destruct (Documents_sorted_idx_perm tokens lens d B Hinit Hlen) as (Hp & Hl & Ho).
  split; [exact Hp|]. split; [exact Hl|]. split; [exact Ho|].
  split; [rewrite <- Hl; apply perm_bound, Hp|].
  split; [rewrite Ho, <- Hl; apply sort_idx_bound, Hp|].
  split; [rewrite Ho, sort_idx_length; exact Hl|].
  apply (Documents_mask_shape tokens lens d B T Hinit Htok Hlen).
Qed.

(** The question, encoded and padded, and its mask, brought into the sorted
    order of the passage: position [j] of the batch dimension of both holds
    the original example [sorted_idx passage [j]]. *)
Lemma question_in_passage_sorted_order_spec (question_pack : PackedSequence F) :
  well_packed question_pack = true ->
  batch_sizes question_pack = conjugate (lengths question) ->
  exists q_sorted q_pad qm_sorted,
    pad_packed_sequence zeros_like question_pack
    = Ok (q_sorted, conjugate (batch_sizes question_pack))
    /\ has_shape 2 [Tq; B] q_sorted
    /\ (exists q_original,
          restore_original_order (rank := 2) question q_sorted 1 = Ok q_original
          /\ to_sorted_order (rank := 2) passage q_original 1 = Ok q_pad)
    /\ to_sorted_order (rank := 2) passage (mask_original question) 0 = Ok qm_sorted
    /\ question_in_passage_sorted_order zeros_like question passage question_pack
       = Ok (q_pad, transpose qm_sorted)
    /\ has_shape 2 [Tq; B] q_pad
    /\ has_shape 2 [Tq; B] (transpose qm_sorted)
    /\ forall t j, t < Tq -> j < B ->
         nth_error (nth t q_pad []) j
         = nth_error (nth t q_sorted [])
             (nth (nth j (sorted_idx passage) 0) (original_idx question) 0)
         /\ nth_error (nth t (transpose qm_sorted) []) j
            = nth_error (nth (nth j (sorted_idx passage) 0) (mask_original question) [])
                t.
Proof.
  intros Hwp Hbs.
  destruct (batch_of_lengths question qtokens qlens Tq Hquestion)
    as (_ & _ & _ & _ & HcT & HcB).
  destruct (batch_of_permutation question qtokens qlens Tq Hquestion)
    as (_ & _ & _ & _ & Hqo & Hqol & Hqm).
  destruct (batch_of_permutation passage ptokens plens Tp Hpassage)
    as (_ & Hpsl & _ & Hps & _ & _ & _).
  destruct (pad_packed_sequence_shape zeros_like question_pack Hwp)
    as (q_sorted & Hpad & Hshape).
  rewrite Hbs, HcT, HcB in Hshape.
  destruct (index_select_columns q_sorted (original_idx question) Tq B Hshape Hqo)
    as (q_orig & Hrestore & Horig_shape & Horig).
  rewrite Hqol in Horig_shape.
  destruct (index_select_columns q_orig (sorted_idx passage) Tq B Horig_shape Hps)
    as (q_pad & Hsort & Hpad_shape & Hpad_entry).
  rewrite Hpsl in Hpad_shape.
  destruct (index_select_rows (mask_original question) (sorted_idx passage) B Tq Hqm Hps)
    as [Hmask Hmask_shape].
  rewrite Hpsl in Hmask_shape.
  set (qm_sorted := map (fun i => nth i (mask_original question) [])
                        (sorted_idx passage)) in *.
  assert (Hmt : has_shape 2 [Tq; B] (transpose qm_sorted)).
  { apply has_shape_2 in Hmask_shape. destruct Hmask_shape as [Hm1 Hm2].
    apply has_shape_2. apply (transpose_shape qm_sorted B Tq HB Hm1 Hm2). }
  exists q_sorted, q_pad, qm_sorted.
  split; [exact Hpad|]. split; [exact Hshape|].
  split; [exists q_orig; split; assumption|]. split; [exact Hmask|].
  split.
  { unfold question_in_passage_sorted_order. rewrite Hpad. cbn [rbind].
    unfold restore_original_order. rewrite Hrestore. cbn [rbind].
    unfold to_sorted_order. rewrite Hsort. cbn [rbind]. rewrite Hmask. reflexivity. }
  split; [exact Hpad_shape|]. split; [exact Hmt|].
  intros t j Ht Hj. split.
  - rewrite Hpad_entry by (rewrite ?Hpsl; assumption).
    apply Horig; [exact Ht|]. rewrite Hqol.
    rewrite Forall_forall in Hps. apply Hps, nth_In. rewrite Hpsl. exact Hj.
  - rewrite (transpose_entry qm_sorted B Tq t j Hmask_shape Ht Hj).
    subst qm_sorted.
    rewrite (nth_indep _ [] (nth 0 (mask_original question) []))
      by (rewrite length_map, Hpsl; exact Hj).
    rewrite (map_nth (fun i => nth i (mask_original question) [])).
    reflexivity.
Qed.

End Reconcile.

(** ** RNet: one forward pass, step by step *)

Section RNetRun.
Context {F S : Type}.
Variable fadd : F -> F -> F.
Variable zeros_like : F -> F.
Variable self : RNet F S.
Variables (question passage : Documents).
Variables (qtokens ptokens : list (list Z)) (qlens plens : list nat).
Variables (embedded_question embedded_passage : list (list F)).
Variables (B Tq Tp : nat).
Hypothesis HB : 0 < B.
Hypothesis Hquestion : batch_of B Tq qtokens qlens question.
Hypothesis Hpassage : batch_of B Tp ptokens plens passage.
Hypothesis Heq : has_shape 2 [B; Tq] embedded_question.
Hypothesis Hep : has_shape 2 [B; Tp] embedded_passage.
Hypothesis Hencoders : encoders_keep_lengths self.

Lemma SentenceEncoding_forward_fst (se : SentenceEncoding F)
    (question_pack context_pack : PackedSequence F) :
  SentenceEncoding_forward se question_pack context_pack
  = (fst (RNN_forward (question_encoder se) question_pack),
     fst (RNN_forward (passage_encoder se) context_pack)).
Proof.
  unfold SentenceEncoding_forward.
  destruct (RNN_forward (question_encoder se) question_pack).
  destruct (RNN_forward (passage_encoder se) context_pack). reflexivity.
Qed.

Lemma _pair_encode_run (passage_pack : PackedSequence F)
    (questions : list (list F)) (question_mark : list (list bool)) :
  _pair_encode self passage_pack questions question_mark
  = ([PairEncoder_call questions question_mark passage_pack],
     Ok (fst (PairEncoder_forward (rnet_pair_encoder self) questions question_mark
                passage_pack))).
Proof.
  unfold _pair_encode.
  destruct (PairEncoder_forward (rnet_pair_encoder self) questions question_mark
              passage_pack). reflexivity.
Qed.

Lemma residual_sum_run (x y : PackedSequence F) :
  residual_sum fadd zeros_like x y
  = ([pack_residual_call x y], pack_residual fadd zeros_like x y).
Proof. reflexivity. Qed.

Lemma bind_residual {B' : Type} (flag : bool) (x y z r : PackedSequence F)
    (k : PackedSequence F -> run B') :
  pack_residual fadd zeros_like x y = Ok r ->
  bind (if flag then residual_sum fadd zeros_like x y else ret z) k
  = after (if flag then [pack_residual_call x y] else [])
      (k (if flag then r else z)).
Proof.
  intros Hr. destruct flag.
  - rewrite residual_sum_run, Hr. reflexivity.
  - reflexivity.
Qed.

Lemma _self_match_encode_run (paired : PackedSequence F)
    (sorted_mask : list (list bool)) (padded : list (list F)) (lens : list nat) :
  to_sorted_order (rank := 2) passage (mask_original passage) 0 = Ok sorted_mask ->
  pad_packed_sequence zeros_like paired = Ok (padded, lens) ->
  _self_match_encode zeros_like self paired passage
  = ([SelfMatchingEncoder_call padded (transpose sorted_mask) paired],
     Ok (fst (SelfMatchingEncoder_forward (self_matching_encoder self) padded
                (transpose sorted_mask) paired))).
Proof.
  intros Hmask Hpad. unfold _self_match_encode.
  rewrite Hmask, bind_lift_Ok, Hpad, bind_lift_Ok. cbn [fst].
  destruct (SelfMatchingEncoder_forward (self_matching_encoder self) padded
              (transpose sorted_mask) paired). reflexivity.
Qed.

(** The sentence encoding of a batch: two well-packed sequences under the
    sorted lengths of their documents. *)
Lemma _sentence_encoding_spec :
  exists passage_pack question_pack,
    _sentence_encoding self embedded_passage embedded_question passage question
    = Ok (passage_pack, question_pack)
    /\ well_packed passage_pack = true
    /\ batch_sizes passage_pack = conjugate (lengths passage)
    /\ well_packed question_pack = true
    /\ batch_sizes question_pack = conjugate (lengths question).
Proof.
  destruct (batch_of_lengths B HB question qtokens qlens Tq Hquestion)
    as (Hqs & Hql & Hqb & _).
  destruct (batch_of_lengths B HB passage ptokens plens Tp Hpassage)
    as (Hps & Hpl & Hpb & _).
  destruct (pack_padded_sequence_batch_first embedded_question (lengths question)
              B Tq HB Heq Hql Hqs Hqb) as (qp & Hqp & Hqwp & Hqbs).
  destruct (pack_padded_sequence_batch_first embedded_passage (lengths passage)
              B Tp HB Hep Hpl Hps Hpb) as (pp & Hpp & Hpwp & Hpbs).
  destruct Hencoders as (Hqe & Hpe & _ & _).
  destruct (Hqe qp Hqwp) as [Hq1 Hq2]. destruct (Hpe pp Hpwp) as [Hp1 Hp2].
  eexists. eexists. split.
  { unfold _sentence_encoding. rewrite Hqp. cbn [rbind]. rewrite Hpp. cbn [rbind].
    rewrite SentenceEncoding_forward_fst. reflexivity. }
  repeat split; try assumption; congruence.
Qed.

Lemma batch_of_positive (d : Documents) (tokens : list (list Z)) (lens : list nat)
    (T : nat) :
  batch_of B T tokens lens d -> 0 < T.
Proof.
  intros (_ & _ & _ & Hbound & Hmax). rewrite Forall_forall in Hbound.
  specialize (Hbound T Hmax). lia.
Qed.

(** One forward pass of a batch, with everything it computes on the way and
    the calls it makes. *)
Lemma RNet_forward_run :
  exists passage_pack question_pack q_pad q_mask pe_out paired p_mask paired_pad
         sm_out self_matched p_pad begin end_ begin_original end_original,
    _sentence_encoding self embedded_passage embedded_question passage question
    = Ok (passage_pack, question_pack)
    /\ question_in_passage_sorted_order zeros_like question passage question_pack
       = Ok (q_pad, q_mask)
    /\ pe_out = fst (PairEncoder_forward (rnet_pair_encoder self) q_pad q_mask
                       passage_pack)
    /\ (if residual self then pack_residual fadd zeros_like pe_out passage_pack
        else Ok pe_out) = Ok paired
    /\ (exists sorted_mask,
          to_sorted_order (rank := 2) passage (mask_original passage) 0 = Ok sorted_mask
          /\ p_mask = transpose sorted_mask)
    /\ (exists lens, pad_packed_sequence zeros_like paired = Ok (paired_pad, lens))
    /\ sm_out = fst (SelfMatchingEncoder_forward (self_matching_encoder self)
                       paired_pad p_mask paired)
    /\ (if residual self then pack_residual fadd zeros_like paired sm_out
        else Ok sm_out) = Ok self_matched
    /\ (exists lens, pad_packed_sequence zeros_like self_matched = Ok (p_pad, lens))
    /\ PointerNetwork_forward fadd (pointer_output self) q_pad q_mask p_pad p_mask
       = Ok (begin, end_)
    /\ has_shape 2 [Tp; B] begin /\ has_shape 2 [Tp; B] end_
    /\ restore_original_order (rank := 2) passage (transpose begin) 0
       = Ok begin_original
    /\ restore_original_order (rank := 2) passage (transpose end_) 0
       = Ok end_original
    /\ has_shape 2 [B; Tp] begin_original /\ has_shape 2 [B; Tp] end_original
    /\ RNet_forward fadd zeros_like self question passage
         embedded_question embedded_passage
       = ([PairEncoder_call q_pad q_mask passage_pack]
          ++ (if residual self then [pack_residual_call pe_out passage_pack] else [])
          ++ [SelfMatchingEncoder_call paired_pad p_mask paired]
          ++ (if residual self then [pack_residual_call paired sm_out] else [])
          ++ [PointerNetwork_call q_pad q_mask p_pad p_mask],
          Ok (begin_original, end_original)).
Proof.
  pose proof (batch_of_positive question qtokens qlens Tq Hquestion) as HTq.
  pose proof (batch_of_positive passage ptokens plens Tp Hpassage) as HTp.
  destruct (batch_of_lengths B HB passage ptokens plens Tp Hpassage)
    as (_ & _ & _ & _ & HcT & HcB).
  destruct (batch_of_permutation B passage ptokens plens Tp Hpassage)
    as (_ & Hpsl & _ & Hps & Hpo & Hpol & Hpm).
  destruct _sentence_encoding_spec
    as (passage_pack & question_pack & Hsent & Hpwp & Hpbs & Hqwp & Hqbs).
  destruct (question_in_passage_sorted_order_spec zeros_like question passage
              qtokens ptokens qlens plens B Tq Tp HB Hquestion Hpassage
              question_pack Hqwp Hqbs)
    as (q_sorted & q_pad & qm_sorted & _ & _ & _ & _ & Hrec & Hqpad & Hqmask & _).
  set (q_mask := transpose qm_sorted) in *.
  destruct Hencoders as (_ & _ & Hpair & Hself).
  (* pair encoding and its residual *)
  set (pe_out := fst (PairEncoder_forward (rnet_pair_encoder self) q_pad q_mask
                        passage_pack)).
  destruct (Hpair q_pad q_mask passage_pack Hpwp) as [Hpe1 Hpe2].
  fold pe_out in Hpe1, Hpe2.
  destruct (pack_residual_Ok fadd zeros_like pe_out passage_pack Hpe1 Hpwp Hpe2)
    as (r1 & Hr1 & Hr1wp & Hr1bs & _).
  set (paired := if residual self then r1 else pe_out).
  assert (Hpaired : well_packed paired = true
                    /\ batch_sizes paired = conjugate (lengths passage)).
  { subst paired. destruct (residual self); split; congruence. }
  destruct Hpaired as [Hpawp Hpabs].
  (* self matching and its residual *)
  destruct (index_select_rows (mask_original passage) (sorted_idx passage) B Tp Hpm Hps)
    as [Hmask Hmask_shape].
  rewrite Hpsl in Hmask_shape.
  set (pm_sorted := map (fun i => nth i (mask_original passage) [])
                        (sorted_idx passage)) in *.
  set (p_mask := transpose pm_sorted).
  assert (Hpmask : has_shape 2 [Tp; B] p_mask).
  { apply has_shape_2 in Hmask_shape. destruct Hmask_shape as [Hm1 Hm2].
    apply has_shape_2. apply (transpose_shape pm_sorted B Tp HB Hm1 Hm2). }
  destruct (pad_packed_sequence_shape zeros_like paired Hpawp)
    as (paired_pad & Hppad & _).
  set (sm_out := fst (SelfMatchingEncoder_forward (self_matching_encoder self)
                        paired_pad p_mask paired)).
  destruct (Hself paired_pad p_mask paired Hpawp) as [Hsm1 Hsm2].
  fold sm_out in Hsm1, Hsm2.
  destruct (pack_residual_Ok fadd zeros_like paired sm_out Hpawp Hsm1 (eq_sym Hsm2))
    as (r2 & Hr2 & Hr2wp & Hr2bs & _).
  set (self_matched := if residual self then r2 else sm_out).
  assert (Hmatched : well_packed self_matched = true
                     /\ batch_sizes self_matched = conjugate (lengths passage)).
  { subst self_matched. destruct (residual self); split; congruence. }
  destruct Hmatched as [Hsmwp Hsmbs].
  (* the pointer network *)
  destruct (pad_packed_sequence_shape zeros_like self_matched Hsmwp)
    as (p_pad & Hpadded & Hpshape).
  rewrite Hsmbs, HcT, HcB in Hpshape.
  destruct (PointerNetwork_forward_run fadd (pointer_output self) q_pad q_mask
              p_pad p_mask Tq Tp B HTq HTp Hqpad Hqmask Hpshape Hpmask)
    as (hidden & _ & output & _ & _ & _ & _ & _ & _ & Hptr & Hbs & Hes).
  set (begin := key_scores (passage_pooling (pointer_output self)) p_pad p_mask
                  hidden) in *.
  set (end_ := key_scores (passage_pooling (pointer_output self)) p_pad p_mask
                 output) in *.
  (* back to the original order *)
  assert (Hback : forall scores : list (list S),
             has_shape 2 [Tp; B] scores ->
             exists restored,
               restore_original_order (rank := 2) passage (transpose scores) 0
               = Ok restored
               /\ has_shape 2 [B; Tp] restored).
  { intros scores Hsc. apply has_shape_2 in Hsc. destruct Hsc as [Hs1 Hs2].
    destruct (transpose_shape scores Tp B HTp Hs1 Hs2) as [Ht1 Ht2].
    destruct (index_select_rows (transpose scores) (original_idx passage) B Tp)
      as [Hsel Hshape]; [apply has_shape_2; split; assumption|exact Hpo|].
    rewrite Hpol in Hshape. eexists. split; [exact Hsel|exact Hshape]. }
  destruct (Hback begin Hbs) as (begin_original & Hbo & Hbos).
  destruct (Hback end_ Hes) as (end_original & Heo & Heos).
  exists passage_pack, question_pack, q_pad, q_mask, pe_out, paired, p_mask,
    paired_pad, sm_out, self_matched, p_pad, begin, end_, begin_original, end_original.
  split; [exact Hsent|]. split; [exact Hrec|]. split; [reflexivity|].
  split; [subst paired; destruct (residual self); [exact Hr1|reflexivity]|].
  split; [exists pm_sorted; split; [exact Hmask|reflexivity]|].
  split; [eexists; exact Hppad|]. split; [reflexivity|].
  split; [subst self_matched; destruct (residual self); [exact Hr2|reflexivity]|].
  split; [eexists; exact Hpadded|]. split; [exact Hptr|].
  split; [exact Hbs|]. split; [exact Hes|]. split; [exact Hbo|].
  split; [exact Heo|]. split; [exact Hbos|]. split; [exact Heos|].
  unfold RNet_forward. rewrite Hsent, bind_lift_Ok. cbv beta iota.
  rewrite Hrec, bind_lift_Ok. cbv beta iota.
  rewrite _pair_encode_run, bind_Ok. fold pe_out.
  rewrite (bind_residual (residual self) pe_out passage_pack pe_out r1 _ Hr1).
  fold paired.
  rewrite (_self_match_encode_run paired pm_sorted paired_pad _ Hmask Hppad), bind_Ok.
  fold p_mask. fold sm_out.
  rewrite (bind_residual (residual self) paired sm_out sm_out r2 _ Hr2).
  fold self_matched.
  rewrite Hpadded, bind_lift_Ok. unfold to_sorted_order in Hmask |- *.
  rewrite Hmask, bind_lift_Ok. fold p_mask. cbn [fst].
  unfold record. rewrite bind_Ok, Hptr, bind_lift_Ok. cbv beta iota.
  rewrite Hbo, bind_lift_Ok, Heo, bind_lift_Ok.
  unfold ret, after. cbn [fst snd]. rewrite app_nil_r. reflexivity.
Qed.

End RNetRun.

(** ** RNet and Model: the specification *)

Section RNetSpec.
Context {F S : Type}.
Variable fadd : F -> F -> F.
Variable zeros_like : F -> F.

(** C1. For every batch, [RNet.forward] returns a pair (begin, end) of
    tensors of shape (batch, passage_length): each is the output of the
    pointer network, transposed and permuted along the batch dimension by
    the restore permutation of the passage, so that row [i] holds the
    scores the pointer network computed, in the sorted order, for the
    example the caller supplied at position [i]. *)
Theorem RNet_forward_original_order (self : RNet F S)
    (question passage : Documents)
    (qtokens ptokens : list (list Z)) (qlens plens : list nat)
    (embedded_question embedded_passage : list (list F))
    (batch question_length passage_length : nat) :
  0 < batch ->
  batch_of batch question_length qtokens qlens question ->
  batch_of batch passage_length ptokens plens passage ->
  has_shape 2 [batch; question_length] embedded_question ->
  has_shape 2 [batch; passage_length] embedded_passage ->
  encoders_keep_lengths self ->
  exists calls question_pad question_mask passage_pad passage_mask
         begin end_ begin_original end_original,
    RNet_forward fadd zeros_like self question passage
      embedded_question embedded_passage
    = (calls ++ [PointerNetwork_call question_pad question_mask
                   passage_pad passage_mask],
       Ok (begin_original, end_original))
    /\ PointerNetwork_forward fadd (pointer_output self) question_pad question_mask
         passage_pad passage_mask = Ok (begin, end_)
    /\ restore_original_order (rank := 2) passage (transpose begin) 0
       = Ok begin_original
    /\ restore_original_order (rank := 2) passage (transpose end_) 0
       = Ok end_original
    /\ has_shape 2 [batch; passage_length] begin_original
    /\ has_shape 2 [batch; passage_length] end_original
    /\ forall i t, i < batch -> t < passage_length ->
         nth (nth i (original_idx passage) 0) (sorted_idx passage) 0 = i
         /\ nth_error (nth i begin_original []) t
            = nth_error (nth t begin []) (nth i (original_idx passage) 0)
         /\ nth_error (nth i end_original []) t
            = nth_error (nth t end_ []) (nth i (original_idx passage) 0).
Proof.
  intros HB Hq Hp Heq Hep Henc.
  destruct (RNet_forward_run fadd zeros_like self question passage qtokens ptokens
              qlens plens embedded_question embedded_passage batch question_length
              passage_length HB Hq Hp Heq Hep Henc)
    as (passage_pack & question_pack & q_pad & q_mask & pe_out & paired & p_mask
        & paired_pad & sm_out & self_matched & p_pad & begin & end_ & bo & eo
        & _ & _ & _ & _ & _ & _ & _ & _ & _ & Hptr & Hbs & Hes & Hbo & Heo
        & Hbos & Heos & Hrun).
  destruct (batch_of_permutation batch passage ptokens plens passage_length Hp)
    as (Hperm & Hpsl & Hpo_eq & Hps & Hpo & Hpol & _).
  eexists. exists q_pad, q_mask, p_pad, p_mask, begin, end_, bo, eo.
  split.
  { rewrite Hrun. rewrite !app_assoc. reflexivity. }
  split; [exact Hptr|]. split; [exact Hbo|]. split; [exact Heo|].
  split; [exact Hbos|]. split; [exact Heos|].
  intros i t Hi Ht.
  assert (Hoi : nth i (original_idx passage) 0 < batch).
  { rewrite Forall_forall in Hpo. apply Hpo, nth_In. rewrite Hpol. exact Hi. }
  assert (Hrow : forall scores restored : list (list S),
             has_shape 2 [passage_length; batch] scores ->
             restore_original_order (rank := 2) passage (transpose scores) 0
             = Ok restored ->
             nth_error (nth i restored []) t
             = nth_error (nth t scores []) (nth i (original_idx passage) 0)).
  { intros scores restored Hsc Hres.
    pose proof Hsc as Hsc'. apply has_shape_2 in Hsc'. destruct Hsc' as [Hs1 Hs2].
    assert (HT : 0 < passage_length) by lia.
    destruct (transpose_shape scores passage_length batch HT Hs1 Hs2) as [Ht1 Ht2].
    destruct (index_select_rows (transpose scores) (original_idx passage)
                batch passage_length) as [Hsel _];
      [apply has_shape_2; split; assumption|exact Hpo|].
    unfold restore_original_order in Hres. rewrite Hsel in Hres.
    injection Hres as <-.
    rewrite (nth_indep _ [] (nth 0 (transpose scores) []))
      by (rewrite length_map, Hpol; exact Hi).
    rewrite (map_nth (fun k => nth k (transpose scores) [])).
    apply (transpose_entry scores passage_length batch); assumption. }
  split.
  - rewrite Hpo_eq.
    pose proof (perm_after_sort_idx (sorted_idx passage) Hperm) as Hinv.
    apply (f_equal (fun l => nth i l 0)) in Hinv.
    rewrite seq_nth in Hinv by (rewrite Hpsl; exact Hi). simpl in Hinv.
    rewrite (nth_indep _ 0 (nth 0 (sorted_idx passage) 0)) in Hinv
      by (rewrite length_map, sort_idx_length, Hpsl; exact Hi).
    rewrite (map_nth (fun k => nth k (sorted_idx passage) 0)) in Hinv.
    exact Hinv.
  - split; [apply Hrow; assumption|apply Hrow; assumption].
Qed.

(** C5. Before pair encoding, the encoded question comes out of its packed
    form in the sorted order of the question, goes back to the original
    order through [restore_original_order] of the question and on to the
    sorted order of the passage through [to_sorted_order] of the passage;
    the mask of the question goes from the original order to the sorted
    order of the passage through the same [to_sorted_order].  The pair
    encoder and the pointer network receive exactly these two tensors, and
    at every position [j] of the batch dimension both describe one and the
    same example, the one the passage has at its sorted position [j]. *)
Theorem RNet_forward_question_order (self : RNet F S)
    (question passage : Documents)
    (qtokens ptokens : list (list Z)) (qlens plens : list nat)
    (embedded_question embedded_passage : list (list F))
    (batch question_length passage_length : nat) :
  0 < batch ->
  batch_of batch question_length qtokens qlens question ->
  batch_of batch passage_length ptokens plens passage ->
  has_shape 2 [batch; question_length] embedded_question ->
  has_shape 2 [batch; passage_length] embedded_passage ->
  encoders_keep_lengths self ->
  exists passage_pack question_pack question_sorted question_lengths
         question_original question_pad sorted_mask calls passage_pad passage_mask
         result,
    _sentence_encoding self embedded_passage embedded_question passage question
    = Ok (passage_pack, question_pack)
    /\ pad_packed_sequence zeros_like question_pack
       = Ok (question_sorted, question_lengths)
    /\ restore_original_order (rank := 2) question question_sorted 1
       = Ok question_original
    /\ to_sorted_order (rank := 2) passage question_original 1 = Ok question_pad
    /\ to_sorted_order (rank := 2) passage (mask_original question) 0
       = Ok sorted_mask
    /\ RNet_forward fadd zeros_like self question passage
         embedded_question embedded_passage
       = (PairEncoder_call question_pad (transpose sorted_mask) passage_pack
            :: calls
            ++ [PointerNetwork_call question_pad (transpose sorted_mask)
                  passage_pad passage_mask],
          result)
    /\ has_shape 2 [question_length; batch] question_pad
    /\ has_shape 2 [question_length; batch] (transpose sorted_mask)
    /\ forall t j, t < question_length -> j < batch ->
         let example := nth j (sorted_idx passage) 0 in
         let place := nth example (original_idx question) 0 in
         nth place (sorted_idx question) 0 = example
         /\ nth_error (nth t question_pad []) j
            = nth_error (nth t question_sorted []) place
         /\ nth_error (nth t (transpose sorted_mask) []) j
            = nth_error (nth example (mask_original question) []) t.
Proof.
  intros HB Hq Hp Heq Hep Henc.
  destruct (RNet_forward_run fadd zeros_like self question passage qtokens ptokens
              qlens plens embedded_question embedded_passage batch question_length
              passage_length HB Hq Hp Heq Hep Henc)
    as (passage_pack & question_pack & q_pad & q_mask & pe_out & paired & p_mask
        & paired_pad & sm_out & self_matched & p_pad & begin & end_ & bo & eo
        & Hsent & Hrec & _ & _ & _ & _ & _ & _ & _ & _ & _ & _ & _ & _ & _ & _ & Hrun).
  destruct (_sentence_encoding_spec self question passage qtokens ptokens qlens plens
              embedded_question embedded_passage batch question_length passage_length
              HB Hq Hp Heq Hep Henc)
    as (pp' & qp' & Hsent' & _ & _ & Hqwp & Hqbs).
  rewrite Hsent in Hsent'. injection Hsent' as <- <-.
  destruct (question_in_passage_sorted_order_spec zeros_like question passage
              qtokens ptokens qlens plens batch question_length passage_length
              HB Hq Hp question_pack Hqwp Hqbs)
    as (q_sorted & q_pad' & qm_sorted & Hpad & _ & (q_orig & Hrest & Hsort) & Hmask
        & Hrec' & Hqpad & Hqmask & Hentry).
  rewrite Hrec in Hrec'. injection Hrec' as -> ->.
  destruct (batch_of_permutation batch question qtokens qlens question_length Hq)
    as (Hqperm & Hqsl & Hqo_eq & _ & _ & _ & _).
  destruct (batch_of_permutation batch passage ptokens plens passage_length Hp)
    as (_ & Hpsl & _ & Hps & _ & _ & _).
  exists passage_pack, question_pack, q_sorted. eexists.
  exists q_orig, q_pad', qm_sorted.
  exists ((if residual self then [pack_residual_call pe_out passage_pack] else [])
          ++ SelfMatchingEncoder_call paired_pad p_mask paired
          :: (if residual self then [pack_residual_call paired sm_out] else [])).
  exists p_pad, p_mask. eexists.
  split; [exact Hsent|]. split; [exact Hpad|]. split; [exact Hrest|].
  split; [exact Hsort|]. split; [exact Hmask|].
  split.
  { rewrite Hrun. cbn [app]. rewrite <- app_assoc. reflexivity. }
  split; [exact Hqpad|]. split; [exact Hqmask|].
  intros t j Ht Hj. cbv zeta.
  destruct (Hentry t j Ht Hj) as [He1 He2].
  split; [|split; assumption].
  assert (Hex : nth j (sorted_idx passage) 0 < batch).
  { rewrite Forall_forall in Hps. apply Hps, nth_In. rewrite Hpsl. exact Hj. }
  rewrite Hqo_eq.
  pose proof (perm_after_sort_idx (sorted_idx question) Hqperm) as Hinv.
  apply (f_equal (fun l => nth (nth j (sorted_idx passage) 0) l 0)) in Hinv.
  rewrite seq_nth in Hinv by (rewrite Hqsl; exact Hex). simpl in Hinv.
  rewrite (nth_indep _ 0 (nth 0 (sorted_idx question) 0)) in Hinv
    by (rewrite length_map, sort_idx_length, Hqsl; exact Hex).
  rewrite (map_nth (fun k => nth k (sorted_idx question) 0)) in Hinv.
  exact Hinv.
Qed.

(** C9 (as the code has it). With the residual toggle on, the pair stage
    adds the input of the pair encoder, the sentence-encoded passage, to the
    output of the pair encoder; the self-matching stage adds the paired
    passage, which is the very sequence the self-matching encoder has just
    received as its input, to the output of the self-matching encoder.
    Both stages add input and output of their encoder; they differ in the
    order of the two operands of [pack_residual] only. *)
Theorem RNet_forward_residual (self : RNet F S)
    (question passage : Documents)
    (qtokens ptokens : list (list Z)) (qlens plens : list nat)
    (embedded_question embedded_passage : list (list F))
    (batch question_length passage_length : nat) :
  0 < batch ->
  batch_of batch question_length qtokens qlens question ->
  batch_of batch passage_length ptokens plens passage ->
  has_shape 2 [batch; question_length] embedded_question ->
  has_shape 2 [batch; passage_length] embedded_passage ->
  encoders_keep_lengths self ->
  residual self = true ->
  exists passage_pack question_pack question_pad question_mask pair_output paired
         paired_pad passage_mask self_output self_matched passage_pad result,
    _sentence_encoding self embedded_passage embedded_question passage question
    = Ok (passage_pack, question_pack)
    /\ RNet_forward fadd zeros_like self question passage
      embedded_question embedded_passage
    = ([PairEncoder_call question_pad question_mask passage_pack;
        pack_residual_call pair_output passage_pack;
        SelfMatchingEncoder_call paired_pad passage_mask paired;
        pack_residual_call paired self_output;
        PointerNetwork_call question_pad question_mask passage_pad passage_mask],
       result)
    /\ pair_output
       = fst (PairEncoder_forward (rnet_pair_encoder self) question_pad
                question_mask passage_pack)
    /\ pack_residual fadd zeros_like pair_output passage_pack = Ok paired
    /\ data paired
       = map (fun '(a, b) => fadd a b) (combine (data pair_output) (data passage_pack))
    /\ self_output
       = fst (SelfMatchingEncoder_forward (self_matching_encoder self) paired_pad
                passage_mask paired)
    /\ pack_residual fadd zeros_like paired self_output = Ok self_matched
    /\ data self_matched
       = map (fun '(a, b) => fadd a b) (combine (data paired) (data self_output))
    /\ (exists lens,
          pad_packed_sequence zeros_like self_matched = Ok (passage_pad, lens)).
Proof.
  intros HB Hq Hp Heq Hep Henc Hres.
  destruct (RNet_forward_run fadd zeros_like self question passage qtokens ptokens
              qlens plens embedded_question embedded_passage batch question_length
              passage_length HB Hq Hp Heq Hep Henc)
    as (passage_pack & question_pack & q_pad & q_mask & pe_out & paired & p_mask
        & paired_pad & sm_out & self_matched & p_pad & begin & end_ & bo & eo
        & Hsent & _ & Hpe & Hr1 & _ & Hppad & Hsm & Hr2 & Hpadded & _ & _ & _ & _
        & _ & _ & _ & Hrun).
  rewrite Hres in Hr1, Hr2, Hrun.
  destruct (_sentence_encoding_spec self question passage qtokens ptokens qlens plens
              embedded_question embedded_passage batch question_length passage_length
              HB Hq Hp Heq Hep Henc)
    as (pp' & qp' & Hsent' & Hpwp & _ & _ & _).
  rewrite Hsent in Hsent'. injection Hsent' as <- <-.
  destruct Henc as (_ & _ & Hpair & Hself).
  destruct (Hpair q_pad q_mask passage_pack Hpwp) as [Hpe1 Hpe2].
  rewrite <- Hpe in Hpe1, Hpe2.
  destruct (pack_residual_Ok fadd zeros_like pe_out passage_pack Hpe1 Hpwp Hpe2)
    as (r1 & Hr1' & Hr1wp & Hr1bs & Hr1data).
  rewrite Hr1 in Hr1'. injection Hr1' as <-.
  destruct (Hself paired_pad p_mask paired Hr1wp) as [Hsm1 Hsm2].
  rewrite <- Hsm in Hsm1, Hsm2.
  destruct (pack_residual_Ok fadd zeros_like paired sm_out Hr1wp Hsm1 (eq_sym Hsm2))
    as (r2 & Hr2' & _ & _ & Hr2data).
  rewrite Hr2 in Hr2'. injection Hr2' as <-.
  exists passage_pack, question_pack, q_pad, q_mask, pe_out, paired, paired_pad,
    p_mask, sm_out, self_matched, p_pad. eexists.
  split; [exact Hsent|].
  split; [exact Hrun|]. split; [exact Hpe|]. split; [exact Hr1|].
  split; [exact Hr1data|]. split; [exact Hsm|]. split; [exact Hr2|].
  split; [exact Hr2data|exact Hpadded].
Qed.

End RNetSpec.

(** C9 (as stated) fails: in a run with the residual toggle on, the sequence
    added after self-matching is not something other than the input of the
    self-matching encoder; it is that input, the paired passage after its own
    residual sum, and not the bare output of the pair encoder. *)
Lemma RNet_forward_residual_reuses_input :
  exists question_pad question_mask passage_pack pair_output paired_pad passage_mask
         self_input residual_operand self_output pointer_call,
    fst (RNet_forward Z.add (fun _ => 0%Z) (Instances.net true)
           Instances.question Instances.passage
           Instances.embedded_question Instances.embedded_passage)
    = [PairEncoder_call question_pad question_mask passage_pack;
       pack_residual_call pair_output passage_pack;
       SelfMatchingEncoder_call paired_pad passage_mask self_input;
       pack_residual_call residual_operand self_output;
       pointer_call]
    /\ residual_operand = self_input
    /\ residual_operand <> pair_output.
Proof.
  do 10 eexists. split; [vm_compute; reflexivity|].
  split; [reflexivity|]. intros Heq. discriminate Heq.
Qed.

(** ** Model *)

Section ModelSpec.
Context {R S : Type}.
Variable rzero : R.
Variables radd rmul rmax : R -> R -> R.

(** What [Model.forward] returns is what [RNet.forward] returns for the
    documents of the batch and the merged word and character embeddings. *)
Lemma Model_forward_delegates (self : Model R S)
    (question passage : Documents) (question_char passage_char : CharDocuments)
    (calls : list (call (list R))) (value : list (list S) * list (list S)) :
  Model_forward rzero radd rmul rmax self question question_char passage passage_char
  = (calls, Ok value) ->
  exists embedded_question embedded_passage,
    RNet_forward (vector_add radd) (vector_zeros_like rzero) (r_net self)
      question passage embedded_question embedded_passage
    = (calls, Ok value).
Proof.
  unfold Model_forward. intros Hrun.
  destruct (WordEmbedding_forward (word_embedding self) [tensor question; tensor passage])
    as [[|eq [|ep [|x rest]]]|e];
    [rewrite bind_lift_Ok in Hrun; unfold lift in Hrun; congruence
    |rewrite bind_lift_Ok in Hrun; unfold lift in Hrun; congruence
    |rewrite bind_lift_Ok in Hrun
    |rewrite bind_lift_Ok in Hrun; unfold lift in Hrun; congruence
    |unfold bind, lift in Hrun; simpl in Hrun; congruence].
  destruct (CharLevelWordEmbeddingCnn_forward rzero radd rmul rmax (char_embedding self)
              (char_tensor question_char) None) as [eqc|e];
    [|unfold bind, lift in Hrun; simpl in Hrun; congruence].
  rewrite bind_lift_Ok in Hrun.
  destruct (CharLevelWordEmbeddingCnn_forward rzero radd rmul rmax (char_embedding self)
              (char_tensor passage_char) None) as [epc|e];
    [|unfold bind, lift in Hrun; simpl in Hrun; congruence].
  rewrite bind_lift_Ok in Hrun.
  eexists. eexists. exact Hrun.
Qed.

End ModelSpec.

(** ** The specification at the concrete instances *)

Lemma batch_of_question :
  batch_of 2 3 Instances.question_tokens Instances.question_lengths Instances.question.
Proof.
  unfold batch_of. split; [reflexivity|]. split; [simpl; repeat constructor|].
  split; [reflexivity|]. split; [repeat constructor|right; left; reflexivity].
Qed.

Lemma batch_of_passage :
  batch_of 2 3 Instances.passage_tokens Instances.passage_lengths Instances.passage.
Proof.
  unfold batch_of. split; [reflexivity|]. split; [simpl; repeat constructor|].
  split; [reflexivity|]. split; [repeat constructor|left; reflexivity].
Qed.

Lemma well_packed_map {A : Type} (f : A -> A) (p : PackedSequence A) :
  well_packed {| data := map f (data p); batch_sizes := batch_sizes p |}
  = well_packed p.
Proof. unfold well_packed. cbn [data batch_sizes]. rewrite length_map. reflexivity. Qed.

Lemma net_keeps_lengths (with_residual : bool) :
  encoders_keep_lengths (Instances.net with_residual).
Proof.
  unfold encoders_keep_lengths, keeps_lengths. cbn.
  split; [intros p Hp; split; [exact Hp|reflexivity]|].
  split; [intros p Hp; split; [exact Hp|reflexivity]|].
  split; intros _ _ p Hp; (split; [|reflexivity]).
  - unfold Instances.doubling. rewrite well_packed_map. exact Hp.
  - unfold Instances.lifting. rewrite well_packed_map. exact Hp.
Qed.

Lemma embedded_question_shape : has_shape 2 [2; 3] Instances.embedded_question.
Proof. simpl. repeat constructor. Qed.

Lemma embedded_passage_shape : has_shape 2 [2; 3] Instances.embedded_passage.
Proof. simpl. repeat constructor. Qed.

Lemma RNet_forward_original_order_witness :
  exists calls question_pad question_mask passage_pad passage_mask
         begin end_ begin_original end_original,
    RNet_forward Z.add (fun _ => 0%Z) (Instances.net false)
      Instances.question Instances.passage
      Instances.embedded_question Instances.embedded_passage
    = (calls ++ [PointerNetwork_call question_pad question_mask
                   passage_pad passage_mask],
       Ok (begin_original, end_original))
    /\ PointerNetwork_forward Z.add (pointer_output (Instances.net false))
         question_pad question_mask passage_pad passage_mask = Ok (begin, end_)
    /\ restore_original_order (rank := 2) Instances.passage (transpose begin) 0
       = Ok begin_original
    /\ restore_original_order (rank := 2) Instances.passage (transpose end_) 0
       = Ok end_original
    /\ has_shape 2 [2; 3] begin_original
    /\ has_shape 2 [2; 3] end_original
    /\ forall i t, i < 2 -> t < 3 ->
         nth (nth i (original_idx Instances.passage) 0)
             (sorted_idx Instances.passage) 0 = i
         /\ nth_error (nth i begin_original []) t
            = nth_error (nth t begin []) (nth i (original_idx Instances.passage) 0)
         /\ nth_error (nth i end_original []) t
            = nth_error (nth t end_ []) (nth i (original_idx Instances.passage) 0).
Proof.
  apply (RNet_forward_original_order Z.add (fun _ => 0%Z) (Instances.net false)
           Instances.question Instances.passage
           Instances.question_tokens Instances.passage_tokens
           Instances.question_lengths Instances.passage_lengths
           Instances.embedded_question Instances.embedded_passage 2 3 3).
  - lia.
  - exact batch_of_question.
  - exact batch_of_passage.
  - exact embedded_question_shape.
  - exact embedded_passage_shape.
  - exact (net_keeps_lengths false).
Defined.

Lemma restore_original_order_to_sorted_order_witness :
  (exists Y, to_sorted_order (rank := 2) Instances.question [[1; 2]; [3; 4]] 1 = Ok Y
             /\ restore_original_order Instances.question Y 1 = Ok [[1; 2]; [3; 4]])
  /\ (exists Y, restore_original_order (rank := 2) Instances.question [[1; 2]; [3; 4]] 1
                = Ok Y
                /\ to_sorted_order Instances.question Y 1 = Ok [[1; 2]; [3; 4]]).
Proof.
  apply (restore_original_order_to_sorted_order
           Instances.question_tokens Instances.question_lengths Instances.question
           nat 2 1 [[1; 2]; [3; 4]]).
  - reflexivity.
  - simpl. repeat constructor.
Defined.

Lemma pack_residual_spec_witness :
  exists x_tensor x_lengths y_tensor y_lengths,
    pad_packed_sequence (fun _ => 0%Z)
      {| data := [1; 2; 3; 4; 5]%Z; batch_sizes := [2; 2; 1] |}
    = Ok (x_tensor, x_lengths)
    /\ pad_packed_sequence (fun _ => 0%Z)
         {| data := [10; 20; 30; 40; 50]%Z; batch_sizes := [2; 2; 1] |}
       = Ok (y_tensor, y_lengths)
    /\ (x_lengths <> y_lengths ->
        pack_residual Z.add (fun _ => 0%Z)
          {| data := [1; 2; 3; 4; 5]%Z; batch_sizes := [2; 2; 1] |}
          {| data := [10; 20; 30; 40; 50]%Z; batch_sizes := [2; 2; 1] |}
        = Raise (ValueError "different lengths"))
    /\ (x_lengths = y_lengths ->
        pack_residual Z.add (fun _ => 0%Z)
          {| data := [1; 2; 3; 4; 5]%Z; batch_sizes := [2; 2; 1] |}
          {| data := [10; 20; 30; 40; 50]%Z; batch_sizes := [2; 2; 1] |}
        = pack_padded_sequence (add Z.add x_tensor y_tensor) x_lengths false
        /\ pack_residual Z.add (fun _ => 0%Z)
             {| data := [1; 2; 3; 4; 5]%Z; batch_sizes := [2; 2; 1] |}
             {| data := [10; 20; 30; 40; 50]%Z; batch_sizes := [2; 2; 1] |}
           = Ok {| data := map (fun '(a, b) => (a + b)%Z)
                               (combine [1; 2; 3; 4; 5]%Z [10; 20; 30; 40; 50]%Z);
                   batch_sizes := [2; 2; 1] |}
        /\ [2; 2; 1] = [2; 2; 1]
        /\ length [1; 2; 3; 4; 5]%Z = length [10; 20; 30; 40; 50]%Z).
Proof.
  apply (pack_residual_spec Z.add (fun _ => 0%Z)
           {| data := [1; 2; 3; 4; 5]%Z; batch_sizes := [2; 2; 1] |}
           {| data := [10; 20; 30; 40; 50]%Z; batch_sizes := [2; 2; 1] |}).
  - reflexivity.
  - reflexivity.
Defined.

Lemma PointerNetwork_forward_spec_witness :
  exists hidden squeezed output updated ans_begin ans_end,
    fst (AttentionPooling_forward (question_pooling Instances.pointer)
           [[1]; [2]]%Z [[V_q Instances.pointer]] [[true]; [true]] true) = [hidden]
    /\ AttentionPooling_forward (passage_pooling Instances.pointer) [[3]; [4]]%Z
         [hidden] [[true]; [true]] false = ([squeezed], ans_begin)
    /\ StackedCell_forward Z.add (cell Instances.pointer) squeezed
         (repeat hidden (num_layers Instances.pointer)) = (output, updated)
    /\ snd (AttentionPooling_forward (passage_pooling Instances.pointer) [[3]; [4]]%Z
              [output] [[true]; [true]] false) = ans_end
    /\ PointerNetwork_forward Z.add Instances.pointer
         [[1]; [2]]%Z [[true]; [true]] [[3]; [4]]%Z [[true]; [true]]
       = Ok (ans_begin, ans_end)
    /\ has_shape 2 [2; 1] ans_begin
    /\ has_shape 2 [2; 1] ans_end
    /\ (forall t b dk dq ds, t < 2 -> b < 1 ->
          nth b (nth t ans_begin []) ds
          = attn_score (passage_pooling Instances.pointer)
              (nth b (nth t [[true]; [true]] []) false)
              (nth b (nth t [[3]; [4]]%Z []) dk) (nth b hidden dq)
          /\ nth b (nth t ans_end []) ds
             = attn_score (passage_pooling Instances.pointer)
                 (nth b (nth t [[true]; [true]] []) false)
                 (nth b (nth t [[3]; [4]]%Z []) dk) (nth b output dq))
    /\ (cell_residual (cell Instances.pointer) = false ->
        layers (cell Instances.pointer) <> [] ->
        length (layers (cell Instances.pointer)) <= num_layers Instances.pointer ->
        output = last updated []).
Proof.
  apply (PointerNetwork_forward_spec Z.add Instances.pointer
           [[1]; [2]]%Z [[true]; [true]] [[3]; [4]]%Z [[true]; [true]] 2 2 1).
  - lia.
  - lia.
  - simpl. repeat constructor.
  - simpl. repeat constructor.
  - simpl. repeat constructor.
  - simpl. repeat constructor.
Defined.

Lemma RNet_forward_question_order_witness :
  exists passage_pack question_pack question_sorted question_lengths
         question_original question_pad sorted_mask calls passage_pad passage_mask
         result,
    _sentence_encoding (Instances.net false) Instances.embedded_passage
      Instances.embedded_question Instances.passage Instances.question
    = Ok (passage_pack, question_pack)
    /\ pad_packed_sequence (fun _ => 0%Z) question_pack
       = Ok (question_sorted, question_lengths)
    /\ restore_original_order (rank := 2) Instances.question question_sorted 1
       = Ok question_original
    /\ to_sorted_order (rank := 2) Instances.passage question_original 1
       = Ok question_pad
    /\ to_sorted_order (rank := 2) Instances.passage
         (mask_original Instances.question) 0 = Ok sorted_mask
    /\ RNet_forward Z.add (fun _ => 0%Z) (Instances.net false)
         Instances.question Instances.passage
         Instances.embedded_question Instances.embedded_passage
       = (PairEncoder_call question_pad (transpose sorted_mask) passage_pack
            :: calls
            ++ [PointerNetwork_call question_pad (transpose sorted_mask)
                  passage_pad passage_mask],
          result)
    /\ has_shape 2 [3; 2] question_pad
    /\ has_shape 2 [3; 2] (transpose sorted_mask)
    /\ forall t j, t < 3 -> j < 2 ->
         let example := nth j (sorted_idx Instances.passage) 0 in
         let place := nth example (original_idx Instances.question) 0 in
         nth place (sorted_idx Instances.question) 0 = example
         /\ nth_error (nth t question_pad []) j
            = nth_error (nth t question_sorted []) place
         /\ nth_error (nth t (transpose sorted_mask) []) j
            = nth_error (nth example (mask_original Instances.question) []) t.
Proof.
  apply (RNet_forward_question_order Z.add (fun _ => 0%Z) (Instances.net false)
           Instances.question Instances.passage
           Instances.question_tokens Instances.passage_tokens
           Instances.question_lengths Instances.passage_lengths
           Instances.embedded_question Instances.embedded_passage 2 3 3).
  - lia.
  - exact batch_of_question.
  - exact batch_of_passage.
  - exact embedded_question_shape.
  - exact embedded_passage_shape.
  - exact (net_keeps_lengths false).
Defined.

Lemma RNet_forward_residual_witness :
  exists passage_pack question_pack question_pad question_mask pair_output paired
         paired_pad passage_mask self_output self_matched passage_pad result,
    _sentence_encoding (Instances.net true) Instances.embedded_passage
      Instances.embedded_question Instances.passage Instances.question
    = Ok (passage_pack, question_pack)
    /\ RNet_forward Z.add (fun _ => 0%Z) (Instances.net true)
      Instances.question Instances.passage
      Instances.embedded_question Instances.embedded_passage
    = ([PairEncoder_call question_pad question_mask passage_pack;
        pack_residual_call pair_output passage_pack;
        SelfMatchingEncoder_call paired_pad passage_mask paired;
        pack_residual_call paired self_output;
        PointerNetwork_call question_pad question_mask passage_pad passage_mask],
       result)
    /\ pair_output
       = fst (PairEncoder_forward (rnet_pair_encoder (Instances.net true))
                question_pad question_mask passage_pack)
    /\ pack_residual Z.add (fun _ => 0%Z) pair_output passage_pack = Ok paired
    /\ data paired
       = map (fun '(a, b) => (a + b)%Z) (combine (data pair_output) (data passage_pack))
    /\ self_output
       = fst (SelfMatchingEncoder_forward (self_matching_encoder (Instances.net true))
                paired_pad passage_mask paired)
    /\ pack_residual Z.add (fun _ => 0%Z) paired self_output = Ok self_matched
    /\ data self_matched
       = map (fun '(a, b) => (a + b)%Z) (combine (data paired) (data self_output))
    /\ (exists lens,
          pad_packed_sequence (fun _ => 0%Z) self_matched = Ok (passage_pad, lens)).
Proof.
  apply (RNet_forward_residual Z.add (fun _ => 0%Z) (Instances.net true)
           Instances.question Instances.passage
           Instances.question_tokens Instances.passage_tokens
           Instances.question_lengths Instances.passage_lengths
           Instances.embedded_question Instances.embedded_passage 2 3 3).
  - lia.
  - exact batch_of_question.
  - exact batch_of_passage.
  - exact embedded_question_shape.
  - exact embedded_passage_shape.
  - exact (net_keeps_lengths true).
  - reflexivity.
Defined.


(** C8 (as stated) fails: a tensor that holds an index outside the table
    makes the forward pass raise instead of returning one embedded tensor
    per input, and a padding index that names no row of the pretrained
    table makes the constructor raise. *)
Lemma WordEmbedding_forward_not_every_tuple :
  WordEmbedding_init 0%Z Instances.ones Instances.char_table 1 false
  = Ok Instances.word_embedding_3
  /\ WordEmbedding_forward Instances.word_embedding_3 [[[0; 1]]; [[2; 3]]]%Z
     = Raise (RuntimeError "index out of range")
  /\ WordEmbedding_init 0%Z Instances.ones [[5; 5]]%Z 1 false
     = Raise (AssertionError "Padding_idx must be within num_embeddings").
Proof. repeat split. Qed.

Lemma WordEmbedding_forward_spec_witness :
  exists self,
    WordEmbedding_init 0%Z Instances.ones Instances.char_table 1 false = Ok self
    /\ let table := word_embedding_word_level self in
       WordEmbedding_forward self [[[0; 1]; [2; 2]]; [[1; 1; 1]]]%Z
       = Ok (map (map (map (fun i => nth (Z.to_nat i) Instances.char_table [])))
               [[[0; 1]; [2; 2]]; [[1; 1; 1]]]%Z)
       /\ NN.weight table = Instances.char_table
       /\ NN.padding_idx table = 1
       /\ NN.requires_grad table = false
       /\ NN.lookup table (Z.of_nat 1) = Ok (nth 1 Instances.char_table [])
       /\ (forall indices grad_output,
             match NN.Embedding_backward 0%Z Z.add table indices grad_output with
             | Some grad =>
                 false = true
                 /\ nth_error grad 1
                    = Some (repeat 0%Z (length (hd [] Instances.char_table)))
             | None => false = false
             end).
Proof.
  apply (WordEmbedding_forward_spec 0%Z Z.add Instances.ones Instances.char_table 1 false
           [[[0; 1]; [2; 2]]; [[1; 1; 1]]]%Z).
  - simpl. lia.
  - repeat (first [apply Forall_nil | apply Forall_cons]);
      unfold NN.valid_index; simpl; lia.
Defined.

(** C10 (as stated) fails: supplied weights whose row count the padding
    index does not fall below make the constructor raise instead of setting
    the table to those weights. *)
Lemma CharLevelWordEmbeddingCnn_init_weights_raises :
  CharLevelWordEmbeddingCnn_init 0%Z Instances.ones 2 3 3 [2] None Instances.relu
    (Some [[5; 5]]%Z) 1 true
  = Raise (AssertionError "Padding_idx must be within num_embeddings").
Proof. reflexivity. Qed.

Lemma CharLevelWordEmbeddingCnn_init_weights_witness :
  exists self,
    CharLevelWordEmbeddingCnn_init 0%Z Instances.ones 7 9 3 [2] None Instances.relu
      (Some Instances.char_table) 1 false = Ok self
    /\ NN.num_embeddings (embed_char self) = length Instances.char_table
    /\ NN.embedding_dim (embed_char self) = length (hd [] Instances.char_table)
    /\ NN.weight (embed_char self) = Instances.char_table
    /\ NN.requires_grad (embed_char self) = false
    /\ NN.padding_idx (embed_char self) = 1
    /\ _embedding_size self = length (hd [] Instances.char_table)
    /\ Forall (fun layer => NN.in_channels (conv layer)
                            = length (hd [] Instances.char_table))
              (cnn_layers self)
    /\ forall char_embedding_size' char_num' : nat,
        CharLevelWordEmbeddingCnn_init 0%Z Instances.ones char_embedding_size' char_num'
          3 [2] None Instances.relu (Some Instances.char_table) 1 false
        = Ok self.
Proof.
  apply (CharLevelWordEmbeddingCnn_init_weights 0%Z Instances.ones 7 9 3 [2] None
           Instances.relu Instances.char_table 1 false).
  simpl. lia.
Defined.

(** * Further properties of the model file *)

(** ** pack_residual: symmetry and the padded form of the result *)

Lemma lengths_differ_sym (x y : list nat) : lengths_differ x y = lengths_differ y x.
Proof.
  unfold lengths_differ.
  destruct (list_eq_dec Nat.eq_dec x y) as [E|E],
           (list_eq_dec Nat.eq_dec y x) as [E'|E']; congruence.
Qed.

Lemma lengths_differ_false (x y : list nat) : lengths_differ x y = false <-> x = y.
Proof.
  unfold lengths_differ.
  destruct (list_eq_dec Nat.eq_dec x y) as [E|E]; split; congruence.
Qed.

Lemma combine_app_same {A B : Type} (l1 l2 : list A) (l1' l2' : list B) :
  length l1 = length l1' ->
  combine (l1 ++ l2) (l1' ++ l2') = combine l1 l1' ++ combine l2 l2'.
Proof.
  revert l1'. induction l1 as [|a l1 IH]; intros [|b l1'] H; simpl in *;
    try discriminate; [reflexivity|].
  f_equal. apply IH. lia.
Qed.

Lemma map_combine_comm {A B : Type} (f : A -> A -> B) (l l' : list A) :
  (forall a b, f a b = f b a) ->
  map (fun '(a, b) => f a b) (combine l l') = map (fun '(a, b) => f a b) (combine l' l).
Proof.
  intros Hf. revert l'. induction l as [|a l IH]; intros [|b l']; simpl; try reflexivity.
  rewrite Hf, IH. reflexivity.
Qed.

Lemma PackedSequence_eq {F : Type} (p q : PackedSequence F) :
  data p = data q -> batch_sizes p = batch_sizes q -> p = q.
Proof.
  destruct p, q. simpl. intros -> ->. reflexivity.
Qed.

Section PackResidualMore.
Context {F : Type}.
Variable fadd : F -> F -> F.
Variable zeros_like : F -> F.

(** [pack_residual] returns for well-packed operands exactly when their
    batch sizes agree. *)
Lemma pack_residual_batch_sizes (x y r : PackedSequence F) :
  well_packed x = true -> well_packed y = true ->
  pack_residual fadd zeros_like x y = Ok r ->
  batch_sizes x = batch_sizes y.
Proof.
  intros Hx Hy Hr. unfold pack_residual in Hr.
  rewrite (pad_packed_sequence_Ok zeros_like x Hx) in Hr.
  rewrite (pad_packed_sequence_Ok zeros_like y Hy) in Hr.
  cbn [rbind] in Hr.
  destruct (lengths_differ (conjugate (batch_sizes x)) (conjugate (batch_sizes y)))
    eqn:Hd; [discriminate|].
  apply lengths_differ_false in Hd.
  rewrite <- (well_packed_batch_sizes x Hx), <- (well_packed_batch_sizes y Hy).
  rewrite Hd. reflexivity.
Qed.

Lemma pack_residual_mismatch_raises (x y : PackedSequence F) :
  well_packed x = true -> well_packed y = true ->
  batch_sizes x <> batch_sizes y ->
  pack_residual fadd zeros_like x y = Raise (ValueError "different lengths").
Proof.
  intros Hx Hy Hne. unfold pack_residual.
  rewrite (pad_packed_sequence_Ok zeros_like x Hx).
  rewrite (pad_packed_sequence_Ok zeros_like y Hy).
  cbn [rbind].
  destruct (lengths_differ (conjugate (batch_sizes x)) (conjugate (batch_sizes y)))
    eqn:Hd; [reflexivity|].
  apply lengths_differ_false in Hd. exfalso. apply Hne.
  rewrite <- (well_packed_batch_sizes x Hx), <- (well_packed_batch_sizes y Hy).
  rewrite Hd. reflexivity.
Qed.

(** X1. When the sum of two feature slices is commutative, so is
    [pack_residual] on well-packed sequences: exchanging the operands
    changes neither the result nor the error. *)
Theorem pack_residual_comm (x_pack y_pack : PackedSequence F) :
  (forall a b, fadd a b = fadd b a) ->
  well_packed x_pack = true -> well_packed y_pack = true ->
  pack_residual fadd zeros_like x_pack y_pack
  = pack_residual fadd zeros_like y_pack x_pack.
Proof.
  intros Hcomm Hx Hy.
  destruct (list_eq_dec Nat.eq_dec (batch_sizes x_pack) (batch_sizes y_pack))
    as [Heq|Hne].
  - destruct (pack_residual_Ok fadd zeros_like x_pack y_pack Hx Hy Heq)
      as (r & Hr & _ & Hbs & Hdata).
    destruct (pack_residual_Ok fadd zeros_like y_pack x_pack Hy Hx (eq_sym Heq))
      as (r' & Hr' & _ & Hbs' & Hdata').
    rewrite Hr, Hr'. f_equal. apply PackedSequence_eq.
    + rewrite Hdata, Hdata'. apply map_combine_comm, Hcomm.
    + rewrite Hbs, Hbs'. exact Heq.
  - rewrite (pack_residual_mismatch_raises x_pack y_pack Hx Hy Hne).
    rewrite (pack_residual_mismatch_raises y_pack x_pack Hy Hx); [reflexivity|].
    congruence.
Qed.

Lemma padding_add (dx dy : list F) (n : nat) :
  (forall a b, fadd (zeros_like a) (zeros_like b) = zeros_like (fadd a b)) ->
  length dx = length dy ->
  padding zeros_like (map (fun '(a, b) => fadd a b) (combine dx dy)) n
  = map (fun '(a, b) => fadd a b)
        (combine (padding zeros_like dx n) (padding zeros_like dy n)).
Proof.
  intros Hz Hlen. destruct dx as [|a dx], dy as [|b dy]; simpl in *;
    try discriminate; [reflexivity|].
  clear Hlen. induction n as [|n IH]; simpl; [reflexivity|].
  rewrite <- IH, Hz. reflexivity.
Qed.

Lemma pad_steps_add (padx pady padr : nat -> list F) (B : nat) (bs : list nat) :
  (forall n, padr n = map (fun '(a, b) => fadd a b) (combine (padx n) (pady n))) ->
  forall dx dy : list F,
    length dx = length dy ->
    pad_steps padr B (map (fun '(a, b) => fadd a b) (combine dx dy)) bs
    = add fadd (pad_steps padx B dx bs) (pad_steps pady B dy bs).
Proof.
  intros Hpad. induction bs as [|b bs IH]; intros dx dy Hlen; [reflexivity|].
  cbn [pad_steps]. rewrite add_cons. f_equal.
  - rewrite combine_app_same
      by (rewrite !length_firstn; lia).
    rewrite map_app, firstn_map, combine_firstn, Hpad. reflexivity.
  - rewrite skipn_map, combine_skipn. apply IH.
    rewrite !length_skipn. lia.
Qed.

(** X2. Padding the result of [pack_residual] gives the sum of the padded
    operands and their lengths, whenever the sum of two paddings is the
    padding of the sum: the function adds in the padded form and returns
    the packed form of that very tensor. *)
Theorem pack_residual_padded (x_pack y_pack result : PackedSequence F)
    (x_tensor y_tensor : list (list F)) (x_lengths y_lengths : list nat) :
  (forall a b, fadd (zeros_like a) (zeros_like b) = zeros_like (fadd a b)) ->
  well_packed x_pack = true -> well_packed y_pack = true ->
  pad_packed_sequence zeros_like x_pack = Ok (x_tensor, x_lengths) ->
  pad_packed_sequence zeros_like y_pack = Ok (y_tensor, y_lengths) ->
  pack_residual fadd zeros_like x_pack y_pack = Ok result ->
  pad_packed_sequence zeros_like result = Ok (add fadd x_tensor y_tensor, x_lengths)
  /\ y_lengths = x_lengths.
Proof.
  intros Hz Hx Hy Hpx Hpy Hr.
  pose proof (pack_residual_batch_sizes x_pack y_pack result Hx Hy Hr) as Hbs.
  destruct (pack_residual_Ok fadd zeros_like x_pack y_pack Hx Hy Hbs)
    as (r & Hr' & Hrwp & Hrbs & Hrdata).
  rewrite Hr in Hr'. injection Hr' as <-.
  rewrite (pad_packed_sequence_Ok zeros_like x_pack Hx) in Hpx.
  rewrite (pad_packed_sequence_Ok zeros_like y_pack Hy) in Hpy.
  injection Hpx as <- <-. injection Hpy as <- <-.
  split; [|rewrite Hbs; reflexivity].
  rewrite (pad_packed_sequence_Ok zeros_like result Hrwp).
  rewrite Hrbs, Hrdata. f_equal. f_equal.
  destruct (well_packed_inv x_pack Hx) as (b & bs & Hxb & _ & _ & _ & Hxlen).
  destruct (well_packed_inv y_pack Hy) as (b' & bs' & Hyb & _ & _ & _ & Hylen).
  assert (Hlen : length (data x_pack) = length (data y_pack)).
  { rewrite Hxlen, Hylen, <- Hxb, <- Hyb, Hbs. reflexivity. }
  rewrite <- Hbs.
  apply pad_steps_add; [|exact Hlen].
  intros n. apply padding_add; assumption.
Qed.

End PackResidualMore.

Lemma pack_residual_comm_witness :
  pack_residual Z.add (fun _ => 0%Z)
    {| data := [1; 2; 3; 4; 5]%Z; batch_sizes := [2; 2; 1] |}
    {| data := [10; 20; 30; 40; 50]%Z; batch_sizes := [2; 2; 1] |}
  = pack_residual Z.add (fun _ => 0%Z)
      {| data := [10; 20; 30; 40; 50]%Z; batch_sizes := [2; 2; 1] |}
      {| data := [1; 2; 3; 4; 5]%Z; batch_sizes := [2; 2; 1] |}.
Proof.
  apply (pack_residual_comm Z.add (fun _ => 0%Z)
           {| data := [1; 2; 3; 4; 5]%Z; batch_sizes := [2; 2; 1] |}
           {| data := [10; 20; 30; 40; 50]%Z; batch_sizes := [2; 2; 1] |}).
  - intros a b. lia.
  - reflexivity.
  - reflexivity.
Defined.

Lemma pack_residual_padded_witness :
  pad_packed_sequence (fun _ => 0%Z)
    {| data := [11; 22; 33; 44; 55]%Z; batch_sizes := [2; 2; 1] |}
  = Ok (add Z.add [[1; 2]; [3; 4]; [5; 0]]%Z [[10; 20]; [30; 40]; [50; 0]]%Z, [3; 2])
  /\ [3; 2] = [3; 2].
Proof.
  apply (pack_residual_padded Z.add (fun _ => 0%Z)
           {| data := [1; 2; 3; 4; 5]%Z; batch_sizes := [2; 2; 1] |}
           {| data := [10; 20; 30; 40; 50]%Z; batch_sizes := [2; 2; 1] |}
           {| data := [11; 22; 33; 44; 55]%Z; batch_sizes := [2; 2; 1] |}
           [[1; 2]; [3; 4]; [5; 0]]%Z [[10; 20]; [30; 40]; [50; 0]]%Z [3; 2] [3; 2]).
  - intros a b. reflexivity.
  - reflexivity.
  - reflexivity.
  - reflexivity.
  - reflexivity.
  - reflexivity.
Defined.

(** ** class Max *)

Lemma mapM_Ok_nth {A B : Type} (f : A -> result B) (l : list A) (r : list B)
    (i : nat) (da : A) (db : B) :
  mapM f l = Ok r -> i < length l -> f (nth i l da) = Ok (nth i r db).
Proof.
  intros H Hi.
  destruct (nth_error l i) as [x|] eqn:Hx;
    [|apply nth_error_None in Hx; lia].
  destruct (mapM_Ok_nth_error f l r H i x Hx) as (y & Hy & Hf).
  rewrite (nth_error_nth _ _ da Hx), (nth_error_nth _ _ db Hy). exact Hf.
Qed.

Section MaxSpec.
Context {R : Type}.
Variable rmax : R -> R -> R.
Variable le : R -> R -> Prop.
Hypothesis le_refl : forall a, le a a.
Hypothesis le_trans : forall a b c, le a b -> le b c -> le a c.
Hypothesis rmax_l : forall a b, le a (rmax a b).
Hypothesis rmax_r : forall a b, le b (rmax a b).
Hypothesis rmax_choice : forall a b, rmax a b = a \/ rmax a b = b.

Lemma fold_left_rmax (l : list R) :
  forall a, (fold_left rmax l a = a \/ In (fold_left rmax l a) l)
            /\ le a (fold_left rmax l a)
            /\ Forall (fun x => le x (fold_left rmax l a)) l.
Proof.
  induction l as [|b l IH]; intros a; simpl.
  - split; [left; reflexivity|]. split; [apply le_refl|constructor].
  - destruct (IH (rmax a b)) as (Hin & Hle & Hall).
    split; [|split].
    + destruct Hin as [Hin|Hin]; [|right; right; exact Hin].
      rewrite Hin. destruct (rmax_choice a b) as [E|E]; rewrite E; auto.
    + eapply le_trans; [apply rmax_l|exact Hle].
    + constructor; [|exact Hall].
      eapply le_trans; [apply rmax_r|exact Hle].
Qed.

Lemma max_entries_spec (row : list R) :
  row <> [] ->
  exists m, max_entries rmax row = Ok m /\ In m row /\ Forall (fun x => le x m) row.
Proof.
  destruct row as [|a row]; [congruence|]. intros _.
  exists (fold_left rmax row a). split; [reflexivity|].
  destruct (fold_left_rmax row a) as (Hin & Hle & Hall).
  split; [destruct Hin as [->|Hin]; [left; reflexivity|right; exact Hin]|].
  constructor; assumption.
Qed.

(** X3. [Max(2)] on a tensor (N, C, L) with L > 0 returns a tensor (N, C)
    whose entry at (i, j) is one of the L values of the input at (i, j) and
    is at least as large as each of them: it is their maximum, for any
    order of which [rmax] is the larger of two. *)
Theorem Max_forward_2_spec (input : list (list (list R))) (N C L : nat) :
  0 < L ->
  has_shape 3 [N; C; L] input ->
  exists out,
    Max_forward rmax {| dim := 2 |} input = Ok out
    /\ has_shape 2 [N; C] out
    /\ forall i j d, i < N -> j < C ->
         In (nth j (nth i out []) d) (nth j (nth i input []) [])
         /\ Forall (fun x => le x (nth j (nth i out []) d)) (nth j (nth i input []) []).
Proof.
  intros HL Hshape. apply has_shape_3 in Hshape. destruct Hshape as [HN Hrows].
  assert (Hrow : forall x, In x input ->
            exists y, mapM (max_entries rmax) x = Ok y /\ length y = C).
  { intros x Hx. rewrite Forall_forall in Hrows. destruct (Hrows x Hx) as [Hc Hl].
    destruct (max_entries_rows rmax x) as (m & Hm & Hlen).
    - eapply Forall_impl; [|exact Hl]. intros r Hr ->. simpl in Hr. lia.
    - exists m. split; [exact Hm|lia]. }
  destruct (mapM_Forall (mapM (max_entries rmax)) (fun y => length y = C) input Hrow)
    as (out & Hout & Hlen & Hall).
  exists out. split; [exact Hout|]. split; [apply has_shape_2; split; [lia|exact Hall]|].
  intros i j d Hi Hj.
  pose proof (mapM_Ok_nth (mapM (max_entries rmax)) input out i [] [] Hout
                ltac:(lia)) as Hi'.
  rewrite Forall_forall in Hrows.
  destruct (Hrows (nth i input [])) as [Hc Hl]; [apply nth_In; lia|].
  pose proof (mapM_Ok_nth (max_entries rmax) (nth i input []) (nth i out []) j [] d
                Hi' ltac:(lia)) as Hj'.
  rewrite Forall_forall in Hl.
  assert (Hne : nth j (nth i input []) [] <> []).
  { intros E. specialize (Hl (nth j (nth i input []) [])).
    rewrite E in Hl. simpl in Hl.
    assert (In [] (nth i input [])) as Hin.
    { rewrite <- E. apply nth_In. lia. }
    specialize (Hl Hin). lia. }
  destruct (max_entries_spec _ Hne) as (m & Hm & Hin & Hle).
  rewrite Hm in Hj'. injection Hj' as <-. split; assumption.
Qed.

End MaxSpec.

Lemma Max_forward_2_spec_witness :
  exists out,
    Max_forward Z.max {| dim := 2 |} [[[1; 5; 3]; [4; 2; 0]]]%Z = Ok out
    /\ has_shape 2 [1; 2] out
    /\ forall i j d, i < 1 -> j < 2 ->
         In (nth j (nth i out []) d) (nth j (nth i [[[1; 5; 3]; [4; 2; 0]]]%Z []) [])
         /\ Forall (fun x => (x <= nth j (nth i out []) d)%Z)
                   (nth j (nth i [[[1; 5; 3]; [4; 2; 0]]]%Z []) []).
Proof.
  apply (Max_forward_2_spec Z.max Z.le Z.le_refl Z.le_trans Z.le_max_l Z.le_max_r
           ltac:(intros a b; lia) [[[1; 5; 3]; [4; 2; 0]]]%Z 1 2 3).
  - lia.
  - simpl. repeat (first [split | constructor]).
Defined.

(** ** class Flatten *)

Lemma chunks_flat_map {A B : Type} (f : A -> list B) (m : nat) (l : list A) :
  Forall (fun x => length (f x) = m) l ->
  NN.chunks (length l) m (flat_map f l) = map f l.
Proof.
  unfold NN.chunks. induction 1 as [|a l Ha Hl IH]; [reflexivity|].
  cbn [length seq map flat_map]. f_equal.
  - simpl. rewrite firstn_app, Ha, Nat.sub_diag, firstn_O, app_nil_r.
    rewrite <- Ha. apply firstn_all.
  - rewrite <- seq_shift, map_map. rewrite <- IH.
    apply map_ext. intros i.
    replace (S i * m) with (length (f a) + i * m) by (rewrite Ha; lia).
    rewrite skipn_app, Nat.add_comm, Nat.add_sub.
    rewrite skipn_all2 by lia. reflexivity.
Qed.

Lemma entries_length {R : Type} (rank : nat) :
  forall (dims : list nat) (t : Torch.tensor R rank),
    has_shape rank dims t -> length (entries rank t) = fold_right Nat.mul 1 dims.
Proof.
  induction rank as [|r IH]; intros dims t H.
  - simpl in H. subst dims. reflexivity.
  - destruct dims as [|n dims]; [destruct H|]. destruct H as [Hn Hall].
    cbn [entries fold_right]. subst n.
    induction Hall as [|x t Hx Ht IHt]; [reflexivity|].
    cbn [flat_map length]. rewrite length_app, (IH dims x Hx), IHt. lia.
Qed.

(** X4. [Flatten] takes a contiguous tensor of sizes (n, d1, ..., dk) with
    n > 0 to the matrix (n, d1 * ... * dk) whose row [i] lists the entries
    of example [i] in their order: no entry moves from one example to
    another.  A tensor that is not contiguous is refused. *)
Theorem Flatten_forward_spec {R : Type} (rank n : nat) (dims : list nat)
    (input : Torch.tensor R (S rank)) :
  0 < n ->
  has_shape (S rank) (n :: dims) input ->
  Flatten_forward rank true input = Ok (map (entries rank) input)
  /\ has_shape 2 [n; fold_right Nat.mul 1 dims] (map (entries rank) input)
  /\ Flatten_forward rank false input = Raise (RuntimeError "input is not contiguous").
Proof.
  intros Hn Hshape.
  pose proof (entries_length (S rank) (n :: dims) input Hshape) as Hlen.
  destruct Hshape as [Hn' Hall].
  assert (Hrows : Forall (fun x => length (entries rank x) = fold_right Nat.mul 1 dims)
                    input).
  { eapply Forall_impl; [|exact Hall]. intros x Hx. apply entries_length, Hx. }
  split; [|split].
  - unfold Flatten_forward. cbn [negb]. rewrite Hn'.
    destruct (Nat.eqb_spec n 0) as [E|_]; [lia|].
    rewrite Hlen. cbn [fold_right].
    replace (n * fold_right Nat.mul 1 dims / n) with (fold_right Nat.mul 1 dims)
      by (rewrite (Nat.mul_comm n), Nat.div_mul; lia).
    rewrite Nat.eqb_refl. cbn [negb].
    f_equal. rewrite <- Hn'. apply (chunks_flat_map (entries rank)), Hrows.
  - apply has_shape_2. split; [rewrite length_map; exact Hn'|].
    apply Forall_map. exact Hrows.
  - reflexivity.
Qed.

Lemma Flatten_forward_spec_witness :
  Flatten_forward 2 true [[[1; 2]; [3; 4]; [5; 6]]; [[7; 8]; [9; 10]; [11; 12]]]%Z
  = Ok (map (entries 2) [[[1; 2]; [3; 4]; [5; 6]]; [[7; 8]; [9; 10]; [11; 12]]]%Z)
  /\ has_shape 2 [2; fold_right Nat.mul 1 [3; 2]]
       (map (entries 2) [[[1; 2]; [3; 4]; [5; 6]]; [[7; 8]; [9; 10]; [11; 12]]]%Z)
  /\ Flatten_forward 2 false [[[1; 2]; [3; 4]; [5; 6]]; [[7; 8]; [9; 10]; [11; 12]]]%Z
     = Raise (RuntimeError "input is not contiguous").
Proof.
  apply (Flatten_forward_spec 2 2 [3; 2]
           [[[1; 2]; [3; 4]; [5; 6]]; [[7; 8]; [9; 10]; [11; 12]]]%Z).
  - lia.
  - simpl. repeat (first [split | constructor]).
Defined.

(** ** class CharLevelWordEmbeddingCnn: the constructor *)

Lemma map_snd_combine_seq {A : Type} (l : list A) :
  forall a, map snd (combine (seq a (length l)) l) = l.
Proof.
  induction l as [|x l IH]; intros a; simpl; [reflexivity|].
  rewrite IH. reflexivity.
Qed.

Section CharCnnInitMore.
Context {R : Type}.
Variable rzero : R.

Lemma fresh_table_shape (init : nat -> nat -> R) (num size pad : nat) :
  has_shape 2 [num; size]
    (map (fun i => if Nat.eqb i pad
                   then repeat rzero size
                   else map (init i) (seq 0 size))
         (seq 0 num)).
Proof.
  apply has_shape_2.
  split; [rewrite length_map, length_seq; reflexivity|].
  apply Forall_map, Forall_forall. intros i _.
  destruct (Nat.eqb i pad);
    [apply repeat_length|rewrite length_map, length_seq; reflexivity].
Qed.

Lemma fresh_table_padding (init : nat -> nat -> R) (num size pad : nat)
    (e : NN.Embedding R) :
  pad < num ->
  NN.weight e = map (fun i => if Nat.eqb i pad
                              then repeat rzero size
                              else map (init i) (seq 0 size))
                    (seq 0 num) ->
  NN.lookup e (Z.of_nat pad) = Ok (repeat rzero size).
Proof.
  intros Hpad Hw. unfold NN.lookup.
  destruct (Z.ltb_spec (Z.of_nat pad) 0) as [E|_]; [lia|].
  rewrite Nat2Z.id. unfold select. rewrite Hw.
  rewrite nth_error_map, nth_error_seq.
  destruct (Nat.ltb_spec pad num) as [_|E]; [|lia].
  cbn [option_map Nat.add]. rewrite Nat.eqb_refl. reflexivity.
Qed.

(** X5. Without pre-trained weights, and for a padding index below
    [char_num], the constructor keeps the fresh table of [nn.Embedding]:
    it has the sizes (char_num, char_embedding_size) of the arguments,
    looking up the padding index gives a row of zeros, and it is trainable
    whatever [requires_grad] says: the argument is read only when
    [embedding_weights] is given. *)
Theorem CharLevelWordEmbeddingCnn_init_fresh_table (rng : Initializer R)
    (char_embedding_size char_num num_filters : nat)
    (ngram_filter_sizes : list nat) (output_dim : option nat)
    (activation : R -> R) (padding_idx : nat) (requires_grad : bool) :
  padding_idx < char_num ->
  exists self,
    CharLevelWordEmbeddingCnn_init rzero rng char_embedding_size char_num num_filters
      ngram_filter_sizes output_dim activation None padding_idx requires_grad
    = Ok self
    /\ NN.requires_grad (embed_char self) = true
    /\ NN.num_embeddings (embed_char self) = char_num
    /\ NN.embedding_dim (embed_char self) = char_embedding_size
    /\ _embedding_size self = char_embedding_size
    /\ has_shape 2 [char_num; char_embedding_size] (NN.weight (embed_char self))
    /\ NN.lookup (embed_char self) (Z.of_nat padding_idx)
       = Ok (repeat rzero char_embedding_size)
    /\ forall requires_grad' : bool,
         CharLevelWordEmbeddingCnn_init rzero rng char_embedding_size char_num
           num_filters ngram_filter_sizes output_dim activation None padding_idx
           requires_grad'
         = Ok self.
Proof.
  intros Hpad. unfold CharLevelWordEmbeddingCnn_init.
  rewrite (Embedding_init_Ok rzero _ _ _ _ Hpad). cbn [rbind].
  eexists. split; [reflexivity|].
  cbn [embed_char _embedding_size NN.requires_grad NN.num_embeddings
       NN.embedding_dim NN.weight].
  do 4 (split; [reflexivity|]).
  split; [apply fresh_table_shape|].
  split; [|reflexivity].
  apply (fresh_table_padding (init_embedding rng) char_num); [exact Hpad|reflexivity].
Qed.

(** X6. A module that the constructor returns has one convolution layer
    per entry of [ngram_filter_sizes], in their order: layer [i] has the
    kernel size of entry [i], [num_filters] output channels, as many input
    channels as the character table has columns, a weight tensor of these
    sizes, and is followed by [Max(2)].  A projection is added exactly
    when [output_dim] is given and not zero; it reads the
    [len(ngram_filter_sizes) * num_filters] values of the layers. *)
Theorem CharLevelWordEmbeddingCnn_init_layers (rng : Initializer R)
    (char_embedding_size char_num num_filters : nat)
    (ngram_filter_sizes : list nat) (output_dim_arg : option nat)
    (activation : R -> R) (embedding_weights : option (list (list R)))
    (padding_idx : nat) (requires_grad : bool)
    (self : CharLevelWordEmbeddingCnn R) :
  CharLevelWordEmbeddingCnn_init rzero rng char_embedding_size char_num num_filters
    ngram_filter_sizes output_dim_arg activation embedding_weights padding_idx
    requires_grad = Ok self ->
  map (fun layer => NN.kernel_size (conv layer)) (cnn_layers self) = ngram_filter_sizes
  /\ Forall (fun layer =>
               dim (pool layer) = 2
               /\ NN.in_channels (conv layer) = _embedding_size self
               /\ NN.out_channels (conv layer) = num_filters
               /\ has_shape 3 [num_filters; _embedding_size self;
                               NN.kernel_size (conv layer)]
                    (NN.conv_weight (conv layer))
               /\ length (NN.conv_bias (conv layer)) = num_filters)
            (cnn_layers self)
  /\ match output_layer self with
     | Some layer =>
         output_dim_arg = Some (output_dim self)
         /\ 0 < output_dim self
         /\ NN.in_features layer = length ngram_filter_sizes * num_filters
         /\ NN.out_features layer = output_dim self
     | None =>
         (output_dim_arg = None \/ output_dim_arg = Some 0)
         /\ output_dim self = length ngram_filter_sizes * num_filters
     end.
Proof.
  intros Hinit.
  pose proof (CharLevelWordEmbeddingCnn_init_Ok rzero rng char_embedding_size
                char_num num_filters ngram_filter_sizes output_dim_arg activation
                embedding_weights padding_idx requires_grad self Hinit) as H.
  destruct (match embedding_weights with
            | Some w => size_2 w
            | None => (char_num, char_embedding_size)
            end) as [num size].
  destruct H as (_ & _ & _ & _ & _ & _ & Hsize & Hlayers & Hout & Hdim).
  rewrite Hlayers, Hout, Hdim, Hsize.
  split; [|split].
  - rewrite map_map.
    erewrite map_ext with (g := snd); [|intros [i k]; reflexivity].
    apply map_snd_combine_seq.
  - apply Forall_map, Forall_forall. intros [i k] _.
    cbn [conv pool dim NN.Conv1d_init NN.in_channels NN.out_channels
         NN.kernel_size NN.conv_weight NN.conv_bias].
    do 3 (split; [reflexivity|]).
    split; [|rewrite length_map, length_seq; reflexivity].
    apply has_shape_3.
    split; [rewrite length_map, length_seq; reflexivity|].
    apply Forall_map, Forall_forall. intros f _.
    split; [rewrite length_map, length_seq; reflexivity|].
    apply Forall_map, Forall_forall. intros c _.
    rewrite length_map, length_seq; reflexivity.
  - destruct output_dim_arg as [[|d]|]; cbn [truthy];
      repeat split; auto; lia.
Qed.

End CharCnnInitMore.

(** ** Errors of the embeddings *)

Lemma mapM_Raise_or_Ok {A B : Type} (f : A -> result B) (e : exn) (l : list A) :
  (forall x, In x l -> f x = Raise e \/ exists y, f x = Ok y) ->
  mapM f l = Raise e \/ exists r, mapM f l = Ok r.
Proof.
  induction l as [|x l IH]; intros H; simpl.
  - right. eexists. reflexivity.
  - destruct (H x (or_introl eq_refl)) as [Hx|[y Hx]]; rewrite Hx; simpl;
      [left; reflexivity|].
    destruct IH as [IH|[r IH]];
      [intros z Hz; apply H; right; exact Hz| |]; rewrite IH; simpl;
      [left; reflexivity|right; eexists; reflexivity].
Qed.

Lemma mapM_Raise {A B : Type} (f : A -> result B) (e : exn) (l : list A) :
  (forall x, In x l -> f x = Raise e \/ exists y, f x = Ok y) ->
  Exists (fun x => f x = Raise e) l ->
  mapM f l = Raise e.
Proof.
  intros H Hex. induction Hex as [x l Hx|x l Hex IH]; simpl.
  - rewrite Hx. reflexivity.
  - destruct (H x (or_introl eq_refl)) as [Hx|[y Hx]]; rewrite Hx; simpl;
      [reflexivity|].
    rewrite IH; [reflexivity|]. intros z Hz. apply H. right. exact Hz.
Qed.

Section EmbeddingErrors.
Context {R : Type}.

Lemma lookup_Raise_or_Ok (e : NN.Embedding R) (i : Z) :
  NN.lookup e i = Raise (RuntimeError "index out of range")
  \/ exists row, NN.lookup e i = Ok row.
Proof.
  unfold NN.lookup, select. destruct (Z.ltb i 0); [left; reflexivity|].
  destruct (nth_error (NN.weight e) (Z.to_nat i));
    [right; eexists; reflexivity|left; reflexivity].
Qed.

Lemma lookup_invalid (e : NN.Embedding R) (i : Z) :
  ~ NN.valid_index (NN.weight e) i ->
  NN.lookup e i = Raise (RuntimeError "index out of range").
Proof.
  unfold NN.valid_index, NN.lookup, select. intros H.
  destruct (Z.ltb_spec i 0) as [_|Hi]; [reflexivity|].
  destruct (nth_error (NN.weight e) (Z.to_nat i)) eqn:Hn; [|reflexivity].
  exfalso. apply H. split; [exact Hi|].
  assert (Z.to_nat i < length (NN.weight e)) by (apply nth_error_Some; congruence).
  lia.
Qed.

Lemma Embedding_forward_Raise_or_Ok (e : NN.Embedding R) (indices : list (list Z)) :
  NN.Embedding_forward e indices = Raise (RuntimeError "index out of range")
  \/ exists out, NN.Embedding_forward e indices = Ok out.
Proof.
  apply mapM_Raise_or_Ok. intros row _.
  apply mapM_Raise_or_Ok. intros i _. apply lookup_Raise_or_Ok.
Qed.

Lemma Embedding_forward_invalid (e : NN.Embedding R) (indices : list (list Z)) :
  Exists (Exists (fun i => ~ NN.valid_index (NN.weight e) i)) indices ->
  NN.Embedding_forward e indices = Raise (RuntimeError "index out of range").
Proof.
  intros H. apply mapM_Raise.
  - intros row _. apply mapM_Raise_or_Ok. intros i _. apply lookup_Raise_or_Ok.
  - eapply Exists_impl; [|exact H]. intros row Hrow. apply mapM_Raise.
    + intros i _. apply lookup_Raise_or_Ok.
    + eapply Exists_impl; [|exact Hrow]. intros i. apply lookup_invalid.
Qed.

(** X7. [WordEmbedding.forward] raises when one of its tensors holds an
    index outside the table, whatever the other tensors hold: no index
    wraps around or is clamped. *)
Theorem WordEmbedding_forward_out_of_range (self : WordEmbedding R)
    (tensors : list (list (list Z))) :
  Exists (Exists (Exists
    (fun i => ~ NN.valid_index (NN.weight (word_embedding_word_level self)) i)))
    tensors ->
  WordEmbedding_forward self tensors = Raise (RuntimeError "index out of range").
Proof.
  intros H. apply mapM_Raise.
  - intros t _. apply Embedding_forward_Raise_or_Ok.
  - eapply Exists_impl; [|exact H]. intros t. apply Embedding_forward_invalid.
Qed.

Variable rzero : R.
Variables radd rmul rmax : R -> R -> R.

Lemma Exists_concat {A : Type} (P : A -> Prop) (t : list (list A)) :
  Exists (Exists P) t -> Exists P (concat t).
Proof.
  induction 1 as [x t Hx|x t _ IH]; simpl; apply Exists_app; auto.
Qed.

(** X8. Without a mask, [CharLevelWordEmbeddingCnn.forward] raises the
    error of the embedding when a character index lies outside the
    character table, before any convolution runs. *)
Theorem CharLevelWordEmbeddingCnn_forward_out_of_range
    (self : CharLevelWordEmbeddingCnn R) (tensor : list (list (list Z))) :
  Exists (Exists (Exists
    (fun i => ~ NN.valid_index (NN.weight (embed_char self)) i))) tensor ->
  CharLevelWordEmbeddingCnn_forward rzero radd rmul rmax self tensor None
  = Raise (RuntimeError "index out of range").
Proof.
  intros H. unfold CharLevelWordEmbeddingCnn_forward, embedded_characters.
  destruct (size_3 tensor) as [[batch_num word_num] char_num].
  unfold embed_indices.
  rewrite (Embedding_forward_invalid (embed_char self) (concat tensor));
    [reflexivity|].
  apply Exists_concat, H.
Qed.

(** X9. A character CNN constructed with an empty [ngram_filter_sizes] has
    no layer to take an output from: its forward pass returns for no
    input. *)
Theorem CharLevelWordEmbeddingCnn_forward_no_filters (rng : Initializer R)
    (char_embedding_size char_num num_filters : nat) (output_dim : option nat)
    (activation : R -> R) (embedding_weights : option (list (list R)))
    (padding_idx : nat) (requires_grad : bool)
    (self : CharLevelWordEmbeddingCnn R)
    (tensor : list (list (list Z))) (mask : option (list (list (list bool)))) :
  CharLevelWordEmbeddingCnn_init rzero rng char_embedding_size char_num
    num_filters [] output_dim activation embedding_weights padding_idx
    requires_grad = Ok self ->
  exists e,
    CharLevelWordEmbeddingCnn_forward rzero radd rmul rmax self tensor mask
    = Raise e.
Proof.
  intros Hinit.
  pose proof (CharLevelWordEmbeddingCnn_init_Ok rzero rng char_embedding_size
                char_num num_filters [] output_dim activation embedding_weights
                padding_idx requires_grad self Hinit) as H.
  destruct (match embedding_weights with
            | Some w0 => size_2 w0
            | None => (char_num, char_embedding_size)
            end) as [num size].
  destruct H as (_ & _ & _ & _ & _ & _ & _ & Hlayers & _).
  unfold CharLevelWordEmbeddingCnn_forward.
  destruct (embedded_characters self tensor mask) as [[[b w] t]|e] eqn:He;
    [|exists e; reflexivity].
  cbn [rbind]. unfold convolved_characters at 1. rewrite Hlayers.
  cbn [combine seq length map mapM rbind Nat.ltb Nat.leb].
  eexists. reflexivity.
Qed.

End EmbeddingErrors.

Lemma WordEmbedding_forward_out_of_range_witness :
  WordEmbedding_forward Instances.word_embedding_3 [[[0; 1]; [2; 2]]; [[1; 3; 1]]]%Z
  = Raise (RuntimeError "index out of range").
Proof.
  apply (WordEmbedding_forward_out_of_range Instances.word_embedding_3
           [[[0; 1]; [2; 2]]; [[1; 3; 1]]]%Z).
  apply Exists_cons_tl, Exists_cons_hd, Exists_cons_hd, Exists_cons_tl, Exists_cons_hd.
  unfold NN.valid_index. simpl. lia.
Defined.

Lemma CharLevelWordEmbeddingCnn_forward_out_of_range_witness :
  CharLevelWordEmbeddingCnn_forward 0%Z Z.add Z.mul Z.max Instances.char_cnn
    [[[0; 1; 2; 2]; [1; 1; (-1); 1]]]%Z None
  = Raise (RuntimeError "index out of range").
Proof.
  apply (CharLevelWordEmbeddingCnn_forward_out_of_range 0%Z Z.add Z.mul Z.max
           Instances.char_cnn [[[0; 1; 2; 2]; [1; 1; (-1); 1]]]%Z).
  apply Exists_cons_hd, Exists_cons_tl, Exists_cons_hd,
        Exists_cons_tl, Exists_cons_tl, Exists_cons_hd.
  unfold NN.valid_index. simpl. lia.
Defined.

Lemma CharLevelWordEmbeddingCnn_init_fresh_table_witness :
  exists self,
    CharLevelWordEmbeddingCnn_init 0%Z Instances.ones 2 3 3 [5] None Instances.relu
      None 1 false = Ok self
    /\ NN.requires_grad (embed_char self) = true
    /\ NN.num_embeddings (embed_char self) = 3
    /\ NN.embedding_dim (embed_char self) = 2
    /\ _embedding_size self = 2
    /\ has_shape 2 [3; 2] (NN.weight (embed_char self))
    /\ NN.lookup (embed_char self) (Z.of_nat 1) = Ok (repeat 0%Z 2)
    /\ forall requires_grad' : bool,
         CharLevelWordEmbeddingCnn_init 0%Z Instances.ones 2 3 3 [5] None
           Instances.relu None 1 requires_grad'
         = Ok self.
Proof.
  apply (CharLevelWordEmbeddingCnn_init_fresh_table 0%Z Instances.ones 2 3 3 [5] None
           Instances.relu 1 false).
  lia.
Defined.

Lemma CharLevelWordEmbeddingCnn_init_layers_witness :
  map (fun layer => NN.kernel_size (conv layer)) (cnn_layers Instances.char_cnn_2_5)
  = [2; 5]
  /\ Forall (fun layer =>
               dim (pool layer) = 2
               /\ NN.in_channels (conv layer) = _embedding_size Instances.char_cnn_2_5
               /\ NN.out_channels (conv layer) = 3
               /\ has_shape 3 [3; _embedding_size Instances.char_cnn_2_5;
                               NN.kernel_size (conv layer)]
                    (NN.conv_weight (conv layer))
               /\ length (NN.conv_bias (conv layer)) = 3)
            (cnn_layers Instances.char_cnn_2_5)
  /\ match output_layer Instances.char_cnn_2_5 with
     | Some layer =>
         None = Some (output_dim Instances.char_cnn_2_5)
         /\ 0 < output_dim Instances.char_cnn_2_5
         /\ NN.in_features layer = length [2; 5] * 3
         /\ NN.out_features layer = output_dim Instances.char_cnn_2_5
     | None =>
         (@None nat = None \/ None = Some 0)
         /\ output_dim Instances.char_cnn_2_5 = length [2; 5] * 3
     end.
Proof.
  apply (CharLevelWordEmbeddingCnn_init_layers 0%Z Instances.ones 7 9 3 [2; 5] None
           Instances.relu (Some Instances.char_table) 1 true Instances.char_cnn_2_5).
  reflexivity.
Defined.

Lemma CharLevelWordEmbeddingCnn_forward_no_filters_witness :
  exists e,
    CharLevelWordEmbeddingCnn_forward 0%Z Z.add Z.mul Z.max
      Instances.char_cnn_no_filter [[[0; 1; 2; 2]]]%Z None
    = Raise e.
Proof.
  apply (CharLevelWordEmbeddingCnn_forward_no_filters 0%Z Z.add Z.mul Z.max
           Instances.ones 7 9 3 None Instances.relu (Some Instances.char_table) 1 true
           Instances.char_cnn_no_filter [[[0; 1; 2; 2]]]%Z None).
  reflexivity.
Defined.

(** ** class WordEmbedding: the size of the output *)

Section WordEmbeddingShape.
Context {R : Type}.
Variable rzero : R.

Lemma Embedding_forward_shape (e : NN.Embedding R) (indices : list (list Z))
    (B T E : nat) :
  has_shape 2 [B; T] indices ->
  Forall (Forall (NN.valid_index (NN.weight e))) indices ->
  Forall (fun row => length row = E) (NN.weight e) ->
  exists out, NN.Embedding_forward e indices = Ok out /\ has_shape 3 [B; T; E] out.
Proof.
  intros Hshape Hvalid Hrows.
  rewrite (Embedding_forward_Ok e indices Hvalid). eexists. split; [reflexivity|].
  apply has_shape_2 in Hshape. destruct Hshape as [HB HT].
  apply has_shape_3. split; [rewrite length_map; exact HB|].
  apply Forall_map. rewrite Forall_forall in *. intros row Hrow.
  split; [rewrite length_map; apply HT, Hrow|].
  apply Forall_map. apply Forall_forall. intros i Hi.
  specialize (Hvalid row Hrow). rewrite Forall_forall in Hvalid.
  specialize (Hvalid i Hi). unfold NN.valid_index in Hvalid.
  apply Hrows, nth_In. lia.
Qed.

(** X11. For a table (V, E) and a padding index below V, the constructor
    returns a word embedding that announces [output_dim = E], and whose
    forward pass returns, for every tensor of indices (B, T) with indices
    inside the table, a tensor (B, T, E): one result per argument, in the
    order of the arguments. *)
Theorem WordEmbedding_forward_shape (rng : Initializer R)
    (word_embedding : list (list R)) (padding_idx : nat) (requires_grad : bool)
    (tensors : list (list (list Z))) (V E : nat) :
  padding_idx < V ->
  has_shape 2 [V; E] word_embedding ->
  Forall (Forall (Forall (NN.valid_index word_embedding))) tensors ->
  exists self,
    WordEmbedding_init rzero rng word_embedding padding_idx requires_grad = Ok self
    /\ word_output_dim self = E
    /\ exists outs,
         WordEmbedding_forward self tensors = Ok outs
         /\ length outs = length tensors
         /\ forall k tensor B T,
              nth_error tensors k = Some tensor ->
              has_shape 2 [B; T] tensor ->
              exists out, nth_error outs k = Some out
                          /\ has_shape 3 [B; T; word_output_dim self] out.
Proof.
  intros Hpad Hw Hvalid.
  assert (HV : 0 < V) by lia.
  assert (HE : length (hd [] word_embedding) = E) by (eapply hd_length; eassumption).
  assert (HlenV : length word_embedding = V) by (apply has_shape_2 in Hw; apply Hw).
  unfold WordEmbedding_init, size_2.
  rewrite (Embedding_init_Ok rzero (init_embedding rng) (length word_embedding)
             (length (hd [] word_embedding)) padding_idx) by lia.
  cbn [rbind]. eexists. split; [reflexivity|].
  cbn [word_output_dim NN.embedding_dim NN.num_embeddings NN.padding_idx].
  split; [exact HE|].
  unfold WordEmbedding_forward. cbn [word_embedding_word_level].
  set (table := {| NN.num_embeddings := _ |}).
  destruct (mapM_Forall (NN.Embedding_forward table) (fun _ => True) tensors)
    as (outs & Houts & Hlen & _).
  { intros t Ht. rewrite Forall_forall in Hvalid.
    rewrite (Embedding_forward_Ok table t (Hvalid t Ht)). eexists. split; auto. }
  exists outs. split; [exact Houts|]. split; [exact Hlen|].
  intros k t B T Hk Hshape.
  destruct (mapM_Ok_nth_error _ _ _ Houts k t Hk) as (out & Hout & Hf).
  exists out. split; [exact Hout|].
  destruct (Embedding_forward_shape table t B T E Hshape) as (out' & Hf' & Hs).
  - rewrite Forall_forall in Hvalid. apply Hvalid. eapply nth_error_In, Hk.
  - apply has_shape_2 in Hw. apply Hw.
  - rewrite Hf in Hf'. injection Hf' as <-. rewrite HE. exact Hs.
Qed.

End WordEmbeddingShape.

Lemma WordEmbedding_forward_shape_witness :
  exists self,
    WordEmbedding_init 0%Z Instances.ones Instances.char_table 1 false = Ok self
    /\ word_output_dim self = 2
    /\ exists outs,
         WordEmbedding_forward self [[[0; 1]; [2; 2]]; [[1; 1; 1]]]%Z = Ok outs
         /\ length outs = length [[[0; 1]; [2; 2]]; [[1; 1; 1]]]%Z
         /\ forall k tensor B T,
              nth_error [[[0; 1]; [2; 2]]; [[1; 1; 1]]]%Z k = Some tensor ->
              has_shape 2 [B; T] tensor ->
              exists out, nth_error outs k = Some out
                          /\ has_shape 3 [B; T; word_output_dim self] out.
Proof.
  apply (WordEmbedding_forward_shape 0%Z Instances.ones Instances.char_table 1 false
           [[[0; 1]; [2; 2]]; [[1; 1; 1]]]%Z 3 2).
  - lia.
  - simpl. repeat (first [split | constructor]).
  - repeat (first [apply Forall_nil | apply Forall_cons]);
      unfold NN.valid_index; simpl; lia.
Defined.

(** ** class RNet: the calls of one forward pass *)

Section RNetCalls.
Context {F S : Type}.
Variable fadd : F -> F -> F.
Variable zeros_like : F -> F.
Variable self : RNet F S.
Variables (question passage : Documents).
Variables (qtokens ptokens : list (list Z)) (qlens plens : list nat).
Variables (embedded_question embedded_passage : list (list F)).
Variables (B Tq Tp : nat).
Hypothesis HB : 0 < B.
Hypothesis Hquestion : batch_of B Tq qtokens qlens question.
Hypothesis Hpassage : batch_of B Tp ptokens plens passage.
Hypothesis Heq : has_shape 2 [B; Tq] embedded_question.
Hypothesis Hep : has_shape 2 [B; Tp] embedded_passage.
Hypothesis Hencoders : encoders_keep_lengths self.

(** The packed sequences and padded tensors of one forward pass: all are
    well formed and have the lengths of the passages. *)
Lemma RNet_forward_packs :
  exists passage_pack q_pad q_mask pe_out paired p_mask paired_pad sm_out
         self_matched p_pad value,
    RNet_forward fadd zeros_like self question passage
      embedded_question embedded_passage
    = ([PairEncoder_call q_pad q_mask passage_pack]
         ++ (if residual self then [pack_residual_call pe_out passage_pack] else [])
         ++ [SelfMatchingEncoder_call paired_pad p_mask paired]
         ++ (if residual self then [pack_residual_call paired sm_out] else [])
         ++ [PointerNetwork_call q_pad q_mask p_pad p_mask],
       Ok value)
    /\ pe_out = fst (PairEncoder_forward (rnet_pair_encoder self) q_pad q_mask
                       passage_pack)
    /\ (if residual self then pack_residual fadd zeros_like pe_out passage_pack
        else Ok pe_out) = Ok paired
    /\ sm_out = fst (SelfMatchingEncoder_forward (self_matching_encoder self)
                       paired_pad p_mask paired)
    /\ (if residual self then pack_residual fadd zeros_like paired sm_out
        else Ok sm_out) = Ok self_matched
    /\ pad_packed_sequence zeros_like paired = Ok (paired_pad, lengths passage)
    /\ pad_packed_sequence zeros_like self_matched = Ok (p_pad, lengths passage)
    /\ Forall (fun p => well_packed p = true
                        /\ conjugate (batch_sizes p) = lengths passage)
              [passage_pack; pe_out; paired; sm_out; self_matched]
    /\ has_shape 2 [Tq; B] q_pad /\ has_shape 2 [Tq; B] q_mask
    /\ has_shape 2 [Tp; B] paired_pad /\ has_shape 2 [Tp; B] p_pad
    /\ has_shape 2 [Tp; B] p_mask
    /\ p_mask = transpose (map (fun i => nth i (mask_original passage) [])
                             (sorted_idx passage))
    /\ exists question_pack q_sorted,
         well_packed question_pack = true
         /\ batch_sizes question_pack = conjugate (lengths question)
         /\ pad_packed_sequence zeros_like question_pack
            = Ok (q_sorted, conjugate (batch_sizes question_pack))
         /\ forall t j, t < Tq -> j < B ->
              nth_error (nth t q_pad []) j
              = nth_error (nth t q_sorted [])
                  (nth (nth j (sorted_idx passage) 0) (original_idx question) 0)
              /\ nth_error (nth t q_mask []) j
                 = nth_error (nth (nth j (sorted_idx passage) 0)
                                (mask_original question) []) t.
Proof.
  destruct (RNet_forward_run fadd zeros_like self question passage qtokens ptokens
              qlens plens embedded_question embedded_passage B Tq Tp
              HB Hquestion Hpassage Heq Hep Hencoders)
    as (passage_pack & question_pack & q_pad & q_mask & pe_out & paired & p_mask
        & paired_pad & sm_out & self_matched & p_pad & begin & end_ & bo & eo
        & Hsent & Hrec & Hpe & Hr1 & (sorted_mask & Hmask & Hpm) & (l1 & Hppad)
        & Hsm & Hr2 & (l2 & Hpadded) & _ & _ & _ & _ & _ & _ & _ & Hrun).
  destruct (_sentence_encoding_spec self question passage qtokens ptokens qlens plens
              embedded_question embedded_passage B Tq Tp
              HB Hquestion Hpassage Heq Hep Hencoders)
    as (pp' & qp' & Hsent' & Hpwp & Hpbs & Hqwp & Hqbs).
  rewrite Hsent in Hsent'. injection Hsent' as <- <-.
  destruct (question_in_passage_sorted_order_spec zeros_like question passage
              qtokens ptokens qlens plens B Tq Tp HB Hquestion Hpassage
              question_pack Hqwp Hqbs)
    as (q_sorted & q_pad' & qm_sorted & Hqsorted & _ & _ & _ & Hrec' & Hqpad & Hqmask
        & Hentries).
  rewrite Hrec in Hrec'. injection Hrec' as <- Hqm.
  rewrite <- Hqm in Hqmask, Hentries.
  destruct (batch_of_lengths B HB passage ptokens plens Tp Hpassage)
    as (Hsorted & _ & Hbound & _ & HcT & HcB).
  assert (Hinv : conjugate (conjugate (lengths passage)) = lengths passage).
  { apply conjugate_involutive; [exact Hsorted|].
    eapply Forall_impl; [|exact Hbound]. intros l [Hl _]. exact Hl. }
  destruct (batch_of_permutation B passage ptokens plens Tp Hpassage)
    as (_ & Hpsl & _ & Hps & _ & _ & Hpmo).
  destruct Hencoders as (_ & _ & Hpair & Hself).
  destruct (Hpair q_pad q_mask passage_pack Hpwp) as [Hpe1 Hpe2].
  rewrite <- Hpe in Hpe1, Hpe2.
  assert (Hpaired : well_packed paired = true
                    /\ batch_sizes paired = conjugate (lengths passage)).
  { destruct (residual self).
    - destruct (pack_residual_Ok fadd zeros_like pe_out passage_pack Hpe1 Hpwp Hpe2)
        as (r & Hr & Hrwp & Hrbs & _).
      rewrite Hr1 in Hr. injection Hr as <-. split; congruence.
    - injection Hr1 as <-. split; congruence. }
  destruct Hpaired as [Hpawp Hpabs].
  destruct (Hself paired_pad p_mask paired Hpawp) as [Hsm1 Hsm2].
  rewrite <- Hsm in Hsm1, Hsm2.
  assert (Hmatched : well_packed self_matched = true
                     /\ batch_sizes self_matched = conjugate (lengths passage)).
  { destruct (residual self).
    - destruct (pack_residual_Ok fadd zeros_like paired sm_out Hpawp Hsm1
                  (eq_sym Hsm2)) as (r & Hr & Hrwp & Hrbs & _).
      rewrite Hr2 in Hr. injection Hr as <-. split; congruence.
    - injection Hr2 as <-. split; congruence. }
  destruct Hmatched as [Hsmwp Hsmbs].
  destruct (pad_packed_sequence_shape zeros_like paired Hpawp)
    as (pad1 & Hpad1 & Hshape1).
  rewrite Hppad in Hpad1. injection Hpad1 as <- ->.
  destruct (pad_packed_sequence_shape zeros_like self_matched Hsmwp)
    as (pad2 & Hpad2 & Hshape2).
  rewrite Hpadded in Hpad2. injection Hpad2 as <- ->.
  rewrite Hpabs, HcT, HcB in Hshape1. rewrite Hsmbs, HcT, HcB in Hshape2.
  rewrite Hpabs, Hinv in Hppad. rewrite Hsmbs, Hinv in Hpadded.
  destruct (index_select_rows (mask_original passage) (sorted_idx passage) B Tp
              Hpmo Hps) as [Hmask' Hmask_shape].
  unfold to_sorted_order in Hmask. rewrite Hmask in Hmask'.
  injection Hmask' as ->. rewrite Hpsl in Hmask_shape.
  assert (Hpmask : has_shape 2 [Tp; B] p_mask).
  { rewrite Hpm. apply has_shape_2 in Hmask_shape.
    destruct Hmask_shape as [Hm1 Hm2].
    apply has_shape_2. apply (transpose_shape _ B Tp HB Hm1 Hm2). }
  exists passage_pack, q_pad, q_mask, pe_out, paired, p_mask, paired_pad, sm_out,
    self_matched, p_pad, (bo, eo).
  split; [exact Hrun|]. split; [exact Hpe|]. split; [exact Hr1|].
  split; [exact Hsm|]. split; [exact Hr2|]. split; [exact Hppad|].
  split; [exact Hpadded|].
  split.
  { repeat (first [apply Forall_nil | apply Forall_cons]); split;
      try assumption; congruence. }
  do 4 (split; [assumption|]). split; [exact Hpmask|]. split; [exact Hpm|].
  exists question_pack, q_sorted.
  split; [exact Hqwp|]. split; [exact Hqbs|]. split; [exact Hqsorted|exact Hentries].
Qed.

(** X12. With the residual toggle off, one forward pass never calls
    [pack_residual].  After the two sentence encoders, which the trace
    does not record, it calls the pair encoder, then the self-matching
    encoder on the output of the pair encoder, unchanged, and on its
    padded form as keys, then the pointer network on the padded output of
    the self-matching encoder, each of them once. *)
Theorem RNet_forward_without_residual :
  residual self = false ->
  exists question_pad question_mask passage_pack pair_output paired_pad passage_mask
         self_output passage_pad value,
    RNet_forward fadd zeros_like self question passage
      embedded_question embedded_passage
    = ([PairEncoder_call question_pad question_mask passage_pack;
        SelfMatchingEncoder_call paired_pad passage_mask pair_output;
        PointerNetwork_call question_pad question_mask passage_pad passage_mask],
       Ok value)
    /\ pair_output = fst (PairEncoder_forward (rnet_pair_encoder self) question_pad
                            question_mask passage_pack)
    /\ pad_packed_sequence zeros_like pair_output = Ok (paired_pad, lengths passage)
    /\ self_output = fst (SelfMatchingEncoder_forward (self_matching_encoder self)
                            paired_pad passage_mask pair_output)
    /\ pad_packed_sequence zeros_like self_output = Ok (passage_pad, lengths passage).
Proof.
  intros Hres.
  destruct RNet_forward_packs
    as (passage_pack & q_pad & q_mask & pe_out & paired & p_mask & paired_pad
        & sm_out & self_matched & p_pad & value
        & Hrun & Hpe & Hr1 & Hsm & Hr2 & Hppad & Hpadded & _).
  rewrite Hres in Hrun, Hr1, Hr2.
  injection Hr1 as <-. injection Hr2 as <-.
  exists q_pad, q_mask, passage_pack, pe_out, paired_pad, p_mask, sm_out, p_pad, value.
  split; [exact Hrun|]. split; [exact Hpe|]. split; [exact Hppad|].
  split; [exact Hsm|exact Hpadded].
Qed.

(** X13. Every call of one forward pass fits the batch: the padded
    question, the padded passage and their masks reach the components time
    first and with the shape of their mask, and every packed sequence that
    is handed on is well packed and has the lengths of the passages, so
    that no call to [pack_residual] raises. *)
Theorem RNet_forward_calls_fit :
  exists calls value,
    RNet_forward fadd zeros_like self question passage
      embedded_question embedded_passage = (calls, Ok value)
    /\ Forall (call_fits B Tq Tp (lengths passage)) calls.
Proof.
  destruct RNet_forward_packs
    as (passage_pack & q_pad & q_mask & pe_out & paired & p_mask & paired_pad
        & sm_out & self_matched & p_pad & value
        & Hrun & _ & _ & _ & _ & _ & _ & Hpacks & Hq & Hqm & Hpp & Hp & Hpm & _).
  rewrite Hrun. eexists. eexists. split; [reflexivity|].
  inversion Hpacks as [|? ? [H1 H1'] Hpacks1]; subst.
  inversion Hpacks1 as [|? ? [H2 H2'] Hpacks2]; subst.
  inversion Hpacks2 as [|? ? [H3 H3'] Hpacks3]; subst.
  inversion Hpacks3 as [|? ? [H4 H4'] Hpacks4]; subst.
  inversion Hpacks4 as [|? ? [H5 H5'] _]; subst.
  destruct (residual self); cbn [app];
    repeat (first [apply Forall_nil | apply Forall_cons]);
    cbn [call_fits]; repeat (split; [assumption|]); assumption.
Qed.

End RNetCalls.

Lemma RNet_forward_without_residual_witness :
  exists question_pad question_mask passage_pack pair_output paired_pad passage_mask
         self_output passage_pad value,
    RNet_forward Z.add (fun _ => 0%Z) (Instances.net false) Instances.question
      Instances.passage Instances.embedded_question Instances.embedded_passage
    = ([PairEncoder_call question_pad question_mask passage_pack;
        SelfMatchingEncoder_call paired_pad passage_mask pair_output;
        PointerNetwork_call question_pad question_mask passage_pad passage_mask],
       Ok value)
    /\ pair_output = fst (PairEncoder_forward (rnet_pair_encoder (Instances.net false))
                            question_pad question_mask passage_pack)
    /\ pad_packed_sequence (fun _ => 0%Z) pair_output
       = Ok (paired_pad, lengths Instances.passage)
    /\ self_output
       = fst (SelfMatchingEncoder_forward (self_matching_encoder (Instances.net false))
                paired_pad passage_mask pair_output)
    /\ pad_packed_sequence (fun _ => 0%Z) self_output
       = Ok (passage_pad, lengths Instances.passage).
Proof.
  apply (RNet_forward_without_residual Z.add (fun _ => 0%Z) (Instances.net false)
           Instances.question Instances.passage
           Instances.question_tokens Instances.passage_tokens
           Instances.question_lengths Instances.passage_lengths
           Instances.embedded_question Instances.embedded_passage 2 3 3).
  - lia.
  - exact batch_of_question.
  - exact batch_of_passage.
  - exact embedded_question_shape.
  - exact embedded_passage_shape.
  - exact (net_keeps_lengths false).
  - reflexivity.
Defined.

Lemma RNet_forward_calls_fit_witness :
  exists calls value,
    RNet_forward Z.add (fun _ => 0%Z) (Instances.net true) Instances.question
      Instances.passage Instances.embedded_question Instances.embedded_passage
    = (calls, Ok value)
    /\ Forall (call_fits 2 3 3 (lengths Instances.passage)) calls.
Proof.
  apply (RNet_forward_calls_fit Z.add (fun _ => 0%Z) (Instances.net true)
           Instances.question Instances.passage
           Instances.question_tokens Instances.passage_tokens
           Instances.question_lengths Instances.passage_lengths
           Instances.embedded_question Instances.embedded_passage 2 3 3).
  - lia.
  - exact batch_of_question.
  - exact batch_of_passage.
  - exact embedded_question_shape.
  - exact embedded_passage_shape.
  - exact (net_keeps_lengths true).
Defined.

(** ** class RNet: the errors of one forward pass *)



Section RNetErrors.
Context {F S : Type}.
Variable fadd : F -> F -> F.
Variable zeros_like : F -> F.
Variable self : RNet F S.
Variables (question passage : Documents).
Variables (embedded_question embedded_passage : list (list F)).


Variables (qtokens ptokens : list (list Z)) (qlens plens : list nat).
Variables (B Tq Tp : nat).
Hypothesis HB : 0 < B.
Hypothesis Hquestion : batch_of B Tq qtokens qlens question.
Hypothesis Hpassage : batch_of B Tp ptokens plens passage.
Hypothesis Heq : has_shape 2 [B; Tq] embedded_question.
Hypothesis Hep : has_shape 2 [B; Tp] embedded_passage.
Hypothesis Hquestion_encoder :
  keeps_lengths
    (fun p => fst (RNN_forward (question_encoder (sentence_encoding self)) p)).
Hypothesis Hpassage_encoder :
  keeps_lengths
    (fun p => fst (RNN_forward (passage_encoder (sentence_encoding self)) p)).

(** The stages before the pair encoder need the two sentence encoders
    only. *)
Lemma sentence_encoding_run :
  exists passage_pack question_pack q_pad q_mask,
    _sentence_encoding self embedded_passage embedded_question passage question
    = Ok (passage_pack, question_pack)
    /\ well_packed passage_pack = true
    /\ batch_sizes passage_pack = conjugate (lengths passage)
    /\ question_in_passage_sorted_order zeros_like question passage question_pack
       = Ok (q_pad, q_mask).
Proof.
  set (identity := {| AttentionEncoder_forward :=
                        fun '(p, _, _) => (p, @nil (list F)) |}).
  set (self' := {| sentence_encoding := sentence_encoding self;
                   rnet_pair_encoder := {| pair_encoder := identity |};
                   self_matching_encoder := {| self_pair_encoder := identity |};
                   pointer_output := pointer_output self;
                   residual := residual self |}).
  assert (Hencoders : encoders_keep_lengths self').
  { split; [exact Hquestion_encoder|]. split; [exact Hpassage_encoder|].
    split; intros questions question_mark p Hp; split; (exact Hp || reflexivity). }
  destruct (_sentence_encoding_spec self' question passage qtokens ptokens qlens plens
              embedded_question embedded_passage B Tq Tp
              HB Hquestion Hpassage Heq Hep Hencoders)
    as (passage_pack & question_pack & Hsent & Hpwp & Hpbs & Hqwp & Hqbs).
  destruct (question_in_passage_sorted_order_spec zeros_like question passage
              qtokens ptokens qlens plens B Tq Tp HB Hquestion Hpassage
              question_pack Hqwp Hqbs)
    as (q_sorted & q_pad & qm_sorted & _ & _ & _ & _ & Hrec & _).
  exists passage_pack, question_pack, q_pad, (transpose qm_sorted).
  split; [exact Hsent|]. split; [exact Hpwp|]. split; [exact Hpbs|exact Hrec].
Qed.

(** X15. With the residual toggle on, a pair encoder that does not keep
    the lengths of the passages stops the forward pass in the first
    [pack_residual]: the pass raises "different lengths" after the call to
    the pair encoder, and neither the self-matching encoder nor the pointer
    network is called. *)
Theorem RNet_forward_residual_mismatch :
  residual self = true ->
  (forall questions question_mark p,
      well_packed p = true ->
      well_packed (fst (PairEncoder_forward (rnet_pair_encoder self)
                          questions question_mark p)) = true
      /\ batch_sizes (fst (PairEncoder_forward (rnet_pair_encoder self)
                             questions question_mark p))
         <> batch_sizes p) ->
  exists question_pad question_mask passage_pack,
    RNet_forward fadd zeros_like self question passage
      embedded_question embedded_passage
    = ([PairEncoder_call question_pad question_mask passage_pack;
        pack_residual_call
          (fst (PairEncoder_forward (rnet_pair_encoder self) question_pad
                  question_mask passage_pack))
          passage_pack],
       Raise (ValueError "different lengths")).
Proof.
  intros Hres Hpair.
  destruct sentence_encoding_run
    as (passage_pack & question_pack & q_pad & q_mask & Hsent & Hpwp & _ & Hrec).
  exists q_pad, q_mask, passage_pack.
  destruct (Hpair q_pad q_mask passage_pack Hpwp) as [Hwp Hne].
  unfold RNet_forward. rewrite Hsent, bind_lift_Ok. cbv beta iota.
  rewrite Hrec, bind_lift_Ok. cbv beta iota.
  rewrite _pair_encode_run, bind_Ok, Hres, residual_sum_run.
  rewrite (pack_residual_mismatch_raises fadd zeros_like _ _ Hwp Hpwp Hne).
  reflexivity.
Qed.

End RNetErrors.


Lemma sorted_decreasing_app_one (l : list nat) :
  sorted_decreasing l = true -> Forall (fun x => 1 <= x) l ->
  sorted_decreasing (l ++ [1]) = true.
Proof.
  induction l as [|a l IH]; intros Hs Hpos; [reflexivity|].
  apply sorted_decreasing_cons_iff in Hs. destruct Hs as [Hhd Hs].
  inversion Hpos as [|? ? Ha Hl]; subst.
  cbn [app]. apply sorted_decreasing_cons_iff. split; [|apply IH; assumption].
  destruct l as [|b l]; [exact Ha|exact Hhd].
Qed.

Lemma stretching_changes_lengths (p : PackedSequence Z) :
  well_packed p = true ->
  well_packed (Instances.stretching p) = true
  /\ batch_sizes (Instances.stretching p) <> batch_sizes p.
Proof.
  intros Hp.
  destruct (well_packed_inv p Hp) as (b & bs & Hbs & Hs & Hpos & _ & Hlen).
  split.
  - unfold well_packed, Instances.stretching. cbn [batch_sizes data].
    rewrite Hbs in *. cbn [app].
    change (b :: bs ++ [1]) with ((b :: bs) ++ [1]).
    rewrite (sorted_decreasing_app_one (b :: bs) Hs Hpos), last_last.
    rewrite length_app, list_sum_app, Hlen. cbn [length list_sum Nat.leb andb].
    rewrite Nat.eqb_refl. reflexivity.
  - unfold Instances.stretching. cbn [batch_sizes]. intros E.
    apply (f_equal (@length nat)) in E. rewrite length_app in E. simpl in E. lia.
Qed.

Lemma RNet_forward_residual_mismatch_witness :
  exists question_pad question_mask passage_pack,
    RNet_forward Z.add (fun _ => 0%Z) Instances.stretching_net Instances.question
      Instances.passage Instances.embedded_question Instances.embedded_passage
    = ([PairEncoder_call question_pad question_mask passage_pack;
        pack_residual_call
          (fst (PairEncoder_forward (rnet_pair_encoder Instances.stretching_net)
                  question_pad question_mask passage_pack))
          passage_pack],
       Raise (ValueError "different lengths")).
Proof.
  apply (RNet_forward_residual_mismatch Z.add (fun _ => 0%Z) Instances.stretching_net
           Instances.question Instances.passage
           Instances.embedded_question Instances.embedded_passage
           Instances.question_tokens Instances.passage_tokens
           Instances.question_lengths Instances.passage_lengths 2 3 3).
  - lia.
  - exact batch_of_question.
  - exact batch_of_passage.
  - exact embedded_question_shape.
  - exact embedded_passage_shape.
  - intros p Hp. split; [exact Hp|reflexivity].
  - intros p Hp. split; [exact Hp|reflexivity].
  - reflexivity.
  - intros questions question_mark p Hp. apply stretching_changes_lengths, Hp.
Defined.

(** ** class Model: one forward pass, end to end *)



Lemma has_shape_3_2 {A : Type} (t : list (list (list A))) (B T E : nat) :
  has_shape 3 [B; T; E] t -> has_shape (A := list A) 2 [B; T] t.
Proof.
  intros H. apply has_shape_3 in H. destruct H as [HB Hrows].
  apply has_shape_2. split; [exact HB|].
  eapply Forall_impl; [|exact Hrows]. intros x [Hx _]. exact Hx.
Qed.


Section CatDim2.
Context {R : Type}.


End CatDim2.

Section ModelForward.
Context {R S : Type}.
Variable rzero : R.
Variables radd rmul rmax : R -> R -> R.




End ModelForward.




(** ** class CharLevelWordEmbeddingCnn: every word on its own *)

Lemma rowwise_mapM {A B : Type} (f : A -> result B) : rowwise (mapM f).
Proof.
  intros rows out H. split; [eapply mapM_Ok_length, H|].
  intros k x Hx. destruct (mapM_Ok_nth_error f rows out H k x Hx) as (y & Hy & Hf).
  exists y. split; [exact Hy|]. simpl. rewrite Hf. reflexivity.
Qed.

Lemma rowwise_map {A B : Type} (f : A -> B) : rowwise (fun rows => Ok (map f rows)).
Proof.
  intros rows out H. injection H as <-. split; [apply length_map|].
  intros k x Hx. exists (f x). split; [|reflexivity].
  rewrite nth_error_map, Hx. reflexivity.
Qed.

Lemma rowwise_bind {A B C : Type} (P : list A -> result (list B))
    (Q : list B -> result (list C)) :
  rowwise P -> rowwise Q -> rowwise (fun rows => rbind (P rows) Q).
Proof.
  intros HP HQ rows out H. cbv beta in H.
  destruct (P rows) as [mid|e] eqn:Hmid; [|discriminate]. cbn [rbind] in H.
  destruct (HP rows mid Hmid) as [Hlen Hrow].
  destruct (HQ mid out H) as [Hlen' Hrow'].
  split; [lia|]. intros k x Hx.
  destruct (Hrow k x Hx) as (m & Hm & HPx).
  destruct (Hrow' k m Hm) as (y & Hy & HQm).
  exists y. split; [exact Hy|]. cbv beta. rewrite HPx. exact HQm.
Qed.

Lemma rowwise_after_map {A B C : Type} (f : A -> B) (Q : list B -> result (list C)) :
  rowwise Q -> rowwise (fun rows => Q (map f rows)).
Proof.
  intros HQ rows out H. destruct (HQ _ out H) as [Hlen Hrow].
  split; [rewrite Hlen; apply length_map|].
  intros k x Hx. apply (Hrow k (f x)). rewrite nth_error_map, Hx. reflexivity.
Qed.

Lemma mapM_Ok_transfer {A B C : Type} (f : A -> result B) (g : A -> result C)
    (h : B -> C) (l : list A) (r : list B) :
  mapM f l = Ok r ->
  (forall x y, In x l -> f x = Ok y -> g x = Ok (h y)) ->
  mapM g l = Ok (map h r).
Proof.
  revert r. induction l as [|a l IH]; intros r H Hg; simpl in *.
  - injection H as <-. reflexivity.
  - destruct (f a) as [y|] eqn:Hy; [|discriminate]. cbn [rbind] in H.
    destruct (mapM f l) as [ys|] eqn:Hys; [|discriminate]. cbn [rbind] in H.
    injection H as <-.
    rewrite (Hg a y (or_introl eq_refl) Hy). cbn [rbind].
    rewrite (IH ys eq_refl); [reflexivity|].
    intros x z Hx. apply Hg. right. exact Hx.
Qed.

Section CatRows.
Context {R : Type}.

Lemma cat_fold_rows (n : nat) (rest : list (list (list R))) :
  forall acc : list (list R),
    length acc = n ->
    Forall (fun t => length t = n) rest ->
    fold_left (fun acc t' => map (fun '(a, b) => a ++ b) (combine acc t')) rest acc
    = map (fun k => nth k acc [] ++ concat (map (fun c => nth k c []) rest))
          (seq 0 n).
Proof.
  induction rest as [|t rest IH]; intros acc Hacc Hall; cbn [fold_left map concat].
  - rewrite <- Hacc. rewrite <- (map_nth_seq acc []) at 1.
    apply map_ext. intros k. rewrite app_nil_r. reflexivity.
  - inversion Hall as [|? ? Ht Hrest]; subst.
    rewrite IH; [|rewrite length_map, length_combine; lia|exact Hrest].
    apply map_ext_in. intros k Hk. apply in_seq in Hk.
    rewrite (nth_map_combine _ acc t k [] [] []) by lia.
    rewrite app_assoc. reflexivity.
Qed.

(** The rows of [torch.cat(tensors, dim=1)]: row [k] is the concatenation
    of the rows [k] of the tensors. *)
Lemma cat_dim1_rows (tensors : list (list (list R))) (n : nat) :
  tensors <> [] ->
  Forall (fun t => length t = n) tensors ->
  NN.cat_dim1 tensors
  = map (fun k => concat (map (fun c => nth k c []) tensors)) (seq 0 n).
Proof.
  destruct tensors as [|t rest]; [congruence|]. intros _ Hall.
  inversion Hall as [|? ? Ht Hrest]; subst.
  unfold NN.cat_dim1. rewrite (cat_fold_rows (length t) rest t eq_refl Hrest).
  reflexivity.
Qed.

End CatRows.

Section CharCnnRowwise.
Context {R : Type}.
Variable rzero : R.
Variables radd rmul rmax : R -> R -> R.

Lemma rowwise_CnnLayer_forward (layer : CnnLayer R) :
  dim (pool layer) = 2 ->
  rowwise (CnnLayer_forward rzero radd rmul rmax layer).
Proof.
  intros Hdim. unfold CnnLayer_forward, NN.Conv1d_forward, Max_forward.
  rewrite Hdim.
  apply (rowwise_bind (mapM (NN.Conv1d_sample rzero radd rmul (conv layer)))
           (fun convolved =>
              mapM (mapM (max_entries rmax)) (map (map (map (act layer))) convolved))).
  - apply rowwise_mapM.
  - apply (rowwise_after_map (map (map (act layer)))
             (mapM (mapM (max_entries rmax)))), rowwise_mapM.
Qed.

(** The number of values a layer returns for a word: one per filter. *)
Lemma CnnLayer_forward_width (layer : CnnLayer R) (rows : list (list (list R)))
    (out : list (list R)) :
  dim (pool layer) = 2 ->
  CnnLayer_forward rzero radd rmul rmax layer rows = Ok out ->
  Forall (fun r => length r
                   = length (combine (NN.conv_weight (conv layer))
                                     (NN.conv_bias (conv layer)))) out.
Proof.
  intros Hdim H. unfold CnnLayer_forward, NN.Conv1d_forward, Max_forward in H.
  rewrite Hdim in H.
  destruct (mapM (NN.Conv1d_sample rzero radd rmul (conv layer)) rows)
    as [convolved|] eqn:Hconv; [|discriminate].
  cbn [rbind] in H.
  assert (Hw : Forall (fun y => length y
                                = length (combine (NN.conv_weight (conv layer))
                                                  (NN.conv_bias (conv layer))))
                 convolved).
  { apply (mapM_Ok_Forall _ _ _ _ Hconv). intros x y _ Hy.
    unfold NN.Conv1d_sample in Hy.
    destruct (Nat.eqb _ 0); [discriminate|].
    destruct (negb _); [discriminate|].
    destruct (Nat.ltb _ _); [discriminate|].
    injection Hy as <-. apply length_map. }
  apply (mapM_Ok_Forall _ _ _ _ H). intros x y Hx Hy.
  apply in_map_iff in Hx. destruct Hx as (c & <- & Hc).
  rewrite (mapM_Ok_length _ _ _ Hy), length_map.
  rewrite Forall_forall in Hw. apply Hw, Hc.
Qed.

Lemma rowwise_convolved_characters (self : CharLevelWordEmbeddingCnn R) :
  Forall (fun layer => dim (pool layer) = 2) (cnn_layers self) ->
  rowwise (convolved_characters rzero radd rmul rmax self).
Proof.
  intros Hdim rows out H. unfold convolved_characters in H |- *.
  destruct (mapM (fun layer => CnnLayer_forward rzero radd rmul rmax layer rows)
              (cnn_layers self)) as [conv_out|] eqn:Hconv; [|discriminate].
  cbn [rbind] in H.
  assert (Hlen : Forall (fun c => length c = length rows) conv_out).
  { apply (mapM_Ok_Forall _ _ _ _ Hconv). intros layer c Hlayer Hc.
    rewrite Forall_forall in Hdim.
    apply (rowwise_CnnLayer_forward layer (Hdim layer Hlayer) rows c Hc). }
  assert (Hword : forall k x, nth_error rows k = Some x ->
            mapM (fun layer => CnnLayer_forward rzero radd rmul rmax layer [x])
                 (cnn_layers self)
            = Ok (map (fun c => [nth k c []]) conv_out)).
  { intros k x Hx. apply (mapM_Ok_transfer _ _ _ _ _ Hconv).
    intros layer c Hlayer Hc. rewrite Forall_forall in Hdim.
    destruct (rowwise_CnnLayer_forward layer (Hdim layer Hlayer) rows c Hc)
      as [_ Hrow].
    destruct (Hrow k x Hx) as (y & Hy & Hone).
    rewrite Hone, (nth_error_nth _ _ [] Hy). reflexivity. }
  destruct (Nat.ltb_spec 1 (length conv_out)) as [Hmany|Hfew].
  - injection H as <-.
    assert (Hne : conv_out <> []) by (intros ->; simpl in Hmany; lia).
    rewrite (cat_dim1_rows conv_out (length rows) Hne Hlen).
    split; [rewrite length_map, length_seq; reflexivity|].
    intros k x Hx.
    assert (Hk : k < length rows) by (apply nth_error_Some; congruence).
    eexists. split.
    + rewrite nth_error_map, nth_error_seq.
      destruct (Nat.ltb_spec k (length rows)) as [_|E]; [|lia]. reflexivity.
    + rewrite (Hword k x Hx). cbn [rbind]. rewrite length_map.
      destruct (Nat.ltb_spec 1 (length conv_out)) as [_|E]; [|lia].
      rewrite (cat_dim1_rows _ 1).
      * cbn [seq map Nat.add]. rewrite map_map. reflexivity.
      * destruct conv_out; [congruence|discriminate].
      * apply Forall_map, Forall_forall. reflexivity.
  - destruct conv_out as [|c [|c' rest]]; [discriminate| |simpl in Hfew; lia].
    cbn in H. injection H as <-.
    inversion Hlen as [|? ? Hc _]; subst.
    split; [exact Hc|]. intros k x Hx.
    assert (Hk : k < length c).
    { rewrite Hc. apply nth_error_Some. congruence. }
    exists (nth k c []). split; [apply nth_error_nth', Hk|].
    rewrite (Hword k x Hx). reflexivity.
Qed.

Lemma convolved_characters_width (self : CharLevelWordEmbeddingCnn R)
    (rows : list (list (list R))) (out : list (list R)) :
  Forall (fun layer => dim (pool layer) = 2) (cnn_layers self) ->
  convolved_characters rzero radd rmul rmax self rows = Ok out ->
  exists D, Forall (fun r => length r = D) out.
Proof.
  intros Hdim H. unfold convolved_characters in H.
  destruct (mapM (fun layer => CnnLayer_forward rzero radd rmul rmax layer rows)
              (cnn_layers self)) as [conv_out|] eqn:Hconv; [|discriminate].
  cbn [rbind] in H.
  assert (Hwidth : Forall (fun c => exists w, Forall (fun r => length r = w) c)
                     conv_out).
  { apply (mapM_Ok_Forall _ _ _ _ Hconv). intros layer c Hlayer Hc.
    rewrite Forall_forall in Hdim. eexists.
    apply (CnnLayer_forward_width layer rows c (Hdim layer Hlayer) Hc). }
  assert (Hlen : Forall (fun c => length c = length rows) conv_out).
  { apply (mapM_Ok_Forall _ _ _ _ Hconv). intros layer c Hlayer Hc.
    rewrite Forall_forall in Hdim.
    apply (rowwise_CnnLayer_forward layer (Hdim layer Hlayer) rows c Hc). }
  destruct (Nat.ltb_spec 1 (length conv_out)) as [Hmany|Hfew].
  - injection H as <-.
    assert (Hne : conv_out <> []) by (intros ->; simpl in Hmany; lia).
    rewrite (cat_dim1_rows conv_out (length rows) Hne Hlen).
    exists (list_sum (map (fun c => length (nth 0 c [])) conv_out)).
    apply Forall_map, Forall_forall. intros k Hk. apply in_seq in Hk.
    clear Hconv Hmany Hne.
    induction conv_out as [|c conv_out IH]; [reflexivity|].
    inversion Hwidth as [|? ? [w Hw] Hwidth']; subst.
    inversion Hlen as [|? ? Hc Hlen']; subst.
    cbn [map concat list_sum]. rewrite length_app, (IH Hwidth' Hlen').
    f_equal. rewrite Forall_forall in Hw.
    rewrite (Hw (nth k c [])), (Hw (nth 0 c [])); [reflexivity| |];
      apply nth_In; lia.
  - destruct conv_out as [|c [|c' rest]]; [discriminate| |simpl in Hfew; lia].
    cbn in H. injection H as <-.
    inversion Hwidth as [|? ? Hw _]; subst. exact Hw.
Qed.

Lemma rowwise_word_vectors (self : CharLevelWordEmbeddingCnn R) :
  Forall (fun layer => dim (pool layer) = 2) (cnn_layers self) ->
  rowwise (word_vectors rzero radd rmul rmax self).
Proof.
  intros Hdim. unfold word_vectors, NN.Embedding_forward.
  apply (rowwise_bind (mapM (mapM (NN.lookup (embed_char self))))
           (fun embedded =>
              output <- convolved_characters rzero radd rmul rmax self
                          (map transpose embedded) ;;
              match output_layer self with
              | Some layer => NN.Linear_forward rzero radd rmul layer output
              | None => Ok output
              end)).
  - apply rowwise_mapM.
  - apply (rowwise_after_map transpose
             (fun rows =>
                output <- convolved_characters rzero radd rmul rmax self rows ;;
                match output_layer self with
                | Some layer => NN.Linear_forward rzero radd rmul layer output
                | None => Ok output
                end)).
    apply rowwise_bind; [apply rowwise_convolved_characters, Hdim|].
    destruct (output_layer self) as [layer|].
    + apply rowwise_mapM.
    + intros rows out H. injection H as <-. split; [reflexivity|].
      intros k x Hx. exists x. split; [exact Hx|reflexivity].
Qed.

Lemma word_vectors_width (self : CharLevelWordEmbeddingCnn R)
    (rows : list (list Z)) (out : list (list R)) :
  Forall (fun layer => dim (pool layer) = 2) (cnn_layers self) ->
  word_vectors rzero radd rmul rmax self rows = Ok out ->
  exists D, Forall (fun r => length r = D) out.
Proof.
  intros Hdim H. unfold word_vectors in H.
  destruct (NN.Embedding_forward (embed_char self) rows) as [embedded|];
    [|discriminate].
  cbn [rbind] in H.
  destruct (convolved_characters rzero radd rmul rmax self (map transpose embedded))
    as [output|] eqn:Hconv; [|discriminate].
  cbn [rbind] in H.
  destruct (output_layer self) as [layer|].
  - exists (length (combine (NN.linear_weight layer) (NN.linear_bias layer))).
    apply (mapM_Ok_Forall _ _ _ _ H). intros x y _ Hy.
    unfold NN.Linear_row in Hy. destruct (negb _); [discriminate|].
    injection Hy as <-. apply length_map.
  - injection H as <-. eapply convolved_characters_width; eassumption.
Qed.

End CharCnnRowwise.

Section ViewRows.
Context {R : Type}.

Lemma view_3_rows (d0 d1 D : nat) (t : list (list R))
    (out : list (list (list R))) :
  length t = d0 * d1 ->
  Forall (fun r => length r = D) t ->
  NN.view_3 d0 d1 t = Ok out ->
  forall b w d, b < d0 -> w < d1 ->
    nth w (nth b out []) d = nth (b * d1 + w) t d.
Proof.
  intros Hlen Hrect H b w d Hb Hw. unfold NN.view_3 in H.
  destruct (Nat.eqb_spec (d0 * d1) 0) as [E|Hpos]; [discriminate|].
  destruct (negb _); [discriminate|]. injection H as <-.
  pose proof (concat_length_rect t (d0 * d1) D Hlen Hrect) as Hflat.
  rewrite Hflat.
  replace (d0 * d1 * D / (d0 * d1)) with D
    by (rewrite (Nat.mul_comm (d0 * d1) D), Nat.div_mul; [reflexivity|exact Hpos]).
  assert (Hchunks : NN.chunks (d0 * d1) D (concat t) = t).
  { rewrite <- Hlen. rewrite <- (map_id t) at 2 3.
    rewrite <- flat_map_concat_map.
    apply (chunks_flat_map (fun x => x)), Hrect. }
  rewrite Hchunks. unfold NN.chunks.
  rewrite (nth_error_nth _ b []
             (x := firstn d1 (skipn (b * d1) t))).
  - rewrite nth_firstn. destruct (Nat.ltb_spec w d1) as [_|E]; [|lia].
    apply nth_skipn.
  - rewrite nth_error_map, nth_error_seq.
    destruct (Nat.ltb_spec b d0) as [_|E]; [|lia]. reflexivity.
Qed.

Lemma view_3_single (y : list R) : NN.view_3 1 1 [y] = Ok [[y]].
Proof.
  unfold NN.view_3. cbn [concat]. rewrite app_nil_r.
  change (1 * 1) with 1. cbn [Nat.eqb]. rewrite Nat.div_1_r, Nat.mul_1_l.
  rewrite Nat.eqb_refl. cbn [negb]. unfold NN.chunks. cbn [seq map].
  cbn [Nat.mul skipn firstn]. rewrite firstn_all. reflexivity.
Qed.

End ViewRows.

Section CharCnnWord.
Context {R : Type}.
Variable rzero : R.
Variables radd rmul rmax : R -> R -> R.

Lemma forward_word_vectors (self : CharLevelWordEmbeddingCnn R)
    (tensor : list (list (list Z))) :
  CharLevelWordEmbeddingCnn_forward rzero radd rmul rmax self tensor None
  = rbind (word_vectors rzero radd rmul rmax self (concat tensor))
          (NN.view_3 (length tensor) (length (hd [] tensor))).
Proof.
  unfold CharLevelWordEmbeddingCnn_forward, embedded_characters, embed_indices,
    word_vectors, size_3.
  destruct (NN.Embedding_forward (embed_char self) (concat tensor)) as [embedded|];
    [|reflexivity].
  cbn [rbind].
  destruct (convolved_characters rzero radd rmul rmax self (map transpose embedded))
    as [output|]; [|reflexivity].
  cbn [rbind]. reflexivity.
Qed.

(** X18. Without a mask, the character CNN embeds every word on its own:
    in the result for a batch, the vector of word [w] of example [b] is
    the vector the forward pass returns for that word alone.  No character
    of another word or of another example of the batch has an influence on
    it. *)
Theorem CharLevelWordEmbeddingCnn_forward_word (self : CharLevelWordEmbeddingCnn R)
    (tensor : list (list (list Z))) (out : list (list (list R)))
    (B W C b w : nat) :
  Forall (fun layer => dim (pool layer) = 2) (cnn_layers self) ->
  has_shape 3 [B; W; C] tensor ->
  CharLevelWordEmbeddingCnn_forward rzero radd rmul rmax self tensor None = Ok out ->
  b < B -> w < W ->
  CharLevelWordEmbeddingCnn_forward rzero radd rmul rmax self
    [[nth w (nth b tensor []) []]] None
  = Ok [[nth w (nth b out []) []]].
Proof.
  intros Hdim Hshape H Hb Hw.
  rewrite forward_word_vectors in H |- *.
  pose proof (has_shape_3_2 tensor B W C Hshape) as Hshape2.
  pose proof (hd_length tensor B W ltac:(lia) Hshape2) as HW.
  apply has_shape_2 in Hshape2. destruct Hshape2 as [HB Hrows].
  rewrite HB, HW in H.
  destruct (word_vectors rzero radd rmul rmax self (concat tensor))
    as [output|] eqn:Hout; [|discriminate].
  cbn [rbind] in H.
  destruct (rowwise_word_vectors rzero radd rmul rmax self Hdim _ _ Hout)
    as [Hlen Hrow].
  rewrite (concat_length_rect tensor B W HB Hrows) in Hlen.
  destruct (Hrow (b * W + w) (nth w (nth b tensor []) [])) as (y & Hy & Hword).
  { rewrite (nth_concat tensor W Hrows b w) by lia.
    apply nth_error_nth'. rewrite Forall_forall in Hrows.
    rewrite (Hrows (nth b tensor [])); [exact Hw|apply nth_In; lia]. }
  destruct (word_vectors_width rzero radd rmul rmax self _ _ Hdim Hout)
    as [D Hwidth].
  rewrite (view_3_rows B W D output out Hlen Hwidth H b w [] Hb Hw).
  rewrite (nth_error_nth _ _ [] Hy).
  cbn [concat app length hd]. rewrite Hword. cbn [rbind].
  apply view_3_single.
Qed.

End CharCnnWord.

Lemma CharLevelWordEmbeddingCnn_forward_word_witness :
  CharLevelWordEmbeddingCnn_forward 0%Z Z.add Z.mul Z.max Instances.char_cnn
    [[nth 0 (nth 1 [[[0; 1; 2; 2]; [2; 1; 0; 1]]; [[2; 2; 2; 2]; [1; 1; 1; 1]]]%Z [])
        []]]
    None
  = Ok [[nth 0 (nth 1 [[[10; 10; 10]; [10; 10; 10]]; [[6; 6; 6]; [0; 0; 0]]]%Z
                  []) []]].
Proof.
  apply (CharLevelWordEmbeddingCnn_forward_word 0%Z Z.add Z.mul Z.max
           Instances.char_cnn
           [[[0; 1; 2; 2]; [2; 1; 0; 1]]; [[2; 2; 2; 2]; [1; 1; 1; 1]]]%Z
           [[[10; 10; 10]; [10; 10; 10]]; [[6; 6; 6]; [0; 0; 0]]]%Z
           2 2 4 1 0).
  - repeat constructor.
  - simpl. repeat (first [split | constructor]).
  - reflexivity.
  - lia.
  - lia.
Defined.

(** ** class RNet: padding and masks agree *)

Section PaddedBeyond.
Context {F : Type}.
Variable zeros_like : F -> F.

Lemma pad_steps_padding (pad : nat -> list F) (z : F) (B : nat) :
  (forall n i, i < n -> nth_error (pad n) i = Some z) ->
  forall (bs : list nat) (d : list F) (t k : nat),
    t < length bs -> list_sum bs <= length d -> nth t bs 0 <= k -> k < B ->
    nth_error (nth t (pad_steps pad B d bs) []) k = Some z.
Proof.
  intros Hpad. induction bs as [|b bs IH]; intros d t k Ht Hd Hk HB;
    [simpl in Ht; lia|].
  simpl in Hd, Ht. destruct t as [|t]; cbn [pad_steps nth] in *.
  - rewrite nth_error_app2 by (rewrite length_firstn; lia).
    rewrite length_firstn, Nat.min_l by lia. apply Hpad. lia.
  - apply IH; [lia|rewrite length_skipn; lia|exact Hk|exact HB].
Qed.

(** In the padded form of a packed sequence, the places behind the end of
    an example hold padding. *)
Lemma padded_beyond_length (p : PackedSequence F) (lens : list nat)
    (padded : list (list F)) (lens' : list nat) (B T : nat) :
  well_packed p = true ->
  batch_sizes p = conjugate lens ->
  sorted_decreasing lens = true ->
  Forall (fun l => 1 <= l) lens ->
  length lens = B -> hd 0 lens = T ->
  pad_packed_sequence zeros_like p = Ok (padded, lens') ->
  forall t i, t < T -> i < B -> nth i lens 0 <= t ->
    exists x, In x (data p) /\ nth_error (nth t padded []) i = Some (zeros_like x).
Proof.
  intros Hwp Hbs Hsorted Hpos HB HT Hpad t i Ht Hi Hend.
  rewrite (pad_packed_sequence_Ok zeros_like p Hwp) in Hpad.
  injection Hpad as <- _.
  destruct (well_packed_inv p Hwp) as (b & bs & Hb & _ & Hbpos & _ & Hlen).
  destruct (data p) as [|x0 d] eqn:Hdata.
  { pose proof (Forall_inv Hbpos) as Hb1. simpl in Hlen, Hb1. lia. }
  exists x0. split; [left; reflexivity|].
  apply pad_steps_padding.
  - intros n k Hk. cbn [padding]. apply nth_error_repeat, Hk.
  - rewrite Hbs, conjugate_length, HT. exact Ht.
  - rewrite Hb, Hlen. apply Nat.le_refl.
  - rewrite Hbs, conjugate_nth by (rewrite HT; exact Ht).
    destruct (Nat.le_gt_cases (count_gt t lens) i) as [Hle|Hgt]; [exact Hle|].
    apply (sorted_decreasing_prefix lens Hsorted i t) in Hgt; lia.
  - rewrite Hbs, (conjugate_hd lens Hpos), HB. exact Hi.
Qed.

End PaddedBeyond.

Section DocumentsEntries.
Variables (tokens : list (list Z)) (lens : list nat) (d : Documents) (B T : nat).
Hypothesis Hbatch : batch_of B T tokens lens d.

Lemma lengths_entry (i : nat) :
  i < B -> nth i (lengths d) 0 = nth (nth i (sorted_idx d) 0) lens 0.
Proof.
  intros Hi. destruct Hbatch as (Hinit & _ & Hlen & _).
  destruct (Documents_fields tokens lens d Hinit) as (Hs & _ & Hl & _).
  rewrite Hl, Hs.
  rewrite (nth_error_nth _ i 0 (x := nth (nth i (argsort_desc lens) 0) lens 0));
    [reflexivity|].
  rewrite nth_error_map, (nth_error_nth' _ 0); [reflexivity|].
  rewrite argsort_desc_length. lia.
Qed.

Lemma mask_original_entry (e t : nat) :
  e < B -> t < T ->
  nth_error (nth e (mask_original d) []) t = Some (Nat.ltb t (nth e lens 0)).
Proof.
  intros He Ht. destruct Hbatch as (Hinit & Hshape & Hlen & _).
  destruct (Documents_fields tokens lens d Hinit) as (_ & _ & _ & Hm).
  apply has_shape_2 in Hshape. destruct Hshape as [HtB Hrows].
  rewrite Hm. rewrite (nth_map_combine _ tokens lens e [] 0 []) by lia.
  rewrite Forall_forall in Hrows.
  rewrite (Hrows (nth e tokens [])) by (apply nth_In; lia).
  rewrite nth_error_map, nth_error_seq.
  destruct (Nat.ltb_spec t T) as [_|E]; [reflexivity|lia].
Qed.

Lemma sorted_after_original (e : nat) :
  e < B -> nth (nth e (original_idx d) 0) (sorted_idx d) 0 = e.
Proof.
  intros He. destruct Hbatch as (Hinit & _ & Hlen & _).
  destruct (Documents_sorted_idx_perm tokens lens d B Hinit Hlen)
    as (Hperm & Hsl & Ho).
  pose proof (perm_after_sort_idx (sorted_idx d) Hperm) as Hmap.
  apply (f_equal (fun l => nth_error l e)) in Hmap.
  rewrite nth_error_map, nth_error_seq, Hsl in Hmap.
  destruct (Nat.ltb_spec e B) as [_|E]; [|lia].
  rewrite Ho. destruct (nth_error (sort_idx (sorted_idx d)) e) as [k|] eqn:Hk;
    [|discriminate].
  rewrite (nth_error_nth _ _ 0 Hk). injection Hmap as ->. reflexivity.
Qed.

End DocumentsEntries.

Section RNetPadding.
Context {F S : Type}.
Variable fadd : F -> F -> F.
Variable zeros_like : F -> F.
Variable self : RNet F S.
Variables (question passage : Documents).
Variables (qtokens ptokens : list (list Z)) (qlens plens : list nat).
Variables (embedded_question embedded_passage : list (list F)).
Variables (B Tq Tp : nat).
Hypothesis HB : 0 < B.
Hypothesis Hquestion : batch_of B Tq qtokens qlens question.
Hypothesis Hpassage : batch_of B Tp ptokens plens passage.
Hypothesis Heq : has_shape 2 [B; Tq] embedded_question.
Hypothesis Hep : has_shape 2 [B; Tp] embedded_passage.
Hypothesis Hencoders : encoders_keep_lengths self.

(** X19. What the pointer network receives is padded where it is masked:
    when the padding value is the same zero for every state, every place of
    the padded question and of the padded passage where the mask that
    comes with it is false holds this zero. *)
Theorem RNet_forward_padding_masked (zero : F) :
  (forall state, zeros_like state = zero) ->
  exists calls question_pad question_mask passage_pad passage_mask value,
    RNet_forward fadd zeros_like self question passage
      embedded_question embedded_passage
    = (calls ++ [PointerNetwork_call question_pad question_mask passage_pad
                   passage_mask],
       Ok value)
    /\ (forall t j, t < Tq -> j < B ->
          nth_error (nth t question_mask []) j = Some false ->
          nth_error (nth t question_pad []) j = Some zero)
    /\ (forall t j, t < Tp -> j < B ->
          nth_error (nth t passage_mask []) j = Some false ->
          nth_error (nth t passage_pad []) j = Some zero).
Proof.
  intros Hzero.
  destruct (RNet_forward_packs fadd zeros_like self question passage qtokens ptokens
              qlens plens embedded_question embedded_passage B Tq Tp
              HB Hquestion Hpassage Heq Hep Hencoders)
    as (passage_pack & q_pad & q_mask & pe_out & paired & p_mask & paired_pad
        & sm_out & self_matched & p_pad & value
        & Hrun & _ & _ & _ & _ & _ & Hpadded & Hpacks & _ & _ & _ & _ & _ & Hpm
        & question_pack & q_sorted & Hqwp & Hqbs & Hqsorted & Hentries).
  destruct (batch_of_lengths B HB question qtokens qlens Tq Hquestion)
    as (Hqs & Hql & Hqb & Hqhd & _).
  destruct (batch_of_lengths B HB passage ptokens plens Tp Hpassage)
    as (Hps & Hpl & Hpb & Hphd & _).
  destruct (batch_of_permutation B question qtokens qlens Tq Hquestion)
    as (_ & _ & _ & _ & Hqo & _).
  destruct (batch_of_permutation B passage ptokens plens Tp Hpassage)
    as (_ & Hpsl & _ & Hpsb & _ & _ & Hpmo).
  assert (Hsm : well_packed self_matched = true
                /\ batch_sizes self_matched = conjugate (lengths passage)).
  { pose proof (Forall_inv (Forall_inv_tail (Forall_inv_tail (Forall_inv_tail
                  (Forall_inv_tail Hpacks))))) as [Hwp Hc].
    split; [exact Hwp|]. rewrite <- Hc. symmetry.
    apply well_packed_batch_sizes, Hwp. }
  destruct Hsm as [Hsmwp Hsmbs].
  exists ([PairEncoder_call q_pad q_mask passage_pack]
            ++ (if residual self then [pack_residual_call pe_out passage_pack] else [])
            ++ [SelfMatchingEncoder_call paired_pad p_mask paired]
            ++ (if residual self then [pack_residual_call paired sm_out] else [])),
    q_pad, q_mask, p_pad, p_mask, value.
  split; [rewrite Hrun; f_equal; rewrite <- !app_assoc; reflexivity|].
  split.
  - intros t j Ht Hj Hmask.
    destruct (Hentries t j Ht Hj) as [Hpad Hm].
    set (e := nth j (sorted_idx passage) 0) in *.
    assert (He : e < B).
    { rewrite Forall_forall in Hpsb. apply Hpsb, nth_In. lia. }
    set (place := nth e (original_idx question) 0) in *.
    assert (Hplace : place < B).
    { rewrite Forall_forall in Hqo. apply Hqo, nth_In.
      destruct (batch_of_permutation B question qtokens qlens Tq Hquestion)
        as (_ & _ & _ & _ & _ & Hqol & _). lia. }
    rewrite Hm, (mask_original_entry qtokens qlens question B Tq Hquestion e t He Ht)
      in Hmask.
    injection Hmask as Hmask. apply Nat.ltb_ge in Hmask.
    assert (Hpos : Forall (fun l => 1 <= l) (lengths question)).
    { eapply Forall_impl; [|exact Hqb]. intros l [Hl _]. exact Hl. }
    assert (Hend : nth place (lengths question) 0 <= t).
    { rewrite (lengths_entry qtokens qlens question B Tq Hquestion place Hplace).
      unfold place.
      rewrite (sorted_after_original qtokens qlens question B Tq Hquestion e He).
      exact Hmask. }
    destruct (padded_beyond_length zeros_like question_pack (lengths question)
                q_sorted (conjugate (batch_sizes question_pack)) B Tq
                Hqwp Hqbs Hqs Hpos Hql Hqhd Hqsorted t place Ht Hplace Hend)
      as (x & _ & Hx).
    rewrite Hpad, Hx, Hzero. reflexivity.
  - intros t j Ht Hj Hmask.
    set (e := nth j (sorted_idx passage) 0) in *.
    assert (He : e < B).
    { rewrite Forall_forall in Hpsb. apply Hpsb, nth_In. lia. }
    destruct (index_select_rows (mask_original passage) (sorted_idx passage) B Tp
                Hpmo Hpsb) as [_ Hshape].
    rewrite Hpsl in Hshape.
    rewrite Hpm, (transpose_entry _ B Tp t j Hshape Ht Hj) in Hmask.
    rewrite (nth_error_nth _ j []
               (x := nth e (mask_original passage) [])) in Hmask
      by (rewrite nth_error_map, (nth_error_nth' _ 0); [reflexivity|lia]).
    rewrite (mask_original_entry ptokens plens passage B Tp Hpassage e t He Ht)
      in Hmask.
    injection Hmask as Hmask. apply Nat.ltb_ge in Hmask.
    assert (Hpos : Forall (fun l => 1 <= l) (lengths passage)).
    { eapply Forall_impl; [|exact Hpb]. intros l [Hl _]. exact Hl. }
    assert (Hend : nth j (lengths passage) 0 <= t).
    { rewrite (lengths_entry ptokens plens passage B Tp Hpassage j Hj). exact Hmask. }
    destruct (padded_beyond_length zeros_like self_matched (lengths passage)
                p_pad (lengths passage) B Tp
                Hsmwp Hsmbs Hps Hpos Hpl Hphd Hpadded t j Ht Hj Hend)
      as (x & _ & Hx).
    rewrite Hx, Hzero. reflexivity.
Qed.

End RNetPadding.

Lemma RNet_forward_padding_masked_witness :
  exists calls question_pad question_mask passage_pad passage_mask value,
    RNet_forward Z.add (fun _ => 0%Z) (Instances.net true) Instances.question
      Instances.passage Instances.embedded_question Instances.embedded_passage
    = (calls ++ [PointerNetwork_call question_pad question_mask passage_pad
                   passage_mask],
       Ok value)
    /\ (forall t j, t < 3 -> j < 2 ->
          nth_error (nth t question_mask []) j = Some false ->
          nth_error (nth t question_pad []) j = Some 0%Z)
    /\ (forall t j, t < 3 -> j < 2 ->
          nth_error (nth t passage_mask []) j = Some false ->
          nth_error (nth t passage_pad []) j = Some 0%Z).
Proof.
  apply (RNet_forward_padding_masked Z.add (fun _ => 0%Z) (Instances.net true)
           Instances.question Instances.passage
           Instances.question_tokens Instances.passage_tokens
           Instances.question_lengths Instances.passage_lengths
           Instances.embedded_question Instances.embedded_passage 2 3 3).
  - lia.
  - exact batch_of_question.
  - exact batch_of_passage.
  - exact embedded_question_shape.
  - exact embedded_passage_shape.
  - exact (net_keeps_lengths true).
  - reflexivity.
Defined.

(** ** class CharLevelWordEmbeddingCnn: words shorter than a filter *)

Lemma in_combine_seq {A : Type} (l : list A) (x : A) :
  In x l -> forall a, exists i, In (i, x) (combine (seq a (length l)) l).
Proof.
  induction l as [|y l IH]; intros Hin a; [destruct Hin|].
  destruct Hin as [->|Hin].
  - exists a. left. reflexivity.
  - destruct (IH Hin (S a)) as [i Hi]. exists i. right. exact Hi.
Qed.

Section CharCnnShortWords.
Context {R : Type}.
Variable rzero : R.
Variables radd rmul rmax : R -> R -> R.

Lemma CnnLayer_forward_too_wide (layer : CnnLayer R) (input : list (list (list R)))
    (E C : nat) :
  0 < E ->
  NN.in_channels (conv layer) = E ->
  C < NN.kernel_size (conv layer) ->
  input <> [] ->
  Forall (fun x => length x = E /\ Forall (fun r => length r = C) x) input ->
  CnnLayer_forward rzero radd rmul rmax layer input
  = Raise (RuntimeError "kernel size can't be greater than actual input size").
Proof.
  intros HE Hin Hk Hne Hshape. destruct input as [|x rest]; [congruence|].
  pose proof (Forall_inv Hshape) as [Hx Hrows]. cbv beta in Hx, Hrows.
  unfold CnnLayer_forward, NN.Conv1d_forward. cbn [mapM].
  unfold NN.Conv1d_sample at 1.
  destruct (Nat.eqb_spec (NN.kernel_size (conv layer)) 0) as [E0|_]; [lia|].
  rewrite Hx, Hin, Nat.eqb_refl. cbn [negb].
  destruct x as [|r x]; [simpl in Hx; lia|].
  pose proof (Forall_inv Hrows) as Hr. cbv beta in Hr. cbn [hd]. rewrite Hr.
  destruct (Nat.ltb_spec C (NN.kernel_size (conv layer))) as [_|Hge]; [|lia].
  reflexivity.
Qed.

(** X20. The convolutions have no padding: when the words of the input
    have fewer characters than one of the filter widths, the forward pass
    without a mask raises the error of that convolution, whatever the
    other widths are. *)
Theorem CharLevelWordEmbeddingCnn_forward_short_words (rng : Initializer R)
    (char_embedding_size char_num num_filters : nat)
    (ngram_filter_sizes : list nat) (output_dim_arg : option nat)
    (activation : R -> R) (embedding_weights : option (list (list R)))
    (padding_idx : nat) (requires_grad : bool)
    (self : CharLevelWordEmbeddingCnn R)
    (tensor : list (list (list Z))) (B W C : nat) :
  CharLevelWordEmbeddingCnn_init rzero rng char_embedding_size char_num
    num_filters ngram_filter_sizes output_dim_arg activation embedding_weights
    padding_idx requires_grad = Ok self ->
  0 < B -> 0 < W -> 0 < C ->
  Forall (fun k => 1 <= k) ngram_filter_sizes ->
  Exists (fun k => C < k) ngram_filter_sizes ->
  0 < _embedding_size self ->
  match embedding_weights with
  | Some w => Forall (fun row => length row = length (hd [] w)) w
  | None => True
  end ->
  has_shape 3 [B; W; C] tensor ->
  Forall (Forall (Forall (NN.valid_index (NN.weight (embed_char self))))) tensor ->
  CharLevelWordEmbeddingCnn_forward rzero radd rmul rmax self tensor None
  = Raise (RuntimeError "kernel size can't be greater than actual input size").
Proof.
  intros Hinit HB HW HC Hpos Hwide HE Hrect0 Ht Hvalid.
  pose proof (init_weight_rect rzero rng char_embedding_size char_num num_filters
                ngram_filter_sizes output_dim_arg activation embedding_weights
                padding_idx requires_grad self Hinit Hrect0) as Hrect.
  destruct (embedded_characters_shape self tensor B W C (_embedding_size self))
    as (embedded & Hemb & Helen & Heall); try assumption.
  assert (Hne : embedded <> []).
  { intros ->. simpl in Helen. nia. }
  assert (Hcnn : cnn_layers self
                 = map (fun '(i, filter_size) =>
                          {| conv := NN.Conv1d_init (init_conv_weight rng i)
                                       (init_conv_bias rng i) (_embedding_size self)
                                       num_filters filter_size;
                             act := activation;
                             pool := {| dim := 2 |} |})
                       (combine (seq 0 (length ngram_filter_sizes))
                                ngram_filter_sizes)).
  { pose proof (CharLevelWordEmbeddingCnn_init_Ok rzero rng char_embedding_size
                  char_num num_filters ngram_filter_sizes output_dim_arg activation
                  embedding_weights padding_idx requires_grad self Hinit) as H.
    destruct (match embedding_weights with
              | Some w => size_2 w
              | None => (char_num, char_embedding_size)
              end) as [cn ces].
    destruct H as (_ & _ & _ & _ & _ & _ & Hsize & Hlayers & _).
    rewrite Hsize. exact Hlayers. }
  assert (Hlayers : forall layer, In layer (cnn_layers self) ->
            exists i k, In k ngram_filter_sizes
              /\ layer = {| conv := NN.Conv1d_init (init_conv_weight rng i)
                                      (init_conv_bias rng i) (_embedding_size self)
                                      num_filters k;
                            act := activation;
                            pool := {| dim := 2 |} |}).
  { rewrite Hcnn. intros layer Hlayer.
    apply in_map_iff in Hlayer. destruct Hlayer as ([i k] & <- & Hin).
    exists i, k. split; [eapply in_combine_r, Hin|reflexivity]. }
  assert (Hraise : mapM (fun layer => CnnLayer_forward rzero radd rmul rmax layer
                                        embedded) (cnn_layers self)
                   = Raise (RuntimeError
                              "kernel size can't be greater than actual input size")).
  { apply mapM_Raise.
    - intros layer Hlayer. destruct (Hlayers layer Hlayer) as (i & k & Hk & ->).
      destruct (Nat.le_gt_cases k C) as [Hfit|Hshort].
      + right. rewrite Forall_forall in Hpos.
        destruct (CnnLayer_forward_shape rzero radd rmul rmax
                    {| conv := NN.Conv1d_init (init_conv_weight rng i)
                                 (init_conv_bias rng i) (_embedding_size self)
                                 num_filters k;
                       act := activation;
                       pool := {| dim := 2 |} |}
                    embedded (B * W) C) as (out & Hout & _);
          try (cbn; rewrite ?length_map, ?length_seq; reflexivity);
          try assumption.
        * cbn. split; [apply Hpos, Hk|exact Hfit].
        * exists out. exact Hout.
      + left. apply (CnnLayer_forward_too_wide _ embedded (_embedding_size self) C);
          try assumption; reflexivity.
    - apply Exists_exists in Hwide. destruct Hwide as (k & Hk & Hshort).
      apply Exists_exists.
      destruct (in_combine_seq ngram_filter_sizes k Hk 0) as [i Hi].
      exists {| conv := NN.Conv1d_init (init_conv_weight rng i)
                          (init_conv_bias rng i) (_embedding_size self)
                          num_filters k;
                act := activation;
                pool := {| dim := 2 |} |}.
      split.
      + rewrite Hcnn. apply in_map_iff.
        exists (i, k). split; [reflexivity|exact Hi].
      + apply (CnnLayer_forward_too_wide _ embedded (_embedding_size self) C);
          try assumption; reflexivity. }
  unfold CharLevelWordEmbeddingCnn_forward. rewrite Hemb. cbn [rbind].
  unfold convolved_characters. rewrite Hraise. reflexivity.
Qed.

End CharCnnShortWords.

Lemma CharLevelWordEmbeddingCnn_forward_short_words_witness :
  CharLevelWordEmbeddingCnn_forward 0%Z Z.add Z.mul Z.max Instances.char_cnn_2_5
    [[[0; 1; 2; 2]; [1; 1; 1; 1]]]%Z None
  = Raise (RuntimeError "kernel size can't be greater than actual input size").
Proof.
  apply (CharLevelWordEmbeddingCnn_forward_short_words 0%Z Z.add Z.mul Z.max
           Instances.ones 2 3 3 [2; 5] None Instances.relu (Some Instances.char_table)
           1 true Instances.char_cnn_2_5 [[[0; 1; 2; 2]; [1; 1; 1; 1]]]%Z 1 2 4).
  - reflexivity.
  - lia.
  - lia.
  - lia.
  - repeat constructor.
  - apply Exists_cons_tl, Exists_cons_hd. lia.
  - simpl. lia.
  - simpl. repeat constructor.
  - simpl. repeat (first [split | constructor]).
  - repeat (first [apply Forall_nil | apply Forall_cons]);
      unfold NN.valid_index; simpl; lia.
Defined.

(** ** class RNet: the constructor *)

Lemma init_parameters_app (before rest : list (list nat)) :
  match init_parameters (before ++ rest) with
  | initialized _ => exists orthogonal, init_parameters rest = initialized orthogonal
  | _ => True
  end.
Proof.
  induction before as [|size before IH]; cbn [app].
  - destruct (init_parameters rest); [eexists; reflexivity|exact I|exact I].
  - cbn [init_parameters]. destruct size as [|n weight_size]; [exact I|].
    destruct (Nat.ltb n 2); [exact I|]. destruct (Nat.ltb 2 n); [exact I|].
    destruct (init_parameters (before ++ rest)); [exact IH|exact I|exact I].
Qed.

Lemma init_parameters_pairs (before rest : list (list nat)) :
  Forall (fun size => hd 0 size = 2) before ->
  match init_parameters rest with
  | initialized _ => True
  | failure => init_parameters (before ++ rest) = failure
  end.
Proof.
  intros Hpairs. destruct (init_parameters rest) as [done|msg|msg] eqn:Hrest;
    [exact I| |];
    (induction Hpairs as [|size before Hsize _ IH]; cbn [app]; [exact Hrest|];
     cbn [init_parameters]; destruct size as [|n weight_size]; [discriminate|];
     cbn [hd] in Hsize; subst n; cbn [Nat.ltb Nat.leb]; rewrite IH; reflexivity).
Qed.

(** X21. The constructor of [RNet] cannot complete: its last loop unpacks
    every parameter into two values, and the parameter [V_q] of the pointer
    network, of size (1, 1, question_size), has one slice only.  Whatever the
    other parameters are, the loop is left by an exception, and when all the
    parameters before [V_q] have two slices the exception is the one raised
    for [V_q]. *)
Theorem RNet_init_raises (before after : list (list nat)) (question_size : nat) :
  (forall orthogonal,
      init_parameters (RNet_parameters before after question_size)
      <> initialized orthogonal)
  /\ (Forall (fun size => hd 0 size = 2) before ->
      init_parameters (RNet_parameters before after question_size)
      = raised_ValueError "not enough values to unpack").
Proof.
  unfold RNet_parameters. split.
  - intros orthogonal H.
    pose proof (init_parameters_app before (V_q_size question_size :: after)) as Happ.
    rewrite H in Happ. destruct Happ as [done Hdone]. discriminate.
  - intros Hpairs.
    exact (init_parameters_pairs before (V_q_size question_size :: after) Hpairs).
Qed.
